(** * Matrix product states: the chain container of TensorNetwork/MPS/MPS.py

    A shallow embedding of the class [MPS] (a Python list of rank-3 tensors
    with the attributes [mode], [Lambda] and [cut]) and of the operations
    that move, reset, merge and restore its orthogonality center.

    Python objects live in two stores: tensor objects ([DTensor]/[STensor],
    mutated in place by [relabel]) and chain objects ([MPS] instances).  A
    chain holds references to tensors, so copies made with [copy.copy] share
    them.  Exceptions keep every mutation made before they were raised. *)

From Stdlib Require Import ZArith Lia.
From stdpp Require Import base option list strings pretty gmap sorting.

Set Default Proof Using "Type".

(** ** The tensor and label library

    [HamiltonianPy.TensorNetwork.Tensor] (labels, tensors, [svd],
    [directsum]) is imported by MPS.py and is not part of the sources: the
    chain code is embedded over any implementation of the operations it
    calls.  Every operation is a total function of the values it reads. *)

Class TensorSubstrate := {
  label : Type;       (* Label *)
  ident : Type;       (* Label.identifier *)
  tolerance : Type;   (* np.float64 truncation tolerance *)
  ndarray : Type;     (* raw numpy data handed to the constructors *)
  tensor : Type;      (* the value of a DTensor/STensor object *)
  Label_new : string → label;                   (* Label(name,None,None) *)
  identifier : label → ident;                   (* l.identifier *)
  replace_identifier : label → ident → label;   (* l.replace(identifier=i) *)
  replace_flow : label → option Z → label;      (* l.replace(flow=f) *)
  label_eqb : label → label → bool;             (* l1==l2 *)
  leg : tensor → Z → label;                     (* t.labels[i] *)
  ndim : tensor → Z;                            (* t.ndim *)
  is_DTensor : tensor → bool;                   (* isinstance(t,DTensor) *)
  tmul : tensor → tensor → tensor;              (* a*b *)
  ftensordot : tensor → tensor → tensor;        (* a*(b,'ftensordot'), (a,'ftensordot')*b *)
  svd : tensor → list label → label → list label → option Z → option tolerance
        → tensor * tensor * tensor;             (* u,s,v of svd(M,row,new,col,nmax,tol) *)
  relabel_olds : tensor → list Z → list label → tensor;  (* t.relabel(olds=axes,news=ls) *)
  relabel_news : tensor → list label → tensor;  (* t.relabel(news=ls) *)
  DTensor_one : tensor;                         (* DTensor(1.0,labels=[]) *)
  same_labels : tensor → tensor → bool;         (* a.labels==b.labels *)
  directsum : tensor → tensor → list Z → tensor;
    (* directsum([a,b],labels=[l.replace(qns=None) for l in a.labels],axes=axes) *)
  DTensor_site : bool → ndarray → label → label → label → tensor;
    (* DTensor(m,labels=[L,S,R]) with the flows and dimensions of mode QN (true) or NB *)
  DTensor_bond : bool → ndarray → label → tensor;
    (* DTensor(Lambda,labels=[bond.replace(...,flow=None)]) *)
  ndarray_ndim : ndarray → Z;
  dagger : tensor → tensor;                     (* t.dagger *)
  toggle_prime : label → label;                 (* l.replace(prime=not l.prime) *)
  relabel_labels : tensor → list label → list label → tensor;
    (* t.relabel(olds=ls,news=ls') with the old legs given as labels *)
  one_times : tensor → tensor;                  (* 1.0*t *)
}.

(** ** Python values and exceptions *)

Inductive Exn :=
  | ValueError | IndexError | TypeError | AssertionError | KeyError | StopIteration
  | AttributeError.

Inductive Outcome (A : Type) :=
  | Ok (a : A)
  | Raise (e : Exn).
Arguments Ok {A} a.
Arguments Raise {A} e.

Definition raised {A} (o : Outcome A) : bool :=
  match o with Ok _ => false | Raise _ => true end.

#[global] Instance Exn_eq_dec : EqDecision Exn.
Proof. solve_decision. Defined.

(** A computation on a state of type [S]: it ends with a value or an
    exception, and in both cases with the state it has reached. *)
Definition ST (S A : Type) : Type := S → Outcome A * S.

#[global] Instance ST_ret {S} : MRet (ST S) := λ A a s, (Ok a, s).
#[global] Instance ST_bind {S} : MBind (ST S) := λ A B f m s,
  match m s with
  | (Ok a, s') => f a s'
  | (Raise e, s') => (Raise e, s')
  end.

Definition raise {S A} (e : Exn) : ST S A := λ s, (Raise e, s).

(** [l[i]] on a Python list of length [n]: a negative index counts from the
    end, anything outside [-n, n) is an IndexError. *)
Definition py_index (n : nat) (i : Z) : option nat :=
  if decide (0 ≤ i < Z.of_nat n)%Z then Some (Z.to_nat i)
  else if decide (- Z.of_nat n ≤ i < 0)%Z then Some (Z.to_nat (i + Z.of_nat n))
  else None.

(** References to tensor objects and to chain objects. *)
Abbreviation tref := nat.
Abbreviation oref := nat.

Inductive Mode := NB | QN.

#[global] Instance Mode_eq_dec : EqDecision Mode.
Proof. solve_decision. Defined.

(** An [MPS] instance: the list items and the instance attributes. *)
Record MPS := mkMPS {
  mode : Mode;
  ms : list tref;
  Lambda : option tref;
  cut : option Z;
}.

Definition nsite (c : MPS) : Z := Z.of_nat (length (ms c)).

(** A completed bond move, recorded in order (a ghost history: the source
    keeps no such log). *)
Inductive Move := MoveL | MoveR.

#[global] Instance Move_eq_dec : EqDecision Move.
Proof. solve_decision. Defined.

Section Chain.
Context `{TS : TensorSubstrate}.

(** ** Methods of one chain object

    A method runs on [self], the tensor store and the ghost history, and
    ends with a value or an exception; the state it returns is the one the
    caller sees in both cases. *)

Record Sigma := mkSigma {
  self : MPS;
  heap : list tensor;
  trail : list Move;
}.

Abbreviation Meth := (ST Sigma).

#[global] Instance tensor_inhabited : Inhabited tensor := populate DTensor_one.

Definition get_self : Meth MPS := λ s, (Ok (self s), s).
Definition put_self (c : MPS) : Meth unit := λ s, (Ok tt, mkSigma c (heap s) (trail s)).

Definition set_cut (v : option Z) : Meth unit :=
  c ← get_self; put_self (mkMPS (mode c) (ms c) (Lambda c) v).
Definition set_Lambda (v : option tref) : Meth unit :=
  c ← get_self; put_self (mkMPS (mode c) (ms c) v (cut c)).

(** [self[i]] and [self[i]=r]. *)
Definition getitem (i : Z) : Meth tref :=
  c ← get_self;
  match py_index (length (ms c)) i with
  | Some j => mret (ms c !!! j)
  | None => raise IndexError
  end.
Definition setitem (i : Z) (r : tref) : Meth unit :=
  c ← get_self;
  match py_index (length (ms c)) i with
  | Some j => put_self (mkMPS (mode c) (<[j:=r]> (ms c)) (Lambda c) (cut c))
  | None => raise IndexError
  end.

(** Arithmetic or indexing with [None] where an integer is needed. *)
Definition int_of (v : option Z) : Meth Z :=
  match v with Some k => mret k | None => raise TypeError end.
(** A tensor operand that is [None]. *)
Definition tensor_of (v : option tref) : Meth tref :=
  match v with Some r => mret r | None => raise TypeError end.

(** Tensor objects: a new object gets the next reference; [relabel] changes
    an object in place. *)
Definition alloc (t : tensor) : Meth tref :=
  λ s, (Ok (length (heap s)), mkSigma (self s) (heap s ++ [t]) (trail s)).
Definition deref (r : tref) : Meth tensor := λ s, (Ok (heap s !!! r), s).
Definition mutate (r : tref) (f : tensor → tensor) : Meth unit :=
  λ s, (Ok tt, mkSigma (self s) (<[r := f (heap s !!! r)]> (heap s)) (trail s)).
Definition log (m : Move) : Meth unit :=
  λ s, (Ok tt, mkSigma (self s) (heap s) (trail s ++ [m])).

(** [a*b] on two tensor objects. *)
Definition times (a b : tref) : Meth tref :=
  ta ← deref a; tb ← deref b; alloc (tmul ta tb).

Inductive Side := SideL | SideR.

(** [_merge_ABL_(merge)]: the assertion on [merge] holds for both sides. *)
Definition _merge_ABL_ (merge : Side) : Meth (option tref * option tref) :=
  c ← get_self;
  match cut c with
  | Some k =>
      let merge := if decide (k = nsite c) then SideL
                   else if decide (k = 0%Z) then SideR else merge in
      match merge with
      | SideL =>
          m ← getitem (k - 1);
          lam ← tensor_of (Lambda c);
          p ← times m lam;
          setitem (k - 1) p;;
          set_cut None;; set_Lambda None;;
          mret (Some m, Lambda c)
      | SideR =>
          m ← getitem k;
          lam ← tensor_of (Lambda c);
          p ← times lam m;
          setitem k p;;
          set_cut None;; set_Lambda None;;
          mret (Some m, Lambda c)
      end
  | None => mret (None, None)
  end.

(** [reset(cut)]. *)
Definition reset (cut : option Z) : Meth unit :=
  _merge_ABL_ SideR;;
  match cut with
  | None => mret tt
  | Some k =>
      c ← get_self;
      if decide (0 ≤ k ≤ nsite c)%Z then
        set_cut (Some k);;
        lam ← alloc DTensor_one;
        set_Lambda (Some lam)
      else raise ValueError
  end.

(** [_set_ABL_(m,Lambda)].  [self.table] maps the site label of every item to
    its index, a later item replacing an earlier one with an equal label;
    [table[S]] of a label that is not a key is a KeyError. *)
Fixpoint table_lookup (sites : list label) (S : label) (i : nat) : option nat :=
  match sites with
  | [] => None
  | l :: rest =>
      match table_lookup rest S (Datatypes.S i) with
      | Some j => Some j
      | None => if label_eqb l S then Some i else None
      end
  end.

Definition table_at (S : label) : Meth nat :=
  λ s,
    match table_lookup ((λ r, leg (heap s !!! r) 1) <$> ms (self s)) S 0 with
    | Some pos => (Ok pos, s)
    | None => (Raise KeyError, s)
    end.

Definition _set_ABL_ (m Lambda : option tref) : Meth unit :=
  match m, Lambda with
  | Some mr, Some lr =>
      tl ← deref lr;
      if is_DTensor tl then
        tm ← deref mr;
        if decide (ndim tm = 3%Z ∧ ndim tl = 1%Z) then
          let L := leg tm 0 in
          let S := leg tm 1 in
          let R := leg tm 2 in
          pos ← table_at S;
          setitem (Z.of_nat pos) mr;;
          set_Lambda (Some lr);;
          if label_eqb (leg tl 0) L then set_cut (Some (Z.of_nat pos))
          else if label_eqb (leg tl 0) R then set_cut (Some (Z.of_nat pos + 1)%Z)
          else raise ValueError
        else raise AssertionError
      else mret tt
  | _, _ => mret tt
  end.

(** [_set_B_and_lmove_(M,nmax,tol)]. *)
Definition _set_B_and_lmove_ (M : tref) (nmax : option Z) (tol : option tolerance)
  : Meth unit :=
  c ← get_self;
  if decide (cut c = Some 0%Z) then raise ValueError else
  tM ← deref M;
  let L := leg tM 0 in
  let S := leg tM 1 in
  let R := leg tM 2 in
  let '(u, s, v) := svd tM [L] (Label_new "__MPS_set_B_and_lmove__") [S; R] nmax tol in
  ur ← alloc u; sr ← alloc s; vr ← alloc v;
  mutate vr (λ t, relabel_olds t [0%Z] [replace_identifier (leg t 0) (identifier L)]);;
  k ← int_of (cut c);
  setitem (k - 1) vr;;
  (if decide (k = 1%Z) then
     lam ← alloc (ftensordot u s);
     set_Lambda (Some lam);;
     mutate lam (λ t, relabel_news t [replace_flow (leg t 0) None])
   else
     a ← getitem (k - 2);
     p ← times a ur;
     setitem (k - 2) p;;
     mutate p (λ t, relabel_olds t [2%Z] [replace_identifier (leg t 2) (identifier L)]);;
     mutate sr (λ t, relabel_news t [replace_identifier (leg t 0) (identifier L)]);;
     set_Lambda (Some sr));;
  set_cut (Some (k - 1)%Z);;
  log MoveL.

(** [_set_A_and_rmove_(M,nmax,tol)]. *)
Definition _set_A_and_rmove_ (M : tref) (nmax : option Z) (tol : option tolerance)
  : Meth unit :=
  c ← get_self;
  if decide (cut c = Some (nsite c)) then raise ValueError else
  tM ← deref M;
  let L := leg tM 0 in
  let S := leg tM 1 in
  let R := leg tM 2 in
  let '(u, s, v) := svd tM [L; S] (Label_new "__MPS_set_A_and_rmove__") [R] nmax tol in
  ur ← alloc u; sr ← alloc s; vr ← alloc v;
  mutate ur (λ t, relabel_olds t [2%Z] [replace_identifier (leg t 2) (identifier R)]);;
  k ← int_of (cut c);
  setitem k ur;;
  (if decide (k = nsite c - 1)%Z then
     lam ← alloc (ftensordot s v);
     set_Lambda (Some lam);;
     mutate lam (λ t, relabel_news t [replace_flow (leg t 0) None])
   else
     b ← getitem (k + 1);
     p ← times vr b;
     setitem (k + 1) p;;
     mutate p (λ t, relabel_olds t [0%Z] [replace_identifier (leg t 0) (identifier R)]);;
     mutate sr (λ t, relabel_news t [replace_identifier (leg t 0) (identifier R)]);;
     set_Lambda (Some sr));;
  set_cut (Some (k + 1)%Z);;
  log MoveR.

(** [for i in xrange(n): body]. *)
Fixpoint for_xrange (n : nat) (body : Meth unit) : Meth unit :=
  match n with
  | O => mret tt
  | Datatypes.S n' => body;; for_xrange n' body
  end.

(** The right operand of [<<=] and [>>=]: an integer or a 3-tuple. *)
Inductive ShiftArg :=
  | ShiftInt (k : Z)
  | ShiftTuple (k : Z) (nmax : option Z) (tol : option tolerance).

(** One pass of the loop of [__ilshift__] for [k>=0]:
    [self._set_B_and_lmove_(self[self.cut-1]*self.Lambda,nmax,tol)]. *)
Definition lmove_step (nmax : option Z) (tol : option tolerance) : Meth unit :=
  c ← get_self;
  k ← int_of (cut c);
  a ← getitem (k - 1);
  lam ← tensor_of (Lambda c);
  M ← times a lam;
  _set_B_and_lmove_ M nmax tol.

(** One pass for [k<0]:
    [self._set_A_and_rmove_(self.Lambda*self[self.cut],nmax,tol)]. *)
Definition rmove_step (nmax : option Z) (tol : option tolerance) : Meth unit :=
  c ← get_self;
  k ← int_of (cut c);
  b ← getitem k;
  lam ← tensor_of (Lambda c);
  M ← times lam b;
  _set_A_and_rmove_ M nmax tol.

Definition __ilshift__ (other : ShiftArg) : Meth unit :=
  let '(k, nmax, tol) :=
    match other with
    | ShiftTuple k nmax tol => (k, nmax, tol)
    | ShiftInt k => (k, None, None)
    end in
  if decide (0 ≤ k)%Z then for_xrange (Z.to_nat k) (lmove_step nmax tol)
  else for_xrange (Z.to_nat (- k)) (rmove_step nmax tol).

Definition __irshift__ (other : ShiftArg) : Meth unit :=
  __ilshift__ match other with
              | ShiftTuple k nmax tol => ShiftTuple (- k) nmax tol
              | ShiftInt k => ShiftInt (- k)
              end.

(** [canonicalize(cut,nmax,tol)]; [self.nsite/2] is Python 2 integer division. *)
Definition canonicalize (cut : Z) (nmax : option Z) (tol : option tolerance)
  : Meth unit :=
  c ← get_self;
  if decide (cut ≤ nsite c / 2)%Z then
    reset (Some (nsite c));;
    __ilshift__ (ShiftTuple (nsite c) nmax tol);;
    __irshift__ (ShiftTuple cut nmax tol)
  else
    reset (Some 0%Z);;
    __irshift__ (ShiftTuple (nsite c) nmax tol);;
    __ilshift__ (ShiftTuple (nsite c - cut) nmax tol).

(** [compress(nsweep,cut,nmax,tol)]. *)
Definition compress (nsweep : Z) (cut : Z) (nmax : option Z) (tol : option tolerance)
  : Meth unit :=
  for_xrange (Z.to_nat nsweep) (canonicalize cut nmax tol).

(** [relabel(sites,bonds)] of the chain: every tensor object is relabelled
    in place. *)
Fixpoint relabel_items (fin fout : Z) (rs : list tref) (sites bonds : list label)
  : Meth unit :=
  match rs, sites, bonds with
  | r :: rs', site :: sites', L :: ((R :: _) as bonds') =>
      mutate r (λ t, relabel_news t
        [replace_flow L (Some fin); replace_flow site (Some fin); replace_flow R (Some fout)]);;
      relabel_items fin fout rs' sites' bonds'
  | _, _, _ => mret tt
  end.

Definition relabel (sites bonds : list label) : Meth unit :=
  c ← get_self;
  if decide (length sites = length (ms c) ∧ Z.of_nat (length (ms c)) = (Z.of_nat (length bonds) - 1)%Z)
  then
    let '(fin, fout) := match mode c with QN => (1, -1)%Z | NB => (0, 0)%Z end in
    relabel_items fin fout (ms c) sites bonds;;
    match Lambda c with
    | None => mret tt
    | Some lr =>
        k ← int_of (cut c);
        match py_index (length bonds) k ≫= (bonds !!.) with
        | Some b => mutate lr (λ t, relabel_news t [replace_flow b None])
        | None => raise IndexError
        end
    end
  else raise AssertionError.

(** ** Programs over all objects

    The chain objects, the tensor objects and the ghost history.  A method
    call runs on the object its reference names and writes the object back,
    also when the method raises. *)

Record World := mkWorld {
  chains : list MPS;
  tensors : list tensor;
  moves : list Move;
}.

Abbreviation Prog := (ST World).

#[global] Instance MPS_inhabited : Inhabited MPS := populate (mkMPS NB [] None None).

Definition call {A} (r : oref) (m : Meth A) : Prog A := λ w,
  let '(o, s) := m (mkSigma (chains w !!! r) (tensors w) (moves w)) in
  (o, mkWorld (<[r := self s]> (chains w)) (heap s) (trail s)).

Definition chain_at (r : oref) : Prog MPS := λ w, (Ok (chains w !!! r), w).
Definition tensor_at (r : tref) : Prog tensor := λ w, (Ok (tensors w !!! r), w).
Definition get_world : Prog World := λ w, (Ok w, w).
Definition new_chain (c : MPS) : Prog oref :=
  λ w, (Ok (length (chains w)), mkWorld (chains w ++ [c]) (tensors w) (moves w)).
Definition new_tensor (t : tensor) : Prog tref :=
  λ w, (Ok (length (tensors w)), mkWorld (chains w) (tensors w ++ [t]) (moves w)).

Fixpoint new_tensors (ts : list tensor) : Prog (list tref) :=
  match ts with
  | [] => mret []
  | t :: ts' => r ← new_tensor t; rs ← new_tensors ts'; mret (r :: rs)
  end.

(** [copy(self)] ([copy.copy] of a list subclass): a new instance with the
    same items and the same attribute values. *)
Definition copy (r : oref) : Prog oref :=
  c ← chain_at r; new_chain c.

(** [MPS(mode,ms,Lambda,cut)] with [sites=None]: every check is an
    assertion, and a failed construction leaves nothing behind. *)
Definition __init__ (mode : Mode) (ms : list tref) (Lambda : option tref) (cut : option Z)
  : Prog oref := λ w,
  let rank3 := forallb (λ r, bool_decide (ndim (tensors w !!! r) = 3%Z)) ms in
  match Lambda, cut with
  | None, None =>
      if rank3 then new_chain (mkMPS mode ms None None) w
      else (Raise AssertionError, w)
  | Some lr, Some k =>
      if decide (0 ≤ k ≤ Z.of_nat (length ms))%Z then
        if rank3 && is_DTensor (tensors w !!! lr)
        then new_chain (mkMPS mode ms (Some lr) (Some k)) w
        else (Raise AssertionError, w)
      else (Raise AssertionError, w)
  | _, _ => (Raise AssertionError, w)
  end.

(** [MPS(mode,ms,Lambda,cut,sites,bonds)]: the items and [Lambda] are raw
    arrays wrapped into new tensors. *)
Fixpoint wrap_items (qn : bool) (arrs : list ndarray) (sites bonds : list label)
  : list tensor :=
  match arrs, sites, bonds with
  | a :: arrs', site :: sites', L :: ((R :: _) as bonds') =>
      DTensor_site qn a L site R :: wrap_items qn arrs' sites' bonds'
  | _, _, _ => []
  end.

Definition __init__labelled (mode : Mode) (arrs : list ndarray) (Lambda : option ndarray)
    (cut : option Z) (sites bonds : list label) : Prog oref :=
  let qn := bool_decide (mode = QN) in
  let shapes := bool_decide (length arrs = length sites
                             ∧ Z.of_nat (length sites) = (Z.of_nat (length bonds) - 1)%Z)
                && forallb (λ a, bool_decide (ndarray_ndim a = 3%Z)) arrs in
  match Lambda, cut with
  | None, None =>
      if shapes then
        rs ← new_tensors (wrap_items qn arrs sites bonds);
        new_chain (mkMPS mode rs None None)
      else raise AssertionError
  | Some la, Some k =>
      if decide (0 ≤ k ≤ Z.of_nat (length arrs))%Z then
        if shapes then
          rs ← new_tensors (wrap_items qn arrs sites bonds);
          match py_index (length bonds) k ≫= (bonds !!.) with
          | Some b =>
              lr ← new_tensor (DTensor_bond qn la b);
              new_chain (mkMPS mode rs (Some lr) (Some k))
          | None => raise IndexError
          end
        else raise AssertionError
      else raise AssertionError
  | _, _ => raise AssertionError
  end.

(** [self<<other] and [self>>other]: [copy(self).__ilshift__(other)]. *)
Definition __lshift__ (r : oref) (other : ShiftArg) : Prog oref :=
  r' ← copy r; call r' (__ilshift__ other);; mret r'.
Definition __rshift__ (r : oref) (other : ShiftArg) : Prog oref :=
  r' ← copy r; call r' (__irshift__ other);; mret r'.

(** The property [norm]: the [Lambda] of a copy swept from the left end to
    the right end; [None.data] is an AttributeError. *)
Definition norm (r : oref) : Prog tensor :=
  temp ← copy r;
  call temp (reset (Some 0%Z));;
  c ← chain_at temp;
  call temp (__irshift__ (ShiftInt (nsite c)));;
  c' ← chain_at temp;
  match Lambda c' with
  | Some lr => tensor_at lr
  | None => raise AttributeError
  end.

(** [t.relabel(...)] on a tensor object, outside a method of a chain. *)
Definition relabel_at (r : tref) (f : tensor → tensor) : Prog unit :=
  λ w, (Ok tt, mkWorld (chains w) (<[r := f (tensors w !!! r)]> (tensors w)) (moves w)).

(** The property [dagger]: a new chain of the daggers of the tensors. *)
Definition dagger_of (r : oref) : Prog oref :=
  c ← chain_at r;
  w ← get_world;
  ds ← new_tensors ((λ m, dagger (tensors w !!! m)) <$> ms c);
  dl ← match Lambda c with
       | None => mret None
       | Some lr => t ← tensor_at lr; l ← new_tensor (dagger t); mret (Some l)
       end;
  __init__ (mode c) ds dl (cut c).

(** The loop of [overlap] over [zip(mps1,mps2)]; [result] is [None] while it
    is still the float [1.0]. *)
Fixpoint overlap_pairs (i n : Z) (result : option tensor) (rs1 rs2 : list tref)
  : Prog (option tensor) :=
  match rs1, rs2 with
  | r1 :: rs1', r2 :: rs2' =>
      m2 ← tensor_at r2;
      let L := leg m2 0 in
      let S := leg m2 1 in
      let R := leg m2 2 in
      relabel_at r2 (λ t, relabel_labels t [S] [toggle_prime S]);;
      (if decide (i = 0)%Z
       then relabel_at r2 (λ t, relabel_labels t [L] [toggle_prime L])
       else mret tt);;
      (if decide (i = n - 1)%Z
       then relabel_at r2 (λ t, relabel_labels t [R] [toggle_prime R])
       else mret tt);;
      m1 ← tensor_at r1;
      m2' ← tensor_at r2;
      let acc := match result with
                 | None => one_times m1
                 | Some a => tmul a m1
                 end in
      overlap_pairs (i + 1) n (Some (tmul acc m2')) rs1' rs2'
  | _, _ => mret result
  end.

(** [MPS.overlap(mps1,mps2)]; the value returned stands for [result.data]. *)
Definition overlap (r1 r2 : oref) : Prog tensor :=
  c1 ← chain_at r1; c2 ← chain_at r2;
  if decide (0 < nsite c1 ∧ 0 < nsite c2)%Z then
    t1 ← copy r1;
    t2 ← dagger_of r2;
    call t1 (reset None);;
    call t2 (reset None);;
    d1 ← chain_at t1; d2 ← chain_at t2;
    res ← overlap_pairs 0 (nsite d1) None (ms d1) (ms d2);
    match res with
    | Some t => if decide (ndim t = 0%Z) then mret t else raise AssertionError
    | None => raise AttributeError
    end
  else raise AssertionError.

(** [self+other].  The right operand is a chain or something else whose
    norm is compared with zero. *)
Inductive Addend :=
  | AddMPS (other : oref)
  | AddOther (norm_is_zero : bool).

Fixpoint directsums (i : Z) (n : Z) (rs1 rs2 : list tref) : Prog (list tref) :=
  match rs1, rs2 with
  | r1 :: rs1', r2 :: rs2' =>
      m1 ← tensor_at r1; m2 ← tensor_at r2;
      if same_labels m1 m2 then
        let axes := if decide (i = 0)%Z then [0; 1]%Z
                    else if decide (i = n - 1)%Z then [1; 2]%Z else [1%Z] in
        r ← new_tensor (directsum m1 m2 axes);
        rs ← directsums (i + 1) n rs1' rs2';
        mret (r :: rs)
      else raise AssertionError
  | _, _ => mret []
  end.

Definition __add__ (r : oref) (other : Addend) : Prog oref :=
  match other with
  | AddMPS r2 =>
      c1 ← chain_at r; c2 ← chain_at r2;
      if decide (mode c1 = mode c2 ∧ nsite c1 = nsite c2) then
        if decide (r = r2) then
          '(u, lam) ← call r (_merge_ABL_ SideR);
          c ← chain_at r;
          rs ← directsums 0 (nsite c) (ms c) (ms c);
          call r (_set_ABL_ u lam);;
          __init__ (mode c) rs None None
        else
          '(u1, lam1) ← call r (_merge_ABL_ SideR);
          '(u2, lam2) ← call r2 (_merge_ABL_ SideR);
          c ← chain_at r; c' ← chain_at r2;
          rs ← directsums 0 (nsite c) (ms c) (ms c');
          call r (_set_ABL_ u1 lam1);;
          call r2 (_set_ABL_ u2 lam2);;
          __init__ (mode c) rs None None
      else raise AssertionError
  | AddOther z => if z then mret r else raise AssertionError
  end.

(** ** Layer remapping

    [relayer] reads the tree of degrees of freedom through [layers],
    [level], [labels], [table] and [descendants] and splits tensors with
    [expanded_svd]; of these only the list of layers and the level of an
    identifier decide how the center is handled.  The two loops that build
    the tensors of the new chain are taken as functions of the tensors of
    the old chain's items, in order.

    The loop for [new<old] multiplies items with [np.product] and relabels
    the product in place ([M.relabel(olds=[o1,o2],news=[n1,n2])]); the
    product of a single item is the item itself, so the loop can change a
    tensor object of the chain.  [coarse old new mode ts] gives the tensors
    of the items as the loop leaves them, and the tensors of the new chain
    or the exception the loop raised; what it did to the items stays in
    both cases.  The loop for [new>old] hands every item to [expanded_svd]
    and relabels only tensors the library returned:
    [fine old new mode nmax tol ts] gives the tensors of the new chain and
    the relabelled [(s,'ftensordot')*v] of the last split, or the exception
    raised. *)

Record DegFreTree := {
  layers : list (list string);
  level : ident → Z;
  coarse : Z → Z → Mode → list tensor → list tensor * (Exn + list tensor);
  fine : Z → Z → Mode → option Z → option tolerance → list tensor
         → Exn + (list tensor * tensor);
}.

Inductive LayerArg :=
  | LayerInt (n : Z)
  | LayerTag (t : list string).

(** [l.index(x)]: the first position of [x], a ValueError when absent. *)
Fixpoint list_index (x : list string) (l : list (list string)) (i : Z) : option Z :=
  match l with
  | [] => None
  | y :: l' => if decide (y = x) then Some i else list_index x l' (i + 1)%Z
  end.

(** The [new] and [old] of [relayer]: the index of the requested layer and
    the index of the layer the first site of the chain is on. *)
Definition target_layer (degfres : DegFreTree) (layer : LayerArg) : option Z :=
  match layer with
  | LayerInt n => Some n
  | LayerTag t => list_index t (layers degfres) 0
  end.

Definition current_layer (degfres : DegFreTree) (first : tensor) : Z :=
  (level degfres (identifier (leg first 1)) - 1)%Z.

(** The store after the loop for [new<old]: the item [rs[i]] is the object
    it was, with the value [ts[i]] the loop has left it with. *)
Definition written_back (h : list tensor) (rs : list tref) (ts : list tensor)
  : list tensor :=
  foldl (λ h rt, <[rt.1 := rt.2]> h) h (zip rs ts).

Definition write_back (rs : list tref) (ts : list tensor) : Prog unit :=
  λ w, (Ok tt, mkWorld (chains w) (written_back (tensors w) rs ts) (moves w)).

Definition relayer (r : oref) (degfres : DegFreTree) (layer : LayerArg)
    (nmax : option Z) (tol : option tolerance) : Prog oref :=
  new ← match target_layer degfres layer with
        | Some n => mret n
        | None => raise ValueError
        end;
  if decide (0 ≤ new < Z.of_nat (length (layers degfres)))%Z then
    c ← chain_at r;
    first ← match ms c with
            | [] => raise StopIteration
            | m :: _ => tensor_at m
            end;
    let old := current_layer degfres first in
    if decide (new = old) then copy r
    else
      '(t, svs) ← call r (_merge_ABL_ SideR);
      match py_index (length (layers degfres)) old with
      | None => raise IndexError
      | Some _ =>
          c ← chain_at r;
          w ← get_world;
          let ts := (λ m, tensors w !!! m) <$> ms c in
          '(Ms, center) ←
            (if decide (new < old)%Z then
               let '(ts', res) := coarse degfres old new (mode c) ts in
               write_back (ms c) ts';;
               match res with
               | inl e => raise e
               | inr vs => Ms ← new_tensors vs; mret (Ms, None)
               end
             else
               match fine degfres old new (mode c) nmax tol ts with
               | inl e => raise e
               | inr (vs, lam) =>
                   Ms ← new_tensors vs;
                   lr ← new_tensor lam;
                   mret (Ms, Some (lr, Z.of_nat (length Ms)))
               end);
          call r (_set_ABL_ t svs);;
          __init__ (mode c) Ms (fst <$> center) (snd <$> center)
      end
  else raise AssertionError.

End Chain.

(** The moves the specification gives for [canonicalize]: a chain of [n]
    sites and a target in the left half is swept rightward to [n] and then
    leftward to the target, and the mirror for the right half. *)
Definition spec_canonicalize_moves (n cut : Z) : list Move :=
  if decide (cut ≤ n / 2)%Z
  then replicate (Z.to_nat n) MoveR ++ replicate (Z.to_nat (n - cut)) MoveL
  else replicate (Z.to_nat n) MoveL ++ replicate (Z.to_nat cut) MoveR.

(** ** Views of a chain *)

Section Views.
Context `{TS : TensorSubstrate}.

(** The bounds of [l[start:stop]] on a list of length [n]: [None] is the
    default, a negative bound counts from the end, and both are clipped to
    [0, n]. *)
Definition py_bound (n : nat) (i : option Z) (default : nat) : nat :=
  match i with
  | None => default
  | Some k => if decide (k < 0)%Z then Z.to_nat (k + Z.of_nat n) else Z.to_nat k `min` n
  end.

Definition py_slice {A} (l : list A) (start stop : option Z) : list A :=
  let a := py_bound (length l) start 0 in
  let b := py_bound (length l) stop (length l) in
  take (b - a) (drop a l).

(** The properties [As] and [Bs]: [self[0:self.cut]] and
    [self[self.cut:self.nsite]]. *)
Definition As (c : MPS) : list tref := py_slice (ms c) (Some 0%Z) (cut c).
Definition Bs (c : MPS) : list tref := py_slice (ms c) (cut c) (Some (nsite c)).

(** The properties [sites] and [bonds]. *)
Definition sites (s : Sigma) : list label :=
  (λ r, replace_flow (leg (heap s !!! r) 1) None) <$> ms (self s).

Definition bonds (s : Sigma) : list label :=
  match ms (self s) with
  | [] => []
  | m0 :: _ =>
      replace_flow (leg (heap s !!! m0) 0) None
      :: ((λ r, replace_flow (leg (heap s !!! r) 2) None) <$> ms (self s))
  end.

End Views.

(** ** Scalar multiples and concatenation *)

Section Compose.
Context `{TS : TensorSubstrate}.

(** [self*other] for a scalar [other]; [by_other t] stands for the tensor
    [t*other] of the library. *)
Definition __mul__ (r : oref) (by_other : tensor → tensor) : ST World oref :=
  result ← copy r;
  c ← chain_at result;
  match Lambda c with
  | None =>
      call result (m ← getitem 0; t ← deref m; p ← alloc (by_other t); setitem 0 p)
  | Some lr =>
      call result (t ← deref lr; p ← alloc (by_other t); set_Lambda (Some p))
  end;;
  mret result.

(** [self.extend(items)]. *)
Definition extend (rs : list tref) : ST Sigma unit :=
  c ← get_self; put_self (mkMPS (mode c) (ms c ++ rs) (Lambda c) (cut c)).

(** The loop of [concatenate] over [mpses[1:]]. *)
Fixpoint concatenate_rest (result : oref) (others : list oref) : ST World unit :=
  match others with
  | [] => mret tt
  | mps :: others' =>
      res ← chain_at result;
      last ← match py_index (length (ms res)) (-1) with
             | Some j => tensor_at (ms res !!! j)
             | None => raise IndexError
             end;
      c ← chain_at mps;
      first ← match ms c with
              | m0 :: _ => tensor_at m0
              | [] => raise IndexError
              end;
      if label_eqb (leg last 2) (leg first 0) then
        '(m, lam) ← call mps (_merge_ABL_ SideR);
        c' ← chain_at mps;
        call result (extend (ms c'));;
        call mps (_set_ABL_ m lam);;
        concatenate_rest result others'
      else raise AssertionError
  end.

(** [MPS.concatenate(mpses,mode,cut)]; the argument [mode] is [md], [None]
    by default. *)
Definition concatenate (mpses : list oref) (md : option Mode) (cut : option Z)
  : ST World oref :=
  match mpses with
  | [] =>
      match md with
      | Some md => __init__ md [] None None
      | None => raise AssertionError
      end
  | first :: others =>
      w ← get_world;
      let modes := (λ r, bool_decide (mode (chains w !!! r) = QN)) <$> mpses in
      if forallb id modes || forallb negb modes then
        result ← copy first;
        call result (reset None);;
        concatenate_rest result others;;
        match cut with
        | None => mret tt
        | Some k => call result (canonicalize k None None)
        end;;
        mret result
      else raise AssertionError
  end.

End Compose.

(** * Index-sequence tables

    The class [Table] of [Basics/DegreeOfFreedom.py] is a dict from indices
    to sequence numbers.  The dict is a finite map; where the code walks
    over a dict, the order in which the dict yields its items is left to
    the implementation, here to [iteritems]. *)

Class DictOrder := {
  iteritems : ∀ {K} `{Countable K} {V}, gmap K V → list (K * V);
  iteritems_items : ∀ {K} `{Countable K} {V} (m : gmap K V),
    iteritems m ≡ₚ map_to_list m;
}.

Module DegreeOfFreedom.

(** Python's [sorted(l,key=key)]: a stable sort by [<] on the keys. *)
Section Sorted.
Context {A T : Type} (lt : T → T → Prop) `{!∀ x y, Decision (lt x y)}.

Fixpoint insert_by (key : A → T) (x : A) (l : list A) : list A :=
  match l with
  | [] => [x]
  | y :: l' => if decide (lt (key x) (key y)) then x :: y :: l'
               else y :: insert_by key x l'
  end.

Definition sorted (key : A → T) (l : list A) : list A :=
  foldl (λ acc x, insert_by key x acc) [] l.

End Sorted.

(** The order of Python 2 on what [dict.get] returns: [None] is below every
    number. *)
Definition get_lt (a b : option nat) : Prop :=
  match a, b with
  | Some x, Some y => x < y
  | None, Some _ => True
  | _, None => False
  end.

#[global] Instance get_lt_dec a b : Decision (get_lt a b).
Proof. destruct a, b; simpl; apply _. Defined.

Section Table.
Context `{DO : DictOrder} {K : Type} `{Countable K}.

(** [for i,v in enumerate(l): self[v]=i], with the count starting at [i]. *)
Fixpoint assign (i : nat) (l : list K) (self : gmap K nat) : gmap K nat :=
  match l with
  | [] => self
  | v :: l' => assign (S i) l' (<[v := i]> self)
  end.

(** [Table(indices,key)]. *)
Definition Table {T} (lt : T → T → Prop) `{!∀ x y, Decision (lt x y)}
    (indices : list K) (key : option (K → T)) : gmap K nat :=
  assign 0 (match key with
            | None => indices
            | Some f => sorted lt f indices
            end) ∅.

(** [Table.union(tables,key)], for [tables] that are all instances of
    [Table]. *)
Definition union {T} (lt : T → T → Prop) `{!∀ x y, Decision (lt x y)}
    (tables : list (gmap K nat)) (key : option (K → T)) : gmap K nat :=
  match key with
  | None =>
      (foldl (λ '(result, sum) table,
                (foldl (λ result '(k, v), <[k := v + sum]> result) result
                       (iteritems table),
                 sum + length (iteritems table)))
             (∅, 0) tables).1
  | Some f =>
      let result := foldl (λ result table, table ∪ result) ∅ tables in
      assign 0 (sorted lt f (iteritems result).*1) result
  end.

(** [self.subset(select)]. *)
Definition subset (self : gmap K nat) (select : K → bool) : gmap K nat :=
  let result := foldl (λ result '(k, v), if select k then <[k := v]> result else result)
                      ∅ (iteritems self) in
  let buff := assign 0 (sorted get_lt (λ k, result !! k) (iteritems result).*1) ∅ in
  buff ∪ result.

End Table.

(** [self.reversed_table]. *)
Definition reversed_table `{DO : DictOrder} {K V} `{Countable K, Countable V}
    (self : gmap K V) : gmap V K :=
  foldl (λ result '(k, v), <[v := k]> result) ∅ (iteritems self).

(** The class [Index]: a tuple of values with an ordered dict of its
    attributes.  A value is [None] for Python's None; an ordered dict is
    the list of its items in the order of insertion. *)
Section Index.
Context {V : Type}.

Record Index := mkIndex {
  values : list (option V);
  __dict__ : list (string * option V);
}.

(** [d[k]=v] and [d.update(items)] on an ordered dict. *)
Definition od_set (d : list (string * option V)) (k : string) (v : option V)
  : list (string * option V) :=
  if decide (k ∈ d.*1) then (λ kv, if decide (kv.1 = k) then (k, v) else kv) <$> d
  else d ++ [(k, v)].

Definition od_update (d items : list (string * option V)) : list (string * option V) :=
  foldl (λ d kv, od_set d kv.1 kv.2) d items.

(** [d.get(k)]: the value, or None for a key the dict does not have. *)
Fixpoint od_get (d : list (string * option V)) (k : string) : option V :=
  match d with
  | [] => None
  | (k', v) :: d' => if decide (k' = k) then v else od_get d' k
  end.

(** [Index(pid,iid)] of two named tuples, given as their items. *)
Definition __new__ (pid iid : list (string * option V)) : Index :=
  mkIndex (pid ++ iid).*2 (od_update (od_update [] pid) iid).

(** [map(karg.pop,keys,self)] of Python 2, which fills the shorter list up
    with None: [karg.pop(None,v)] is [v], and without a value the default of
    [pop] is None.  The second component is what is left of [karg]. *)
Fixpoint map_pop (karg : gmap string (option V)) (keys : list string)
    (self : list (option V)) : list (option V) * gmap string (option V) :=
  match keys with
  | [] => (self, karg)
  | k :: keys' =>
      let v := default None (head self) in
      let '(result, karg') := map_pop (delete k karg) keys' (tail self) in
      (default v (karg !! k) :: result, karg')
  end.

(** [self.replace] with the keyword arguments [karg]. *)
Definition replace (self : Index) (karg : gmap string (option V)) : Outcome Index :=
  let keys := (__dict__ self).*1 in
  let '(result, karg') := map_pop karg keys (values self) in
  if decide (size karg' = 0) then Ok (mkIndex result (od_update [] (zip keys result)))
  else Raise ValueError.

(** [self.__copy__()]. *)
Definition __copy__ (self : Index) : Outcome Index :=
  replace self (list_to_map (__dict__ self)).

(** [self.mask] of the attribute names [arg]. *)
Definition mask (self : Index) (arg : list string) : Outcome Index :=
  replace self (list_to_map ((λ key, (key, None)) <$> arg)).

(** [self.select] of the attribute names [arg]. *)
Definition select (self : Index) (arg : list string) : Outcome Index :=
  mask self (filter (λ key, key ∉ arg) (__dict__ self).*1).

(** [self.to_tuple(priority)]. *)
Definition to_tuple (self : Index) (priority : list string) : Outcome (list (option V)) :=
  if decide (size (list_to_set priority : gset string) < length priority)
  then Raise ValueError
  else if decide (length priority ≠ length (__dict__ self)) then Raise ValueError
  else Ok (od_get (__dict__ self) <$> priority).

End Index.

End DegreeOfFreedom.

(** The dicts that yield their items in the order of [map_to_list], on which
    the tables can be run. *)
Definition listing_order : DictOrder :=
  {| iteritems := λ K _ _ V (m : gmap K V), map_to_list m;
     iteritems_items := λ K _ _ V (m : gmap K V), reflexivity (map_to_list m) |}.

(** An index with the fields of a pid and one internal field. *)
Definition sample_pid : list (string * option nat) := [("scope", Some 1); ("site", Some 2)].
Definition sample_iid : list (string * option nat) := [("orbital", Some 3)].
Definition sample_index : DegreeOfFreedom.Index :=
  DegreeOfFreedom.__new__ sample_pid sample_iid.

(** ** A symbolic tensor library

    An implementation of the library interface on which the chain code can
    be run: a tensor is its list of legs and the expression that produced
    its data; legs are compared by identifier. *)

Module Sym.

Inductive data :=
  | Raw (n : nat)
  | One
  | Mul (a b : data)
  | FTensordot (a b : data)
  | SvdU (m : data) | SvdS (m : data) | SvdV (m : data)
  | DirectSum (a b : data) (axes : list Z)
  | Dagger (a : data).

Record lab := mkLab { name : string; flow : option Z }.
Record ten := mkTen { dense : bool; legs : list lab; content : data }.

#[global] Instance data_eq_dec : EqDecision data.
Proof. solve_decision. Defined.
#[global] Instance lab_eq_dec : EqDecision lab.
Proof. solve_decision. Defined.
#[global] Instance ten_eq_dec : EqDecision ten.
Proof. solve_decision. Defined.

Definition lab_eqb (a b : lab) : bool := bool_decide (name a = name b).

Definition leg_at (t : ten) (i : Z) : lab :=
  default (mkLab "" None) (py_index (length (legs t)) i ≫= (legs t !!.)).

Definition free (xs ys : list lab) : list lab :=
  filter (λ x, forallb (λ y, negb (lab_eqb x y)) ys = true) xs.

(** A product with a one-legged or scalar factor scales the other tensor and
    keeps its legs, which is what [_merge_ABL_] needs of [Lambda*m] and
    [m*Lambda] (the item stays a three-legged tensor with the labels of
    [m]); any other product contracts the shared legs. *)
Definition product_legs (a b : ten) : list lab :=
  if decide (length (legs a) ≤ 1) then legs b
  else if decide (length (legs b) ≤ 1) then legs a
  else free (legs a) (legs b) ++ free (legs b) (legs a).

Fixpoint set_legs (ls : list lab) (axes : list Z) (news : list lab) : list lab :=
  match axes, news with
  | i :: axes', l :: news' =>
      set_legs (match py_index (length ls) i with
                | Some j => <[j := l]> ls
                | None => ls
                end) axes' news'
  | _, _ => ls
  end.

Fixpoint set_named (ls olds news : list lab) : list lab :=
  match olds, news with
  | o :: olds', l :: news' =>
      set_named ((λ x, if lab_eqb x o then l else x) <$> ls) olds' news'
  | _, _ => ls
  end.

#[global] Instance substrate : TensorSubstrate := {|
  label := lab;
  ident := string;
  tolerance := unit;
  ndarray := nat;
  tensor := ten;
  Label_new := λ n, mkLab n None;
  identifier := name;
  replace_identifier := λ l i, mkLab i (flow l);
  replace_flow := λ l f, mkLab (name l) f;
  label_eqb := lab_eqb;
  leg := leg_at;
  ndim := λ t, Z.of_nat (length (legs t));
  is_DTensor := dense;
  tmul := λ a b, mkTen (dense a && dense b) (product_legs a b) (Mul (content a) (content b));
  ftensordot := λ a b,
    mkTen true (free (legs a) (legs b) ++ free (legs b) (legs a))
          (FTensordot (content a) (content b));
  svd := λ m row new col _ _,
    (mkTen (dense m) (row ++ [new]) (SvdU (content m)),
     mkTen true [new] (SvdS (content m)),
     mkTen (dense m) (new :: col) (SvdV (content m)));
  relabel_olds := λ t axes news, mkTen (dense t) (set_legs (legs t) axes news) (content t);
  relabel_news := λ t news, mkTen (dense t) news (content t);
  DTensor_one := mkTen true [] One;
  same_labels := λ a b, bool_decide (name <$> legs a = name <$> legs b);
  directsum := λ a b axes, mkTen true (legs a) (DirectSum (content a) (content b) axes);
  DTensor_site := λ (qn : bool) a L S R,
    mkTen true [mkLab (name L) (Some (if qn then 1 else 0)%Z);
                mkLab (name S) (Some (if qn then 1 else 0)%Z);
                mkLab (name R) (Some (if qn then -1 else 0)%Z)] (Raw a);
  DTensor_bond := λ qn a b, mkTen true [mkLab (name b) None] (Raw a);
  ndarray_ndim := λ _, 3%Z;
  dagger := λ t, mkTen (dense t) (legs t) (Dagger (content t));
  toggle_prime := λ l, mkLab (name l +:+ "'") (flow l);
  relabel_labels := λ t olds news,
    mkTen (dense t) (set_named (legs t) olds news) (content t);
  one_times := λ t, t;
|}.

(** A site tensor with legs [b<i>], [s<i>], [b<i+1>]. *)
Definition bond (i : nat) : lab := mkLab ("b" +:+ pretty i) None.
Definition phys (i : nat) : lab := mkLab ("s" +:+ pretty i) None.
Definition site (i : nat) : ten := mkTen true [bond i; phys i; bond (i + 1)] (Raw i).
Definition diag (i : nat) : ten := mkTen true [bond i] (Raw (100 + i)).

(** Three sites with the center on bond 2; the store holds the three site
    tensors and [Lambda]. *)
Definition chain3 : Sigma :=
  mkSigma (mkMPS NB [0; 1; 2] (Some 3) (Some 2%Z)) [site 0; site 1; site 2; diag 2] [].

(** Two sites and no center. *)
Definition chain2 : Sigma :=
  mkSigma (mkMPS NB [0; 1] None None) [site 0; site 1] [].

(** No site, with the center [reset(0)] leaves on an empty chain. *)
Definition chain0 : Sigma :=
  mkSigma (mkMPS NB [] (Some 0) (Some 0%Z)) [DTensor_one] [].

(** The stores of the sample chains as worlds with one chain object. *)
Definition world_of (s : Sigma) : World := mkWorld [self s] (heap s) (trail s).

Definition world3 : World := world_of chain3.
Definition world0 : World := world_of chain0.

(** A tree of three layers on which every site label is on the middle one.
    Its coarse-graining fuses the tensors into one; its fine-graining splits
    each tensor in two and ends with a one-legged [Lambda]. *)
Definition fuse (ts : list ten) : ten :=
  mkTen true [bond 0; mkLab "S0" None; bond (length ts)]
        (foldr (λ t d, Mul (content t) d) One ts).

Definition split2 (t : ten) : list ten :=
  [mkTen true (legs t) (SvdU (content t)); mkTen true (legs t) (SvdV (content t))].

Definition tree : DegFreTree := {|
  layers := [["scope"]; ["scope"; "site"]; ["scope"; "site"; "orbital"]];
  level := λ _, 2%Z;
  coarse := λ _ _ _ ts, (ts, inr [fuse ts]);
  fine := λ _ _ _ _ _ ts,
    inr (concat (split2 <$> ts), mkTen true [bond (2 * length ts)] (SvdS One));
|}.

(** The same layers with a coarse-graining in which every site of the
    coarser layer has a single descendant: the loop relabels the two bonds
    of every tensor of the chain in place and returns the merged tensors. *)
Definition rebond (i : nat) (t : ten) : ten :=
  mkTen (dense t)
        (set_named (legs t) [leg_at t 0; leg_at t (-1)]
                   [mkLab ("c" +:+ pretty i) (flow (leg_at t 0));
                    mkLab ("c" +:+ pretty (i + 1)) (flow (leg_at t (-1)))])
        (content t).

Definition tree_single : DegFreTree := {|
  layers := layers tree;
  level := level tree;
  coarse := λ _ _ _ ts,
    (imap rebond ts,
     inr (imap (λ i t, mkTen true (legs (rebond i t)) (Mul (content t) One)) ts));
  fine := fine tree;
|}.

(** Three sites of which the last two have the same site label, with the
    center on the bond between the first two. *)
Definition twin (i : nat) : ten := mkTen true [bond i; phys 1; bond (i + 1)] (Raw i).

Definition chain_twin : Sigma :=
  mkSigma (mkMPS NB [0; 1; 2] (Some 3) (Some 1%Z)) [site 0; site 1; twin 2; diag 1] [].

Definition world_twin : World := world_of chain_twin.

(** A one-legged tensor whose leg is the site label of [site 1]. *)
Definition stray : ten := mkTen true [phys 1] (Raw 100).

Definition world2 : World := mkWorld [] [site 0; site 1; stray] [].

End Sym.

(** * Properties *)

Section Facts.
Context `{TS : TensorSubstrate}.

(** ** Python indexing *)

Lemma py_index_nonneg n i :
  (0 ≤ i < Z.of_nat n)%Z → py_index n i = Some (Z.to_nat i).
Proof. intros. unfold py_index. rewrite decide_True by lia. done. Qed.

Lemma py_index_lt n i j : py_index n i = Some j → j < n.
Proof. unfold py_index. repeat case_decide; intros [=]; lia. Qed.

Lemma py_index_empty i : py_index 0 i = None.
Proof. unfold py_index. repeat case_decide; auto; lia. Qed.

(** ** Weakest preconditions of methods

    [wp m Q s] says that [Q] holds of the outcome and the final state of
    running [m] from [s]; a method always ends, so this is total. *)

Definition wp {S A} (m : ST S A) (Q : Outcome A → S → Prop) (s : S) : Prop :=
  Q (m s).1 (m s).2.

Lemma wp_bind {S A B} (m : ST S A) (f : A → ST S B) Q s :
  wp m (λ o s', match o with
               | Ok a => wp (f a) Q s'
               | Raise e => Q (Raise e) s'
               end) s →
  wp (m ≫= f) Q s.
Proof.
  unfold wp, mbind, ST_bind. destruct (m s) as [[a|e] s']; simpl; auto.
Qed.

Lemma wp_run {S A} (m : ST S A) Q s : wp m Q s → ∃ o s', m s = (o, s') ∧ Q o s'.
Proof. unfold wp. destruct (m s) as [o s']. eauto. Qed.

Lemma wp_of_run {S A} (m : ST S A) (Q : Outcome A → S → Prop) s o s' :
  m s = (o, s') → Q o s' → wp m Q s.
Proof. unfold wp. intros ->. done. Qed.

Lemma wp_mono {S A} (m : ST S A) (Q Q' : Outcome A → S → Prop) s :
  wp m Q s → (∀ o s', Q o s' → Q' o s') → wp m Q' s.
Proof. unfold wp. auto. Qed.

Lemma wp_getitem i Q s :
  match py_index (length (ms (self s))) i with
  | Some j => Q (Ok (ms (self s) !!! j)) s
  | None => Q (Raise IndexError) s
  end → wp (getitem i) Q s.
Proof.
  unfold wp, getitem, mbind, ST_bind, get_self. simpl.
  destruct (py_index _ _); simpl; auto.
Qed.

Lemma wp_setitem i r Q s :
  match py_index (length (ms (self s))) i with
  | Some j => Q (Ok tt) (mkSigma (mkMPS (mode (self s)) (<[j:=r]> (ms (self s)))
                                         (Lambda (self s)) (cut (self s)))
                                 (heap s) (trail s))
  | None => Q (Raise IndexError) s
  end → wp (setitem i r) Q s.
Proof.
  unfold wp, setitem, mbind, ST_bind, get_self. simpl.
  destruct (py_index _ _); simpl; auto.
Qed.

Lemma wp_for_xrange (I : nat → Sigma → Prop) (Q : Outcome unit → Sigma → Prop)
    n body s :
  I 0 s →
  (∀ i s, i < n → I i s →
     wp body (λ o s', match o with Ok _ => I (S i) s' | Raise e => Q (Raise e) s' end) s) →
  (∀ s, I n s → Q (Ok tt) s) →
  wp (for_xrange n body) Q s.
Proof.
  revert I s. induction n as [|n IH]; intros I s H0 Hstep Hend.
  - simpl. unfold wp. simpl. auto.
  - simpl. apply wp_bind. eapply wp_mono; [apply (Hstep 0 s); [lia|done]|].
    intros [[]|e] s' Hs'; [|done].
    apply (IH (λ i, I (S i))); auto.
    intros i s0 Hi. apply Hstep. lia.
Qed.

(** The rules of the basic steps. *)

Lemma wp_ret {S A} (a : A) Q (s : S) : Q (Ok a) s → wp (mret a) Q s.
Proof. done. Qed.
Lemma wp_raise {S A} e (Q : Outcome A → S → Prop) s : Q (Raise e) s → wp (raise e) Q s.
Proof. done. Qed.
Lemma wp_get_self Q s : Q (Ok (self s)) s → wp get_self Q s.
Proof. done. Qed.
Lemma wp_set_cut v Q s :
  Q (Ok tt) (mkSigma (mkMPS (mode (self s)) (ms (self s)) (Lambda (self s)) v)
                     (heap s) (trail s)) →
  wp (set_cut v) Q s.
Proof. done. Qed.
Lemma wp_set_Lambda v Q s :
  Q (Ok tt) (mkSigma (mkMPS (mode (self s)) (ms (self s)) v (cut (self s)))
                     (heap s) (trail s)) →
  wp (set_Lambda v) Q s.
Proof. done. Qed.
Lemma wp_int_of v Q s :
  match v with Some k => Q (Ok k) s | None => Q (Raise TypeError) s end →
  wp (int_of v) Q s.
Proof. by destruct v. Qed.
Lemma wp_tensor_of v Q s :
  match v with Some r => Q (Ok r) s | None => Q (Raise TypeError) s end →
  wp (tensor_of v) Q s.
Proof. by destruct v. Qed.
Lemma wp_alloc t Q s :
  Q (Ok (length (heap s))) (mkSigma (self s) (heap s ++ [t]) (trail s)) →
  wp (alloc t) Q s.
Proof. done. Qed.
Lemma wp_deref r Q s : Q (Ok (heap s !!! r)) s → wp (deref r) Q s.
Proof. done. Qed.
Lemma wp_mutate r f Q s :
  Q (Ok tt) (mkSigma (self s) (<[r := f (heap s !!! r)]> (heap s)) (trail s)) →
  wp (mutate r f) Q s.
Proof. done. Qed.
Lemma wp_log m Q s :
  Q (Ok tt) (mkSigma (self s) (heap s) (trail s ++ [m])) → wp (log m) Q s.
Proof. done. Qed.
Lemma wp_times a b Q s :
  Q (Ok (length (heap s)))
    (mkSigma (self s) (heap s ++ [tmul (heap s !!! a) (heap s !!! b)]) (trail s)) →
  wp (times a b) Q s.
Proof. done. Qed.

Ltac wp_beta := cbv beta iota; cbn [self heap trail ms cut Lambda mode fst snd].

Ltac wp_prim :=
  lazymatch goal with
  | |- wp (mret _) _ _ => apply wp_ret
  | |- wp (raise _) _ _ => apply wp_raise
  | |- wp get_self _ _ => apply wp_get_self
  | |- wp (set_cut _) _ _ => apply wp_set_cut
  | |- wp (set_Lambda _) _ _ => apply wp_set_Lambda
  | |- wp (int_of _) _ _ => apply wp_int_of
  | |- wp (tensor_of _) _ _ => apply wp_tensor_of
  | |- wp (alloc _) _ _ => apply wp_alloc
  | |- wp (deref _) _ _ => apply wp_deref
  | |- wp (mutate _ _) _ _ => apply wp_mutate
  | |- wp (log _) _ _ => apply wp_log
  | |- wp (times _ _) _ _ => apply wp_times
  | |- wp (getitem _) _ _ => apply wp_getitem
  | |- wp (setitem _ _) _ _ => apply wp_setitem
  end.

Ltac wp_step :=
  lazymatch goal with
  | |- wp (_ ≫= _) _ _ => apply wp_bind
  | |- wp _ _ _ => wp_prim; wp_beta
  end.
Ltac wp_steps := repeat wp_step.

Definition fresh (s : Sigma) (r : tref) : Prop := length (heap s) ≤ r.

(** What one completed bond move changes: [touched] are the positions of the
    chain that were rebound, each to a tensor object created by the move. *)
Definition moved (s s' : Sigma) (k' : Z) (mv : Move) (touched : list nat) : Prop :=
  mode (self s') = mode (self s)
  ∧ length (ms (self s')) = length (ms (self s))
  ∧ cut (self s') = Some k'
  ∧ (∃ lr, Lambda (self s') = Some lr ∧ fresh s lr)
  ∧ trail s' = trail s ++ [mv]
  ∧ heap s `prefix_of` heap s'
  ∧ (∀ i, i ∉ touched → ms (self s') !! i = ms (self s) !! i)
  ∧ (∀ i, i ∈ touched → ∃ r, ms (self s') !! i = Some r ∧ fresh s r).

Lemma prefix_insert_fresh {A} (h l : list A) r x :
  length h ≤ r → h `prefix_of` l → h `prefix_of` <[r:=x]> l.
Proof.
  intros Hr [ext ->]. exists (<[r - length h := x]> ext).
  by rewrite insert_app_r_alt.
Qed.

Lemma prefix_snoc {A} (h l : list A) x : h `prefix_of` l → h `prefix_of` l ++ [x].
Proof. intros [e ->]. exists (e ++ [x]). by rewrite app_assoc. Qed.

Definition ltouched (k : Z) : list nat :=
  if decide (k = 1%Z) then [0] else [Z.to_nat (k - 2); Z.to_nat (k - 1)].

Ltac heap_prefix :=
  repeat first [ apply prefix_insert_fresh; [rewrite ?length_insert, ?length_app; simpl; lia|]
               | apply prefix_snoc ]; done.

Lemma lmove_step_spec s k lr nmax tol :
  cut (self s) = Some k → Lambda (self s) = Some lr → (0 < k ≤ nsite (self s))%Z →
  wp (lmove_step nmax tol) (λ o s', o = Ok tt ∧ moved s s' (k - 1) MoveL (ltouched k)) s.
Proof.
  destruct s as [[md items lam ct] h tr]. unfold nsite. simpl. intros -> -> Hk.
  unfold lmove_step, _set_B_and_lmove_. wp_steps.
  rewrite py_index_nonneg by lia. wp_steps.
  rewrite decide_False by (intros [=]; lia). wp_steps.
  destruct (svd _ _ _ _ _ _) as [[u sv] v]. wp_steps.
  rewrite py_index_nonneg by lia. wp_beta.
  unfold ltouched. destruct (decide (k = 1%Z)) as [->|Hk1].
  - wp_steps. split; [done|]. unfold moved, fresh. simpl.
    rewrite ?length_insert, ?length_app. simpl.
    split_and!; auto.
    + eexists. split; [done|]. lia.
    + heap_prefix.
    + intros i Hi%not_elem_of_cons. rewrite list_lookup_insert_ne; [done|]. lia.
    + intros i Hi%list_elem_of_singleton. subst i.
      eexists. rewrite list_lookup_insert_eq by lia. split; [done|]. lia.
  - wp_steps. rewrite length_insert.
    rewrite py_index_nonneg by lia. wp_steps.
    rewrite length_insert.
    rewrite py_index_nonneg by lia. wp_steps.
    split; [done|]. unfold moved, fresh. simpl.
    rewrite ?length_insert, ?length_app. simpl.
    split_and!; auto.
    + eexists. split; [done|]. lia.
    + heap_prefix.
    + intros i [H1 [H2 _]%not_elem_of_cons]%not_elem_of_cons.
      rewrite !list_lookup_insert_ne; [done|lia|lia].
    + intros i Hi.
      apply elem_of_cons in Hi as [->|Hi%list_elem_of_singleton]; [|subst i].
      * eexists. rewrite list_lookup_insert_eq by (rewrite length_insert; lia).
        split; [done|]. lia.
      * eexists. rewrite list_lookup_insert_ne by lia.
        rewrite list_lookup_insert_eq by lia. split; [done|]. lia.
Qed.

Lemma wp_eq {S A} (m : ST S A) s x : wp m (λ o s', (o, s') = x) s → m s = x.
Proof. unfold wp. by destruct (m s). Qed.

Definition rtouched (n k : Z) : list nat :=
  if decide (k = n - 1)%Z then [Z.to_nat k] else [Z.to_nat k; Z.to_nat (k + 1)].

Lemma rmove_step_spec s k lr nmax tol :
  cut (self s) = Some k → Lambda (self s) = Some lr → (0 ≤ k < nsite (self s))%Z →
  wp (rmove_step nmax tol)
     (λ o s', o = Ok tt ∧ moved s s' (k + 1) MoveR (rtouched (nsite (self s)) k)) s.
Proof.
  destruct s as [[md items lam ct] h tr]. unfold nsite. simpl. intros -> -> Hk.
  unfold rmove_step, _set_A_and_rmove_. wp_steps.
  rewrite py_index_nonneg by lia. wp_steps.
  unfold nsite. cbn [ms].
  rewrite decide_False by (intros [=]; lia). wp_steps.
  destruct (svd _ _ _ _ _ _) as [[u sv] v]. wp_steps.
  rewrite py_index_nonneg by lia. wp_beta.
  unfold rtouched. destruct (decide (k = Z.of_nat (length items) - 1)%Z) as [Hk1|Hk1].
  - wp_steps. split; [done|]. unfold moved, fresh. simpl.
    rewrite ?length_insert, ?length_app. simpl.
    split_and!; auto.
    + eexists. split; [done|]. lia.
    + heap_prefix.
    + intros i Hi%not_elem_of_cons. rewrite list_lookup_insert_ne; [done|]. lia.
    + intros i Hi%list_elem_of_singleton. subst i.
      eexists. rewrite list_lookup_insert_eq by lia. split; [done|]. lia.
  - wp_steps. rewrite length_insert.
    rewrite py_index_nonneg by lia. wp_steps.
    rewrite length_insert.
    rewrite py_index_nonneg by lia. wp_steps.
    split; [done|]. unfold moved, fresh. simpl.
    rewrite ?length_insert, ?length_app. simpl.
    split_and!; auto.
    + eexists. split; [done|]. lia.
    + heap_prefix.
    + intros i [H1 [H2 _]%not_elem_of_cons]%not_elem_of_cons.
      rewrite !list_lookup_insert_ne; [done|lia|lia].
    + intros i Hi.
      apply elem_of_cons in Hi as [->|Hi%list_elem_of_singleton]; [|subst i].
      * eexists. rewrite list_lookup_insert_ne by lia.
        rewrite list_lookup_insert_eq by lia. split; [done|]. lia.
      * eexists. rewrite list_lookup_insert_eq by (rewrite length_insert; lia).
        split; [done|]. lia.
Qed.

(** The boundary: the primitives raise before they change anything. *)
Lemma lmove_at_zero s M nmax tol :
  cut (self s) = Some 0%Z → _set_B_and_lmove_ M nmax tol s = (Raise ValueError, s).
Proof.
  intros H. unfold _set_B_and_lmove_, mbind, ST_bind, get_self. simpl.
  rewrite decide_True by done. done.
Qed.

Lemma rmove_at_end s M nmax tol :
  cut (self s) = Some (nsite (self s)) →
  _set_A_and_rmove_ M nmax tol s = (Raise ValueError, s).
Proof.
  intros H. unfold _set_A_and_rmove_, mbind, ST_bind, get_self. simpl.
  rewrite decide_True by done. done.
Qed.

Lemma lmove_step_at_zero s nmax tol :
  cut (self s) = Some 0%Z →
  wp (lmove_step nmax tol)
     (λ o s', raised o = true ∧ self s' = self s ∧ trail s' = trail s
              ∧ heap s `prefix_of` heap s') s.
Proof.
  destruct s as [[md items lam ct] h tr]. simpl. intros ->.
  unfold lmove_step. wp_steps.
  destruct (py_index _ _); wp_beta; [|done].
  wp_steps. destruct lam; wp_beta; [|done].
  wp_steps. unfold wp. rewrite lmove_at_zero by done. simpl.
  split_and!; auto. heap_prefix.
Qed.

Lemma rmove_step_at_end s nmax tol :
  cut (self s) = Some (nsite (self s)) →
  rmove_step nmax tol s = (Raise IndexError, s).
Proof.
  destruct s as [[md items lam ct] h tr]. unfold nsite. simpl. intros ->.
  apply wp_eq. unfold rmove_step. wp_steps.
  unfold py_index. rewrite !decide_False by lia. done.
Qed.

(** ** The center *)

Definition centerless (c : MPS) : Prop := cut c = None ∧ Lambda c = None.

Definition centered (c : MPS) : Prop :=
  ∃ k lr, cut c = Some k ∧ (0 ≤ k ≤ nsite c)%Z ∧ Lambda c = Some lr.

(** Exactly one of the two. *)
Definition center_invariant (c : MPS) : Prop :=
  (centerless c ∧ ¬ centered c) ∨ (centered c ∧ ¬ centerless c).

Lemma centerless_invariant c : centerless c → center_invariant c.
Proof.
  intros [Hc Hl]. left. split; [done|]. intros (k & lr & Hk & _). congruence.
Qed.

Lemma centered_invariant c : centered c → center_invariant c.
Proof.
  intros Hc. right. split; [done|]. destruct Hc as (k & lr & Hk & _).
  intros [? _]. congruence.
Qed.

Lemma center_invariant_cases c :
  center_invariant c → centerless c ∨ centered c.
Proof. intros [[? _]|[? _]]; auto. Qed.

(** The chain after [Lambda] is merged into the tensor to its right, or to
    its left when the cut is at the right end. *)
Definition collapse (s : Sigma) : Sigma :=
  match cut (self s), Lambda (self s) with
  | Some k, Some lr =>
      let c := self s in
      if decide (k = nsite c) then
        let j := Z.to_nat (k - 1) in
        mkSigma (mkMPS (mode c) (<[j := length (heap s)]> (ms c)) None None)
                (heap s ++ [tmul (heap s !!! (ms c !!! j)) (heap s !!! lr)])
                (trail s)
      else
        let j := Z.to_nat k in
        mkSigma (mkMPS (mode c) (<[j := length (heap s)]> (ms c)) None None)
                (heap s ++ [tmul (heap s !!! lr) (heap s !!! (ms c !!! j))])
                (trail s)
  | _, _ => s
  end.

(** The trivial center [reset] installs at [k]. *)
Definition install (k : Z) (s : Sigma) : Sigma :=
  mkSigma (mkMPS (mode (self s)) (ms (self s)) (Some (length (heap s))) (Some k))
          (heap s ++ [DTensor_one]) (trail s).

(** A center has a tensor next to it unless the chain has no site. *)
Definition has_neighbour (c : MPS) : Prop := cut c = None ∨ (0 < nsite c)%Z.

Lemma merge_spec s :
  center_invariant (self s) → has_neighbour (self s) →
  wp (_merge_ABL_ SideR)
     (λ o s', o = Ok (match cut (self s) with
                      | Some k => Some (ms (self s) !!!
                                        Z.to_nat (if decide (k = nsite (self s))
                                                  then k - 1 else k)%Z)
                      | None => None
                      end, Lambda (self s))
              ∧ s' = collapse s) s.
Proof.
  destruct s as [[md items lam ct] h tr]. unfold has_neighbour, nsite, collapse. simpl.
  intros [[[Hc Hl] _]|[(k & lr & Hk & Hr & Hl) _]] Hn; simpl in *; subst.
  - unfold _merge_ABL_. wp_steps. done.
  - destruct Hn as [|Hn]; [done|]. unfold nsite in *. simpl in *.
    unfold _merge_ABL_. wp_steps. unfold nsite. cbn [ms].
    destruct (decide (k = Z.of_nat (length items))) as [Hk|Hk].
    + wp_steps. rewrite py_index_nonneg by lia. wp_steps.
      rewrite py_index_nonneg by lia. wp_steps. done.
    + assert ((if decide (k = 0%Z) then SideR else SideR) = SideR) as ->
        by (by destruct (decide _)).
      wp_steps. rewrite py_index_nonneg by lia. wp_steps.
      rewrite py_index_nonneg by lia. wp_steps. done.
Qed.

Lemma merge_empty_center s lr side :
  ms (self s) = [] → cut (self s) = Some 0%Z → Lambda (self s) = Some lr →
  _merge_ABL_ side s = (Raise IndexError, s).
Proof.
  destruct s as [[md items lam ct] h tr]. simpl. intros -> -> ->.
  apply wp_eq. unfold _merge_ABL_. wp_steps. unfold nsite. cbn [ms length].
  rewrite decide_True by done. wp_steps. rewrite py_index_empty. done.
Qed.

Lemma collapse_centerless s :
  center_invariant (self s) → centerless (self (collapse s)).
Proof.
  destruct s as [[md items lam ct] h tr]. unfold collapse. simpl.
  intros [[[Hc Hl] _]|[(k & lr & Hk & Hr & Hl) _]]; simpl in *; subst; [done|].
  by destruct (decide _).
Qed.

Lemma collapse_length s : length (ms (self (collapse s))) = length (ms (self s)).
Proof.
  unfold collapse. destruct (cut (self s)), (Lambda (self s)); try done.
  destruct (decide _); simpl; by rewrite length_insert.
Qed.

Lemma reset_spec s :
  center_invariant (self s) → has_neighbour (self s) →
  reset None s = (Ok tt, collapse s)
  ∧ ∀ k, reset (Some k) s =
         if decide (0 ≤ k ≤ nsite (self s))%Z then (Ok tt, install k (collapse s))
         else (Raise ValueError, collapse s).
Proof.
  intros Hi Hn. split; [|intros k]; apply wp_eq; unfold reset.
  - apply wp_bind. eapply wp_mono; [by apply merge_spec|].
    intros o s' [-> ->]. wp_steps. done.
  - apply wp_bind. eapply wp_mono; [by apply merge_spec|].
    intros o s' [-> ->]. wp_steps. unfold nsite. rewrite collapse_length.
    destruct (decide _); wp_steps; done.
Qed.

(** ** Sweeps *)

Lemma moved_centered s s' k' mv touched :
  moved s s' k' mv touched → (0 ≤ k' ≤ nsite (self s))%Z → centered (self s').
Proof.
  intros (Hm & Hlen & Hc & (lr & Hl & _) & _) Hk.
  exists k', lr. unfold nsite in *. rewrite Hlen. done.
Qed.

(** The state of a sweep after [i] moves from the cut [k], each move changing
    the cut by [d]. *)
Definition swept (s : Sigma) (k d : Z) (mv : Move) (i : nat) (s' : Sigma) : Prop :=
  mode (self s') = mode (self s)
  ∧ length (ms (self s')) = length (ms (self s))
  ∧ cut (self s') = Some (k + d * Z.of_nat i)%Z
  ∧ is_Some (Lambda (self s'))
  ∧ trail s' = trail s ++ replicate i mv
  ∧ heap s `prefix_of` heap s'.

Lemma swept_start s k d mv lr :
  cut (self s) = Some k → Lambda (self s) = Some lr → swept s k d mv 0 s.
Proof.
  intros Hk Hl. unfold swept. rewrite Hk, Hl. simpl.
  rewrite app_nil_r. split_and!; auto. f_equal. lia.
Qed.

Lemma swept_step s k d mv i s1 s2 touched :
  swept s k d mv i s1 → moved s1 s2 (k + d * Z.of_nat (S i)) mv touched →
  swept s k d mv (S i) s2.
Proof.
  intros (Hm & Hlen & Hc & Hl & Ht & Hp) (Hm' & Hlen' & Hc' & (lr & Hl' & _) & Ht' & Hp' & _).
  unfold swept. split_and!; try congruence.
  - by rewrite Hl'.
  - rewrite Ht', Ht, <- app_assoc. f_equal.
    change [mv] with (replicate 1 mv). rewrite <- replicate_add. f_equal. lia.
  - by etrans.
Qed.

Lemma lsweep_spec s k lr n nmax tol :
  cut (self s) = Some k → Lambda (self s) = Some lr →
  (Z.of_nat n ≤ k ≤ nsite (self s))%Z →
  wp (for_xrange n (lmove_step nmax tol))
     (λ o s', o = Ok tt ∧ swept s k (-1) MoveL n s') s.
Proof.
  intros Hk Hl Hn.
  apply (wp_for_xrange (swept s k (-1) MoveL)).
  - by eapply swept_start.
  - intros i s1 Hi Hs1. pose proof Hs1 as (Hm & Hlen & Hc & [lr1 Hl1] & Ht & Hp).
    eapply wp_mono.
    { eapply lmove_step_spec; [done|done|]. unfold nsite in *. rewrite Hlen. lia. }
    intros o s2 [-> Hmv]. eapply swept_step; [done|].
    replace (k + -1 * Z.of_nat (S i))%Z with (k + -1 * Z.of_nat i - 1)%Z by lia. done.
  - auto.
Qed.

Lemma rsweep_spec s k lr n nmax tol :
  cut (self s) = Some k → Lambda (self s) = Some lr →
  (0 ≤ k)%Z → (k + Z.of_nat n ≤ nsite (self s))%Z →
  wp (for_xrange n (rmove_step nmax tol))
     (λ o s', o = Ok tt ∧ swept s k 1 MoveR n s') s.
Proof.
  intros Hk Hl Hk0 Hn.
  apply (wp_for_xrange (swept s k 1 MoveR)).
  - by eapply swept_start.
  - intros i s1 Hi Hs1. pose proof Hs1 as (Hm & Hlen & Hc & [lr1 Hl1] & Ht & Hp).
    eapply wp_mono.
    { eapply rmove_step_spec; [done|done|]. unfold nsite in *. rewrite Hlen. lia. }
    intros o s2 [-> Hmv]. eapply swept_step; [done|].
    replace (k + 1 * Z.of_nat (S i))%Z with (k + 1 * Z.of_nat i + 1)%Z by lia. done.
  - auto.
Qed.

(** [self<<=(n,nmax,tol)] and [self>>=(n,nmax,tol)] inside the chain. *)
Lemma ilshift_spec s k lr n nmax tol :
  cut (self s) = Some k → Lambda (self s) = Some lr →
  (0 ≤ n ≤ k)%Z → (k ≤ nsite (self s))%Z →
  wp (__ilshift__ (ShiftTuple n nmax tol))
     (λ o s', o = Ok tt ∧ swept s k (-1) MoveL (Z.to_nat n) s') s.
Proof.
  intros Hk Hl Hn HN. unfold __ilshift__. rewrite decide_True by lia.
  eapply lsweep_spec; [done|done|lia].
Qed.

Lemma irshift_spec s k lr n nmax tol :
  cut (self s) = Some k → Lambda (self s) = Some lr →
  (0 ≤ n)%Z → (0 ≤ k)%Z → (k + n ≤ nsite (self s))%Z →
  wp (__irshift__ (ShiftTuple n nmax tol))
     (λ o s', o = Ok tt ∧ swept s k 1 MoveR (Z.to_nat n) s') s.
Proof.
  intros Hk Hl Hn Hk0 HN. unfold __irshift__, __ilshift__.
  destruct (decide (0 ≤ - n)%Z).
  - assert (n = 0%Z) as -> by lia. simpl. apply wp_ret. split; [done|].
    by eapply swept_start.
  - replace (- - n)%Z with n by lia. eapply rsweep_spec; [done|done|lia|lia].
Qed.

(** The moves of [canonicalize(cut)] on a chain of [n] sites, in order. *)
Definition canonicalize_moves (n cut : Z) : list Move :=
  if decide (cut ≤ n / 2)%Z
  then replicate (Z.to_nat n) MoveL ++ replicate (Z.to_nat cut) MoveR
  else replicate (Z.to_nat n) MoveR ++ replicate (Z.to_nat (n - cut)) MoveL.

Lemma install_collapse_length k s :
  length (ms (self (install k (collapse s)))) = length (ms (self s)).
Proof. simpl. apply collapse_length. Qed.

Lemma canonicalize_spec s c nmax tol :
  center_invariant (self s) → has_neighbour (self s) → (0 ≤ c ≤ nsite (self s))%Z →
  wp (canonicalize c nmax tol)
     (λ o s', o = Ok tt
              ∧ cut (self s') = Some c
              ∧ is_Some (Lambda (self s'))
              ∧ length (ms (self s')) = length (ms (self s))
              ∧ trail s' = trail s ++ canonicalize_moves (nsite (self s)) c) s.
Proof.
  intros Hi Hn Hc. set (N := nsite (self s)) in *.
  destruct (reset_spec s Hi Hn) as [_ Hreset].
  assert (trail (collapse s) = trail s) as Htr.
  { unfold collapse. destruct (cut (self s)), (Lambda (self s)); try done.
    by destruct (decide _). }
  unfold canonicalize, canonicalize_moves. apply wp_bind, wp_get_self. fold N.
  destruct (decide (c ≤ N / 2)%Z) as [Hh|Hh].
  - pose proof (Hreset N) as Hr.
    rewrite decide_True in Hr by (unfold N, nsite; lia).
    apply wp_bind. eapply wp_of_run; [exact Hr|].
    apply wp_bind. eapply wp_mono.
    { eapply (ilshift_spec _ N); simpl; [done|done|lia|].
      unfold nsite. simpl. rewrite collapse_length. fold (nsite (self s)). lia. }
    intros o s2 [-> (Hm2 & Hlen2 & Hc2 & [lr2 Hl2] & Ht2 & Hp2)].
    eapply wp_mono.
    { eapply (irshift_spec _ 0%Z); [rewrite Hc2; f_equal; lia|done|lia|lia|].
      unfold nsite. rewrite Hlen2. simpl. rewrite collapse_length.
      fold (nsite (self s)). lia. }
    intros o s3 [-> (Hm3 & Hlen3 & Hc3 & Hl3 & Ht3 & Hp3)].
    split_and!; auto.
    + rewrite Hc3. f_equal. lia.
    + rewrite Hlen3, Hlen2. simpl. apply collapse_length.
    + rewrite Ht3, Ht2. simpl. rewrite Htr. by rewrite app_assoc.
  - pose proof (Hreset 0%Z) as Hr.
    rewrite decide_True in Hr by (unfold nsite; lia).
    apply wp_bind. eapply wp_of_run; [exact Hr|].
    apply wp_bind. eapply wp_mono.
    { eapply (irshift_spec _ 0%Z); simpl; [done|done|lia|lia|].
      unfold nsite. simpl. rewrite collapse_length. fold (nsite (self s)). lia. }
    intros o s2 [-> (Hm2 & Hlen2 & Hc2 & [lr2 Hl2] & Ht2 & Hp2)].
    eapply wp_mono.
    { eapply (ilshift_spec _ N); [rewrite Hc2; f_equal; lia|done|lia|].
      unfold nsite. rewrite Hlen2. simpl. rewrite collapse_length.
      fold (nsite (self s)). lia. }
    intros o s3 [-> (Hm3 & Hlen3 & Hc3 & Hl3 & Ht3 & Hp3)].
    split_and!; auto.
    + rewrite Hc3. f_equal. lia.
    + rewrite Hlen3, Hlen2. simpl. apply collapse_length.
    + rewrite Ht3, Ht2. simpl. rewrite Htr. by rewrite app_assoc.
Qed.

(** ** The invariant under every outcome *)

(** The invariant on a chain of [n] sites. *)
Definition kept (n : nat) (s : Sigma) : Prop :=
  center_invariant (self s) ∧ length (ms (self s)) = n.

Definition keeps {A} (m : ST Sigma A) : Prop :=
  ∀ n s, kept n s → wp m (λ _ s', kept n s') s.

Lemma keeps_bind {A B} (m : ST Sigma A) (f : A → ST Sigma B) :
  keeps m → (∀ a, keeps (f a)) → keeps (m ≫= f).
Proof.
  intros Hm Hf n s Hs. apply wp_bind. eapply wp_mono; [by apply Hm|].
  intros [a|e] s' Hs'; [by apply Hf|done].
Qed.

Lemma keeps_ret {A} (a : A) : keeps (mret a).
Proof. intros n s Hs. by apply wp_ret. Qed.

Lemma keeps_raise {A} e : keeps (@raise Sigma A e).
Proof. intros n s Hs. by apply wp_raise. Qed.

Lemma keeps_for_xrange n body : keeps body → keeps (for_xrange n body).
Proof.
  intros Hb. induction n as [|n IH]; simpl; [apply keeps_ret|].
  apply keeps_bind; auto.
Qed.

Lemma kept_same_self n s s' : self s' = self s → kept n s → kept n s'.
Proof. unfold kept. by intros ->. Qed.

Lemma lmove_step_keeps nmax tol : keeps (lmove_step nmax tol).
Proof.
  intros n s [Hi Hlen].
  destruct (center_invariant_cases _ Hi) as [[Hc Hl]|(k & lr & Hk & Hr & Hl)].
  - unfold lmove_step. wp_steps. rewrite Hc. done.
  - destruct (decide (k = 0%Z)) as [->|].
    + eapply wp_mono; [by apply lmove_step_at_zero|].
      intros o s' (_ & Hs & _). by apply (kept_same_self _ s).
    + eapply wp_mono; [eapply lmove_step_spec; [done|done|lia]|].
      intros o s' [_ Hm]. split.
      * apply centered_invariant. eapply moved_centered; [done|lia].
      * destruct Hm as (_ & -> & _). done.
Qed.

Lemma rmove_step_keeps nmax tol : keeps (rmove_step nmax tol).
Proof.
  intros n s [Hi Hlen].
  destruct (center_invariant_cases _ Hi) as [[Hc Hl]|(k & lr & Hk & Hr & Hl)].
  - unfold rmove_step. wp_steps. rewrite Hc. done.
  - destruct (decide (k = nsite (self s))) as [->|].
    + eapply wp_of_run; [by apply rmove_step_at_end|]. done.
    + eapply wp_mono; [eapply rmove_step_spec; [done|done|lia]|].
      intros o s' [_ Hm]. split.
      * apply centered_invariant. eapply moved_centered; [done|lia].
      * destruct Hm as (_ & -> & _). done.
Qed.

Lemma ilshift_keeps other : keeps (__ilshift__ other).
Proof.
  unfold __ilshift__. destruct other as [k|k nmax tol]; destruct (decide _);
    apply keeps_for_xrange; auto using lmove_step_keeps, rmove_step_keeps.
Qed.

Lemma irshift_keeps other : keeps (__irshift__ other).
Proof. unfold __irshift__. apply ilshift_keeps. Qed.

(** [_merge_ABL_] leaves no center when it returns and changes nothing when
    it raises. *)
Lemma merge_outcome n s :
  kept n s →
  wp (_merge_ABL_ SideR)
     (λ o s', length (ms (self s')) = n
              ∧ if raised o then s' = s else centerless (self s')) s.
Proof.
  intros [Hi Hlen]. destruct (decide (has_neighbour (self s))) as [Hn|Hn].
  - eapply wp_mono; [by apply merge_spec|]. intros o s' [-> ->]. simpl.
    split; [by rewrite collapse_length|by apply collapse_centerless].
  - destruct (center_invariant_cases _ Hi) as [[Hc Hl]|(k & lr & Hk & Hr & Hl)].
    { destruct Hn. by left. }
    assert (ms (self s) = []) as Hnil.
    { destruct (ms (self s)) eqn:E; [done|]. destruct Hn. right.
      unfold nsite. rewrite E. simpl. lia. }
    assert (k = 0%Z) as -> by (unfold nsite in Hr; rewrite Hnil in Hr; simpl in Hr; lia).
    eapply wp_of_run; [by eapply merge_empty_center|]. done.
Qed.

Lemma merge_keeps : keeps (_merge_ABL_ SideR).
Proof.
  intros n s Hs. eapply wp_mono; [by apply merge_outcome|].
  intros [a|e] s' [Hlen Ho]; simpl in Ho.
  - split; [by apply centerless_invariant|done].
  - by subst.
Qed.

Lemma reset_keeps arg : keeps (reset arg).
Proof.
  intros n s Hs. unfold reset. apply wp_bind.
  eapply wp_mono; [by apply merge_keeps|].
  intros [a|e] s' [Hi Hlen]; [|done].
  destruct arg as [k|]; [|by apply wp_ret].
  destruct s' as [[md items lam ct] h tr]. simpl in *. wp_steps.
  unfold nsite; cbn [ms]. destruct (decide _) as [Hk|Hk]; wp_steps; [|done].
  split; [|done]. apply centered_invariant. exists k, (length h). done.
Qed.

Lemma canonicalize_keeps c nmax tol : keeps (canonicalize c nmax tol).
Proof.
  unfold canonicalize. apply keeps_bind; [intros n s Hs; by apply wp_get_self|].
  intros cur. destruct (decide _);
    repeat first [ apply reset_keeps | apply ilshift_keeps | apply irshift_keeps
                 | apply keeps_bind; [|intros _] ].
Qed.

Lemma compress_keeps nsweep c nmax tol : keeps (compress nsweep c nmax tol).
Proof. apply keeps_for_xrange, canonicalize_keeps. Qed.

(** [_set_ABL_]: only the ValueError for a [Lambda] whose leg is neither
    bond of the tensor leaves [Lambda] set without a cut. *)
Lemma table_lookup_lt sites lS i j :
  table_lookup sites lS i = Some j → i ≤ j < i + length sites.
Proof.
  revert i. induction sites as [|l rest IH]; intros i; simpl; [done|].
  destruct (table_lookup rest lS (S i)) eqn:E.
  - intros [= ->]. apply IH in E. lia.
  - destruct (label_eqb l lS); intros [=]. lia.
Qed.

Lemma wp_table_at lS Q s :
  match table_lookup ((λ r, leg (heap s !!! r) 1) <$> ms (self s)) lS 0 with
  | Some pos => Q (Ok pos) s
  | None => Q (Raise KeyError) s
  end → wp (table_at lS) Q s.
Proof. unfold wp, table_at. by destruct (table_lookup _ _ _). Qed.

Lemma set_ABL_outcome n s m lam :
  kept n s →
  wp (_set_ABL_ m lam)
     (λ o s', length (ms (self s')) = n
              ∧ (o = Raise ValueError ∨ center_invariant (self s'))) s.
Proof.
  intros [Hi Hlen]. destruct s as [[md items lm ct] h tr]. simpl in *.
  unfold _set_ABL_. destruct m as [mr|], lam as [lr|]; try (apply wp_ret; by auto).
  wp_steps. destruct (is_DTensor _); [|apply wp_ret; by auto].
  wp_steps. destruct (decide _); [|apply wp_raise; by auto].
  apply wp_bind, wp_table_at. cbn [self ms heap].
  destruct (table_lookup _ _ _) as [pos|] eqn:Hpos; wp_beta; [|by auto].
  apply table_lookup_lt in Hpos. rewrite length_fmap in Hpos.
  wp_steps. rewrite py_index_nonneg by lia. wp_steps.
  rewrite Nat2Z.id.
  destruct (label_eqb _ _); [|destruct (label_eqb _ _)]; wp_steps;
    rewrite length_insert; (split; [done|]); auto; right; apply centered_invariant.
  - exists (Z.of_nat pos), lr. unfold nsite. simpl. rewrite length_insert. split_and!; auto; lia.
  - exists (Z.of_nat pos + 1)%Z, lr. unfold nsite. simpl. rewrite length_insert.
    split_and!; auto; lia.
Qed.

(** ** One bond move, and the boundary *)

Lemma for_xrange_one {Q : Outcome unit → Sigma → Prop} body s :
  wp body (λ o s', match o with Ok _ => Q (Ok tt) s' | Raise e => Q (Raise e) s' end) s →
  wp (for_xrange 1 body) Q s.
Proof.
  intros H. simpl. apply wp_bind. eapply wp_mono; [exact H|].
  intros [[]|e] s' Hs'; [by apply wp_ret|done].
Qed.

Lemma ilshift_one s nmax tol :
  __ilshift__ (ShiftTuple 1 nmax tol) s =
  (lmove_step nmax tol ≫= λ _, mret tt) s.
Proof. reflexivity. Qed.

Lemma irshift_one s nmax tol :
  __irshift__ (ShiftTuple 1 nmax tol) s =
  (rmove_step nmax tol ≫= λ _, mret tt) s.
Proof. reflexivity. Qed.

Lemma ilshift_one_spec s k lr nmax tol :
  cut (self s) = Some k → Lambda (self s) = Some lr → (0 < k ≤ nsite (self s))%Z →
  ∃ s', __ilshift__ (ShiftTuple 1 nmax tol) s = (Ok tt, s')
        ∧ moved s s' (k - 1) MoveL (ltouched k).
Proof.
  intros Hk Hl Hr.
  destruct (wp_run _ _ _ (lmove_step_spec s k lr nmax tol Hk Hl Hr))
    as (o & s' & Hrun & -> & Hm).
  exists s'. split; [|done]. rewrite ilshift_one. unfold mbind, ST_bind. by rewrite Hrun.
Qed.

Lemma irshift_one_spec s k lr nmax tol :
  cut (self s) = Some k → Lambda (self s) = Some lr → (0 ≤ k < nsite (self s))%Z →
  ∃ s', __irshift__ (ShiftTuple 1 nmax tol) s = (Ok tt, s')
        ∧ moved s s' (k + 1) MoveR (rtouched (nsite (self s)) k).
Proof.
  intros Hk Hl Hr.
  destruct (wp_run _ _ _ (rmove_step_spec s k lr nmax tol Hk Hl Hr))
    as (o & s' & Hrun & -> & Hm).
  exists s'. split; [|done]. rewrite irshift_one. unfold mbind, ST_bind. by rewrite Hrun.
Qed.

(** C2.  On a chain with a center at [k] in [0, N]: at [k = 0] the leftward
    primitive raises ValueError with nothing changed, and [self<<=1] ends in
    an exception with the chain object as it was (the cut is not clamped);
    at [k = N] the same holds for the rightward primitive and [self>>=1];
    for [0 < k] the leftward shift returns with the cut at [k-1], and for
    [k < N] the rightward shift returns with the cut at [k+1]. *)
Theorem shift_past_boundary_raises s k lr nmax tol :
  cut (self s) = Some k → Lambda (self s) = Some lr → (0 ≤ k ≤ nsite (self s))%Z →
  (k = 0%Z →
     (∀ M, _set_B_and_lmove_ M nmax tol s = (Raise ValueError, s))
     ∧ ∃ e s', __ilshift__ (ShiftTuple 1 nmax tol) s = (Raise e, s')
               ∧ self s' = self s)
  ∧ (k = nsite (self s) →
     (∀ M, _set_A_and_rmove_ M nmax tol s = (Raise ValueError, s))
     ∧ ∃ e, __irshift__ (ShiftTuple 1 nmax tol) s = (Raise e, s))
  ∧ ((0 < k)%Z →
     ∃ s', __ilshift__ (ShiftTuple 1 nmax tol) s = (Ok tt, s')
           ∧ cut (self s') = Some (k - 1)%Z)
  ∧ ((k < nsite (self s))%Z →
     ∃ s', __irshift__ (ShiftTuple 1 nmax tol) s = (Ok tt, s')
           ∧ cut (self s') = Some (k + 1)%Z).
Proof.
  intros Hk Hl Hr. split_and!.
  - intros ->. split; [intros M; by apply lmove_at_zero|].
    destruct (wp_run _ _ _ (lmove_step_at_zero s nmax tol Hk))
      as (o & s' & Hrun & Ho & Hs & _).
    destruct o as [a|e]; [done|]. exists e, s'. split; [|done].
    rewrite ilshift_one. unfold mbind, ST_bind. by rewrite Hrun.
  - intros ->. split; [intros M; by apply rmove_at_end|].
    exists IndexError. rewrite irshift_one. unfold mbind, ST_bind.
    by rewrite rmove_step_at_end.
  - intros H0. destruct (ilshift_one_spec s k lr nmax tol) as (s' & Hrun & Hm);
      [done|done|lia|].
    exists s'. split; [done|]. by destruct Hm as (_ & _ & -> & _).
  - intros HN. destruct (irshift_one_spec s k lr nmax tol) as (s' & Hrun & Hm);
      [done|done|lia|].
    exists s'. split; [done|]. by destruct Hm as (_ & _ & -> & _).
Qed.

(** C3, as the code has it.  On a chain with a center at [k], [0 < k < N],
    [self<<=1] returns and rebinds exactly positions [k-2] (when [k >= 2]) and
    [k-1], and [self>>=1] returns and rebinds exactly positions [k] and [k+1]
    (when [k <= N-2]), each to a tensor object made by the move; [Lambda] is
    a new object and the cut moves by one; every other position holds the
    object it held, and no object that existed before is modified. *)
Theorem shift_rebinds_neighbours s k lr nmax tol :
  cut (self s) = Some k → Lambda (self s) = Some lr → (0 < k < nsite (self s))%Z →
  (∃ s', __ilshift__ (ShiftTuple 1 nmax tol) s = (Ok tt, s')
         ∧ moved s s' (k - 1) MoveL (ltouched k))
  ∧ (∃ s', __irshift__ (ShiftTuple 1 nmax tol) s = (Ok tt, s')
           ∧ moved s s' (k + 1) MoveR (rtouched (nsite (self s)) k)).
Proof.
  intros Hk Hl Hr. split.
  - apply (ilshift_one_spec s k lr); [done|done|lia].
  - apply (irshift_one_spec s k lr); [done|done|lia].
Qed.

(** C4, as the code has it.  On a chain of [N] sites whose center, if any,
    has a neighbouring tensor, [canonicalize(c)] with [0 <= c <= N] returns
    with the cut at [c], after [N] leftward moves followed by [c] rightward
    moves when [c <= N/2], and after [N] rightward moves followed by [N-c]
    leftward moves otherwise. *)
Theorem canonicalize_sweeps s c nmax tol :
  center_invariant (self s) → has_neighbour (self s) → (0 ≤ c ≤ nsite (self s))%Z →
  ∃ s', canonicalize c nmax tol s = (Ok tt, s')
        ∧ cut (self s') = Some c
        ∧ is_Some (Lambda (self s'))
        ∧ trail s' = trail s ++ canonicalize_moves (nsite (self s)) c.
Proof.
  intros Hi Hn Hc.
  destruct (wp_run _ _ _ (canonicalize_spec s c nmax tol Hi Hn Hc))
    as (o & s' & Hrun & -> & Hcut & Hl & _ & Ht).
  by exists s'.
Qed.

(** C6, as the code has it.  On a chain whose center, if any, has a
    neighbouring tensor, [reset(k)] with [0 <= k <= N] returns the chain
    collapsed ([Lambda] merged into the tensor to its right, or to its left
    when the cut was [N]) with the scalar [DTensor(1.0,labels=[])] as its
    [Lambda] and the cut at [k]; [reset(None)] returns the collapsed chain,
    which has no center. *)
Theorem reset_collapses_then_installs s k :
  center_invariant (self s) → has_neighbour (self s) → (0 ≤ k ≤ nsite (self s))%Z →
  reset (Some k) s = (Ok tt, install k (collapse s))
  ∧ reset None s = (Ok tt, collapse s)
  ∧ centerless (self (collapse s))
  ∧ heap (install k (collapse s)) !! length (heap (collapse s)) = Some DTensor_one.
Proof.
  intros Hi Hn Hk. destruct (reset_spec s Hi Hn) as [Hnone Hsome].
  split_and!; auto.
  - rewrite Hsome. by rewrite decide_True.
  - by apply collapse_centerless.
  - simpl. rewrite lookup_app_r by lia. by rewrite Nat.sub_diag.
Qed.

(** C10, as the code has it.  On a chain whose center, if any, has a
    neighbouring tensor, [reset(k)] with [k < 0] or [k > N] raises ValueError
    and leaves the collapsed chain, which has no center and differs from the
    chain before whenever that had one. *)
Theorem reset_out_of_range_leaves_collapsed s k :
  center_invariant (self s) → has_neighbour (self s) →
  (k < 0 ∨ nsite (self s) < k)%Z →
  reset (Some k) s = (Raise ValueError, collapse s)
  ∧ centerless (self (collapse s))
  ∧ (centered (self s) → collapse s ≠ s).
Proof.
  intros Hi Hn Hk. destruct (reset_spec s Hi Hn) as [_ Hsome].
  split_and!.
  - rewrite Hsome. by rewrite decide_False by lia.
  - by apply collapse_centerless.
  - intros (k' & lr & Hc & _) Heq.
    pose proof (collapse_centerless s Hi) as [Hc' _]. rewrite Heq in Hc'. congruence.
Qed.

(** ** Programs over all objects *)

Lemma wp_call {A} r (m : ST Sigma A) Q w :
  wp m (λ o s', Q o (mkWorld (<[r := self s']> (chains w)) (heap s') (trail s')))
     (mkSigma (chains w !!! r) (tensors w) (moves w)) →
  wp (call r m) Q w.
Proof. unfold wp, call. by destruct (m _) as [o s']. Qed.

Lemma wp_chain_at r Q w : Q (Ok (chains w !!! r)) w → wp (chain_at r) Q w.
Proof. done. Qed.
Lemma wp_tensor_at r Q w : Q (Ok (tensors w !!! r)) w → wp (tensor_at r) Q w.
Proof. done. Qed.
Lemma wp_get_world Q w : Q (Ok w) w → wp get_world Q w.
Proof. done. Qed.
Lemma wp_new_chain c Q w :
  Q (Ok (length (chains w))) (mkWorld (chains w ++ [c]) (tensors w) (moves w)) →
  wp (new_chain c) Q w.
Proof. done. Qed.
Lemma wp_new_tensor t Q w :
  Q (Ok (length (tensors w))) (mkWorld (chains w) (tensors w ++ [t]) (moves w)) →
  wp (new_tensor t) Q w.
Proof. done. Qed.

Lemma new_tensors_run ts w :
  new_tensors ts w =
  (Ok (seq (length (tensors w)) (length ts)),
   mkWorld (chains w) (tensors w ++ ts) (moves w)).
Proof.
  revert w. induction ts as [|t ts IH]; intros [cs hs mv]; simpl.
  - by rewrite app_nil_r.
  - unfold mbind, ST_bind, new_tensor at 1. simpl. rewrite IH. simpl.
    rewrite length_app, <- app_assoc. simpl. by rewrite Nat.add_1_r.
Qed.

Lemma wp_new_tensors ts Q w :
  Q (Ok (seq (length (tensors w)) (length ts)))
    (mkWorld (chains w) (tensors w ++ ts) (moves w)) →
  wp (new_tensors ts) Q w.
Proof. unfold wp. by rewrite new_tensors_run. Qed.

Lemma wp_write_back rs ts Q w :
  Q (Ok tt) (mkWorld (chains w) (written_back (tensors w) rs ts) (moves w)) →
  wp (write_back rs ts) Q w.
Proof. done. Qed.

Ltac wpw_beta :=
  cbv beta iota; cbn [chains tensors moves self heap trail ms cut Lambda mode fst snd].

Ltac wpw_prim :=
  lazymatch goal with
  | |- wp (mret _) _ _ => apply wp_ret
  | |- wp (raise _) _ _ => apply wp_raise
  | |- wp (chain_at _) _ _ => apply wp_chain_at
  | |- wp (tensor_at _) _ _ => apply wp_tensor_at
  | |- wp get_world _ _ => apply wp_get_world
  | |- wp (new_chain _) _ _ => apply wp_new_chain
  | |- wp (new_tensor _) _ _ => apply wp_new_tensor
  | |- wp (new_tensors _) _ _ => apply wp_new_tensors
  | |- wp (write_back _ _) _ _ => apply wp_write_back
  end.

Ltac wpw_step :=
  lazymatch goal with
  | |- wp (_ ≫= _) _ _ => apply wp_bind
  | |- wp _ _ _ => wpw_prim; wpw_beta
  end.
Ltac wpw_steps := repeat wpw_step.

(** C8, as the code has it.  On a chain with at least one site, [relayer]
    with the target layer equal to the layer of the chain returns, without
    raising, a new chain object whose mode, items, [Lambda] and cut are those
    of the chain: the items and [Lambda] are the same tensor objects, no
    object is created besides the chain object, and nothing else changes. *)
Theorem relayer_same_layer_copies w r degfres layer nmax tol c m0 rest new :
  chains w !! r = Some c → ms c = m0 :: rest →
  target_layer degfres layer = Some new →
  (0 ≤ new < Z.of_nat (length (layers degfres)))%Z →
  current_layer degfres (tensors w !!! m0) = new →
  relayer r degfres layer nmax tol w =
  (Ok (length (chains w)), mkWorld (chains w ++ [c]) (tensors w) (moves w)).
Proof.
  intros Hr Hms Ht Hnew Hold. apply wp_eq. unfold relayer.
  rewrite Ht. wpw_steps. rewrite decide_True by done.
  wpw_steps. rewrite (list_lookup_total_correct _ _ _ Hr), Hms.
  wpw_steps. rewrite decide_True by done.
  unfold copy. wpw_steps. by rewrite (list_lookup_total_correct _ _ _ Hr).
Qed.

(** ** The invariant over all chain objects *)

Definition all_centers_ok (w : World) : Prop :=
  ∀ r c, chains w !! r = Some c → center_invariant c.

(** The public operations that change a chain in place. *)
Inductive InPlace : ST Sigma unit → Prop :=
  | InPlace_ilshift other : InPlace (__ilshift__ other)
  | InPlace_irshift other : InPlace (__irshift__ other)
  | InPlace_canonicalize c nmax tol : InPlace (canonicalize c nmax tol)
  | InPlace_compress n c nmax tol : InPlace (compress n c nmax tol)
  | InPlace_reset arg : InPlace (reset arg).

Lemma inplace_keeps m : InPlace m → keeps m.
Proof.
  destruct 1; auto using ilshift_keeps, irshift_keeps, canonicalize_keeps,
    compress_keeps, reset_keeps.
Qed.

(** Programs that keep the invariant of every chain object however they
    end. *)
Definition keeps_all {A} (m : ST World A) : Prop :=
  ∀ w, all_centers_ok w → wp m (λ _ w', all_centers_ok w') w.

Lemma keeps_all_bind {A B} (m : ST World A) (f : A → ST World B) :
  keeps_all m → (∀ a, keeps_all (f a)) → keeps_all (m ≫= f).
Proof.
  intros Hm Hf w Hw. apply wp_bind. eapply wp_mono; [by apply Hm|].
  intros [a|e] w' Hw'; [by apply Hf|done].
Qed.

Lemma keeps_all_pure {A} (m : ST World A) :
  (∀ w, chains (m w).2 = chains w) → keeps_all m.
Proof. intros H w Hw. unfold wp. intros r c. rewrite H. apply Hw. Qed.

Lemma keeps_all_ret {A} (a : A) : keeps_all (mret a).
Proof. by apply keeps_all_pure. Qed.
Lemma keeps_all_raise {A} e : keeps_all (@raise World A e).
Proof. by apply keeps_all_pure. Qed.

Definition value_error {A} (o : Outcome A) : Prop := o = Raise ValueError.

(** Programs that keep the invariant of every chain object unless they end
    in a ValueError. *)
Definition guards {A} (m : ST World A) : Prop :=
  ∀ w, all_centers_ok w → wp m (λ o w', value_error o ∨ all_centers_ok w') w.

Lemma guards_bind {A B} (m : ST World A) (f : A → ST World B) :
  guards m → (∀ a, guards (f a)) → guards (m ≫= f).
Proof.
  intros Hm Hf w Hw. apply wp_bind. eapply wp_mono; [by apply Hm|].
  intros [a|e] w' [Ho|Hw']; try done.
  - by apply Hf.
  - left. unfold value_error in *. congruence.
  - by right.
Qed.

Lemma keeps_all_guards {A} (m : ST World A) : keeps_all m → guards m.
Proof. intros Hm w Hw. eapply wp_mono; [by apply Hm|]. intros; by right. Qed.

Lemma guards_pure {A} (m : ST World A) :
  (∀ w, chains (m w).2 = chains w) → guards m.
Proof. intros H. by apply keeps_all_guards, keeps_all_pure. Qed.

Lemma guards_ret {A} (a : A) : guards (mret a).
Proof. by apply guards_pure. Qed.
Lemma guards_raise {A} e : guards (@raise World A e).
Proof. by apply guards_pure. Qed.

Lemma inhabitant_centerless : center_invariant (inhabitant : MPS).
Proof. by apply centerless_invariant. Qed.

Lemma lookup_total_center_ok w r : all_centers_ok w → center_invariant (chains w !!! r).
Proof.
  intros Hw. destruct (chains w !! r) as [c|] eqn:E.
  - rewrite (list_lookup_total_correct _ _ _ E). by eapply Hw.
  - rewrite list_lookup_total_alt, E. apply inhabitant_centerless.
Qed.

Lemma all_centers_ok_insert w r c h tr :
  all_centers_ok w → center_invariant c →
  all_centers_ok (mkWorld (<[r := c]> (chains w)) h tr).
Proof.
  intros Hw Hc r0 c0 H0. simpl in H0.
  apply list_lookup_insert_Some in H0 as [(-> & <- & _)|(Hne & H0)]; [done|].
  by eapply Hw.
Qed.

Lemma all_centers_ok_snoc w c h tr :
  all_centers_ok w → center_invariant c →
  all_centers_ok (mkWorld (chains w ++ [c]) h tr).
Proof.
  intros Hw Hc r0 c0 H0. simpl in H0.
  apply lookup_app_Some in H0 as [H0|[_ H0]]; [by eapply Hw|].
  apply list_lookup_singleton_Some in H0 as [_ <-]. done.
Qed.

Lemma call_guards {A} r (m : ST Sigma A) :
  (∀ n s, kept n s →
     wp m (λ o s', value_error o ∨ center_invariant (self s')) s) →
  guards (call r m).
Proof.
  intros Hm w Hw. apply wp_call.
  eapply wp_mono; [apply (Hm (length (ms (chains w !!! r))))|].
  - split; [|done]. simpl. by apply lookup_total_center_ok.
  - intros o s' [Ho|Hs']; [by left|right]. by apply all_centers_ok_insert.
Qed.

Lemma call_keeps {A} r (m : ST Sigma A) w :
  keeps m → all_centers_ok w → wp (call r m) (λ _ w', all_centers_ok w') w.
Proof.
  intros Hm Hw. apply wp_call.
  eapply wp_mono; [apply (Hm (length (ms (chains w !!! r))))|].
  - split; [|done]. simpl. by apply lookup_total_center_ok.
  - intros o s' [Hs' _]. by apply all_centers_ok_insert.
Qed.

Lemma call_keeps_all {A} r (m : ST Sigma A) : keeps m → keeps_all (call r m).
Proof. intros Hm w Hw. by apply call_keeps. Qed.

Lemma init_keeps_all md items lam k : keeps_all (__init__ md items lam k).
Proof.
  intros w Hw. unfold wp, __init__.
  destruct lam as [lr|], k as [k|]; try done.
  - destruct (decide _) as [Hk|]; [|done].
    destruct (_ && _); [|done].
    simpl. apply all_centers_ok_snoc; [done|].
    apply centered_invariant. by exists k, lr.
  - destruct (forallb _ _); [|done].
    simpl. apply all_centers_ok_snoc; [done|]. by apply centerless_invariant.
Qed.

Lemma wrap_items_length qn arrs sites bonds :
  length arrs = length sites → length bonds = S (length sites) →
  length (wrap_items qn arrs sites bonds) = length arrs.
Proof.
  revert sites bonds. induction arrs as [|a arrs IH]; intros [|st sites] bonds;
    simpl; try done.
  destruct bonds as [|L [|R bonds]]; simpl; try done.
  intros [= H1] [= H2]. f_equal. apply IH; simpl; auto.
Qed.

Lemma init_labelled_keeps_all md arrs lam k sites bonds :
  keeps_all (__init__labelled md arrs lam k sites bonds).
Proof.
  unfold __init__labelled. destruct lam as [la|], k as [k|];
    try apply keeps_all_raise.
  - destruct (decide _) as [Hk|]; [|apply keeps_all_raise].
    destruct (_ && _) eqn:Hs; [|apply keeps_all_raise].
    apply andb_prop in Hs as [Hs _]. apply bool_decide_eq_true in Hs as [Hs1 Hs2].
    intros w Hw. apply wp_bind, wp_new_tensors. wpw_beta.
    destruct (py_index _ _) as [j|]; simpl; [|done].
    destruct (bonds !! j); simpl; [|done].
    apply wp_bind, wp_new_tensor. wpw_beta. apply wp_new_chain.
    apply all_centers_ok_snoc; [done|].
    apply centered_invariant. eexists k, _. unfold nsite. simpl.
    rewrite length_seq, wrap_items_length by (done || lia). done.
  - destruct (_ && _); [|apply keeps_all_raise].
    intros w Hw. apply wp_bind, wp_new_tensors. wpw_beta. apply wp_new_chain.
    apply all_centers_ok_snoc; [done|]. by apply centerless_invariant.
Qed.

Lemma copy_keeps_all r : keeps_all (copy r).
Proof.
  intros w Hw. unfold copy. apply wp_bind, wp_chain_at. wpw_beta.
  apply wp_new_chain. apply all_centers_ok_snoc; [done|].
  by apply lookup_total_center_ok.
Qed.

Lemma lshift_keeps_all r other : keeps_all (__lshift__ r other).
Proof.
  unfold __lshift__. apply keeps_all_bind; [apply copy_keeps_all|]. intros r'.
  apply keeps_all_bind; [apply call_keeps_all, ilshift_keeps|]. intros _.
  apply keeps_all_ret.
Qed.

Lemma rshift_keeps_all r other : keeps_all (__rshift__ r other).
Proof.
  unfold __rshift__. apply keeps_all_bind; [apply copy_keeps_all|]. intros r'.
  apply keeps_all_bind; [apply call_keeps_all, irshift_keeps|]. intros _.
  apply keeps_all_ret.
Qed.

Lemma directsums_chains i n rs1 rs2 w :
  chains (directsums i n rs1 rs2 w).2 = chains w.
Proof.
  change (wp (directsums i n rs1 rs2) (λ _ w', chains w' = chains w) w).
  revert i rs2 w. induction rs1 as [|r1 rs1 IH]; intros i [|r2 rs2] w; try done.
  simpl. wpw_steps. destruct (same_labels _ _); [|by apply wp_raise].
  wpw_steps. eapply wp_mono; [apply IH|].
  intros [rs|e] w' Hw'; [by apply wp_ret|done].
Qed.

Lemma set_ABL_guards r m lam : guards (call r (_set_ABL_ m lam)).
Proof.
  apply call_guards. intros n s Hs.
  eapply wp_mono; [by apply set_ABL_outcome|]. intros o s' [_ H]. done.
Qed.

Lemma add_guards r other : guards (__add__ r other).
Proof.
  unfold __add__. destruct other as [r2|z]; [|destruct z; [apply guards_ret|apply guards_raise]].
  apply guards_bind; [by apply guards_pure|]. intros c1.
  apply guards_bind; [by apply guards_pure|]. intros c2.
  destruct (decide _); [|apply guards_raise].
  destruct (decide (r = r2)).
  - apply guards_bind; [apply keeps_all_guards, call_keeps_all, merge_keeps|]. intros [u lam].
    apply guards_bind; [by apply guards_pure|]. intros c.
    apply guards_bind; [apply guards_pure, directsums_chains|]. intros rs.
    apply guards_bind; [apply set_ABL_guards|]. intros _. apply keeps_all_guards, init_keeps_all.
  - apply guards_bind; [apply keeps_all_guards, call_keeps_all, merge_keeps|]. intros [u1 lam1].
    apply guards_bind; [apply keeps_all_guards, call_keeps_all, merge_keeps|]. intros [u2 lam2].
    apply guards_bind; [by apply guards_pure|]. intros c.
    apply guards_bind; [by apply guards_pure|]. intros c'.
    apply guards_bind; [apply guards_pure, directsums_chains|]. intros rs.
    apply guards_bind; [apply set_ABL_guards|]. intros _.
    apply guards_bind; [apply set_ABL_guards|]. intros _. apply keeps_all_guards, init_keeps_all.
Qed.

(** A program that returns a chain returns one that is in the store. *)
Definition returns_object (m : ST World oref) : Prop :=
  ∀ w, wp m (λ o w', ∀ r, o = Ok r → r < length (chains w')) w.

Lemma returns_object_bind {A} (m : ST World A) (f : A → ST World oref) :
  (∀ a, returns_object (f a)) → returns_object (m ≫= f).
Proof.
  intros Hf w. apply wp_bind. unfold wp at 1.
  destruct (m w) as [[a|e] w']; simpl; [apply Hf|done].
Qed.

Lemma new_chain_returns_object c : returns_object (new_chain c).
Proof.
  intros w. apply wp_new_chain. intros r [= <-]. simpl. rewrite length_app. simpl. lia.
Qed.

Lemma init_returns_object md items lam k : returns_object (__init__ md items lam k).
Proof.
  intros w. unfold wp, __init__.
  destruct lam as [lr|], k as [k|]; try done.
  - destruct (decide _); [|done]. destruct (_ && _); [|done].
    apply new_chain_returns_object.
  - destruct (forallb _ _); [|done]. apply new_chain_returns_object.
Qed.

Lemma init_labelled_returns_object md arrs lam k sites bonds :
  returns_object (__init__labelled md arrs lam k sites bonds).
Proof.
  unfold __init__labelled. destruct lam as [la|], k as [k|]; try done.
  - destruct (decide _); [|done]. destruct (_ && _); [|done].
    apply returns_object_bind. intros rs.
    destruct (py_index _ _) as [j|]; simpl; [|done].
    destruct (bonds !! j); simpl; [|done].
    apply returns_object_bind. intros lr. apply new_chain_returns_object.
  - destruct (_ && _); [|done].
    apply returns_object_bind. intros rs. apply new_chain_returns_object.
Qed.

Lemma shift_copy_returns_object r (m : ST Sigma unit) :
  returns_object (r' ← copy r; call r' m;; mret r').
Proof.
  intros w. unfold copy. wpw_steps. apply wp_call. unfold wp at 1.
  destruct (m _) as [[[]|e] s']; simpl; [|done].
  apply wp_ret. intros r' [= <-]. simpl. rewrite length_insert, length_app. simpl. lia.
Qed.

(** C7, as the code has it.  When every chain object has exactly one of
    {no cut and no [Lambda]; a cut in [0, N] and a [Lambda]}, it still has
    after a constructor, [<<=], [>>=], [canonicalize], [compress], [reset],
    [<<] and [>>], whether they return or raise, and the chain a constructor,
    [<<] or [>>] returns is one of them; after [+] it has unless the addition
    ends in ValueError, which [_set_ABL_] raises after it has set [Lambda]
    and before it sets the cut. *)
Theorem center_invariant_kept w :
  all_centers_ok w →
  (∀ md items lam k o w',
     __init__ md items lam k w = (o, w') →
     all_centers_ok w' ∧ ∀ r, o = Ok r → is_Some (chains w' !! r))
  ∧ (∀ md arrs lam k sites bonds o w',
     __init__labelled md arrs lam k sites bonds w = (o, w') →
     all_centers_ok w' ∧ ∀ r, o = Ok r → is_Some (chains w' !! r))
  ∧ (∀ r m o w', InPlace m → call r m w = (o, w') → all_centers_ok w')
  ∧ (∀ r other o w',
     __lshift__ r other w = (o, w') →
     all_centers_ok w' ∧ ∀ r', o = Ok r' → is_Some (chains w' !! r'))
  ∧ (∀ r other o w',
     __rshift__ r other w = (o, w') →
     all_centers_ok w' ∧ ∀ r', o = Ok r' → is_Some (chains w' !! r'))
  ∧ (∀ r other o w',
     __add__ r other w = (o, w') → o = Raise ValueError ∨ all_centers_ok w').
Proof.
  intros Hw. split_and!.
  - intros md items lam k o w' Hrun.
    pose proof (init_keeps_all md items lam k w Hw) as H.
    pose proof (init_returns_object md items lam k w) as H'.
    unfold wp in H, H'. rewrite Hrun in H, H'. split; [done|].
    intros r Hr. by apply lookup_lt_is_Some_2, H'.
  - intros md arrs lam k sites bonds o w' Hrun.
    pose proof (init_labelled_keeps_all md arrs lam k sites bonds w Hw) as H.
    pose proof (init_labelled_returns_object md arrs lam k sites bonds w) as H'.
    unfold wp in H, H'. rewrite Hrun in H, H'. split; [done|].
    intros r Hr. by apply lookup_lt_is_Some_2, H'.
  - intros r m o w' Hm Hrun.
    pose proof (call_keeps r m w (inplace_keeps m Hm) Hw) as H. unfold wp in H.
    by rewrite Hrun in H.
  - intros r other o w' Hrun.
    pose proof (lshift_keeps_all r other w Hw) as H.
    pose proof (shift_copy_returns_object r (__ilshift__ other) w) as H'.
    unfold wp in H, H'. fold (__lshift__ r other) in H'. rewrite Hrun in H, H'.
    split; [done|]. intros r' Hr. by apply lookup_lt_is_Some_2, H'.
  - intros r other o w' Hrun.
    pose proof (rshift_keeps_all r other w Hw) as H.
    pose proof (shift_copy_returns_object r (__irshift__ other) w) as H'.
    unfold wp in H, H'. fold (__rshift__ r other) in H'. rewrite Hrun in H, H'.
    split; [done|]. intros r' Hr. by apply lookup_lt_is_Some_2, H'.
  - intros r other o w' Hrun.
    pose proof (add_guards r other w Hw) as H. unfold wp in H.
    by rewrite Hrun in H.
Qed.

(** ** Restoring the center after a merge *)

(** Every reference of the chain points into the tensor store. *)
Definition closed (s : Sigma) : Prop :=
  Forall (λ r, r < length (heap s)) (ms (self s))
  ∧ ∀ lr, Lambda (self s) = Some lr → lr < length (heap s).

(** The tensor [_merge_ABL_] returns: the one [Lambda] is merged into. *)
Definition neighbour (c : MPS) : option tref :=
  match cut c with
  | Some k => Some (ms c !!! Z.to_nat (if decide (k = nsite c) then k - 1 else k)%Z)
  | None => None
  end.

(** The center is labelled the way [_set_ABL_] reads it: [Lambda] is a
    one-legged DTensor whose leg is the left bond of the three-legged tensor
    to its right; when the cut is [N] it is the right bond, and not the left
    bond, of the last tensor, which is three-legged. *)
Definition center_on_bond (s : Sigma) : Prop :=
  match cut (self s), Lambda (self s) with
  | Some k, Some lr =>
      let c := self s in
      let j := Z.to_nat (if decide (k = nsite c) then k - 1 else k)%Z in
      let t := heap s !!! (ms c !!! j) in
      let lam := heap s !!! lr in
      is_DTensor lam = true ∧ ndim t = 3%Z ∧ ndim lam = 1%Z
      ∧ (if decide (k = nsite c)
         then label_eqb (leg lam 0) (leg t 0) = false
              ∧ label_eqb (leg lam 0) (leg t 2) = true
         else label_eqb (leg lam 0) (leg t 0) = true)
  | _, _ => True
  end.

(** The tensors of the chain have pairwise different site labels. *)
Definition sites_differ (s : Sigma) : Prop :=
  ∀ i j ri rj, ms (self s) !! i = Some ri → ms (self s) !! j = Some rj → i ≠ j →
    label_eqb (leg (heap s !!! ri) 1) (leg (heap s !!! rj) 1) = false.

(** Two properties of a tensor library: a label equals itself, and the
    product of a three-legged tensor with a one-legged one, in either order,
    has the site label of the three-legged one. *)
Definition label_eq_refl : Prop := ∀ l : label, label_eqb l l = true.

Definition product_keeps_site : Prop :=
  ∀ a b : tensor, ndim a = 3%Z → ndim b = 1%Z →
    leg (tmul a b) 1 = leg a 1 ∧ leg (tmul b a) 1 = leg a 1.

Lemma site_labels_ext (h ext : list tensor) (rs : list tref) :
  Forall (λ r, r < length h) rs →
  (λ r, leg ((h ++ ext) !!! r) 1) <$> rs = (λ r, leg (h !!! r) 1) <$> rs.
Proof.
  intros H. apply Forall_fmap_ext_1. eapply Forall_impl; [exact H|].
  intros r Hr. simpl. by rewrite lookup_total_app_l.
Qed.

Lemma sites_differ_NoDup s : label_eq_refl → sites_differ s → NoDup (ms (self s)).
Proof.
  intros Hrefl Hd. apply NoDup_alt. intros i j r Hi Hj.
  destruct (decide (i = j)) as [|Hne]; [done|].
  pose proof (Hd i j r r Hi Hj Hne) as H. by rewrite Hrefl in H.
Qed.

Lemma NoDup_insert_fresh (l : list tref) j x : NoDup l → x ∉ l → NoDup (<[j := x]> l).
Proof.
  intros Hnd Hx. apply NoDup_alt. intros i1 i2 y H1 H2.
  rewrite NoDup_alt in Hnd.
  destruct (decide (i1 = j)) as [->|N1], (decide (i2 = j)) as [->|N2]; [done|..].
  - rewrite list_lookup_insert_ne in H2 by done.
    apply list_lookup_insert_Some in H1 as [(_ & <- & _)|[? _]]; [|done].
    destruct Hx. by eapply list_elem_of_lookup_2.
  - rewrite list_lookup_insert_ne in H1 by done.
    apply list_lookup_insert_Some in H2 as [(_ & <- & _)|[? _]]; [|done].
    destruct Hx. by eapply list_elem_of_lookup_2.
  - rewrite list_lookup_insert_ne in H1, H2 by done. by eapply Hnd.
Qed.

(** *** What the loop for [new<old] leaves in the store *)

Lemma written_back_cons (h : list tensor) r rs t ts :
  written_back h (r :: rs) (t :: ts) = written_back (<[r := t]> h) rs ts.
Proof. done. Qed.

Lemma written_back_length (h : list tensor) rs ts :
  length (written_back h rs ts) = length h.
Proof.
  revert h ts. induction rs as [|r rs IH]; intros h [|t ts]; try done.
  by rewrite written_back_cons, IH, length_insert.
Qed.

Lemma written_back_other (h : list tensor) rs ts r :
  r ∉ rs → written_back h rs ts !! r = h !! r.
Proof.
  revert h ts. induction rs as [|r0 rs IH]; intros h [|t ts] Hr; try done.
  apply not_elem_of_cons in Hr as [Hne Hr].
  rewrite written_back_cons, IH by done. by rewrite list_lookup_insert_ne.
Qed.

Lemma written_back_other_total (h : list tensor) rs ts r :
  r ∉ rs → written_back h rs ts !!! r = h !!! r.
Proof. intros Hr. by rewrite !list_lookup_total_alt, written_back_other. Qed.

Lemma written_back_item (h : list tensor) rs ts i r t :
  NoDup rs → rs !! i = Some r → ts !! i = Some t → r < length h →
  written_back h rs ts !! r = Some t.
Proof.
  revert h ts i. induction rs as [|r0 rs IH]; intros h [|t0 ts] i Hnd Hi Ht Hr; try done.
  apply NoDup_cons in Hnd as [Hr0 Hnd]. rewrite written_back_cons.
  destruct i as [|i]; simpl in Hi, Ht.
  - injection Hi as ->. injection Ht as ->.
    rewrite written_back_other by done. by apply list_lookup_insert_eq.
  - apply (IH _ _ i); try done. by rewrite length_insert.
Qed.

Lemma written_back_sites (h : list tensor) rs ts :
  NoDup rs → Forall (λ r, r < length h) rs →
  Forall2 (λ t t', leg t' 1 = leg t 1) ((λ r, h !!! r) <$> rs) ts →
  ∀ r, r ∈ rs → leg (written_back h rs ts !!! r) 1 = leg (h !!! r) 1.
Proof.
  intros Hnd Hlt Hts r [i Hi]%list_elem_of_lookup_1.
  assert (((λ r, h !!! r) <$> rs) !! i = Some (h !!! r)) as Hi'
    by (by rewrite list_lookup_fmap, Hi).
  destruct (Forall2_lookup_l _ _ _ _ _ Hts Hi') as (t' & Ht' & Hleg).
  rewrite (list_lookup_total_correct _ _ _
             (written_back_item h rs ts i r t' Hnd Hi Ht'
                (proj1 (Forall_lookup _ _) Hlt i r Hi))).
  done.
Qed.

(** *** The lookup and the restoration *)

Lemma table_lookup_last ls lS i0 i :
  ls !! i = Some lS → label_eqb lS lS = true →
  (∀ j l, i < j → ls !! j = Some l → label_eqb l lS = false) →
  table_lookup ls lS i0 = Some (i0 + i).
Proof.
  revert i0 i. induction ls as [|l rest IH]; intros i0 i Hi Hrefl Hlater; [done|].
  simpl. destruct i as [|i].
  - injection Hi as ->.
    assert (table_lookup rest lS (S i0) = None) as ->.
    { clear IH. revert Hlater. generalize (S i0). induction rest as [|l rest IH];
        intros n Hlater; [done|]. simpl.
      rewrite IH.
      - by rewrite (Hlater 1 l) by (done || lia).
      - intros j l' Hj Hl'. destruct j as [|j]; [lia|].
        apply (Hlater (S (S j)) l'); [lia|done]. }
    rewrite Hrefl. f_equal. lia.
  - rewrite (IH (S i0) i); [f_equal; lia|done|done|].
    intros j l' Hj Hl'. apply (Hlater (S j) l'); [lia|done].
Qed.

Lemma table_lookup_none ls lS i0 :
  (∀ l, l ∈ ls → label_eqb l lS = false) → table_lookup ls lS i0 = None.
Proof.
  revert i0. induction ls as [|l rest IH]; intros i0 H; [done|].
  simpl. rewrite IH by (intros l' Hl'; apply H; by right).
  rewrite (H l) by by left. done.
Qed.

Lemma set_ABL_restores_at md (items : list tref) (lr : tref) st tr j (t p : tref) k :
  items !! j = Some t →
  is_DTensor (st !!! lr) = true → ndim (st !!! t) = 3%Z → ndim (st !!! lr) = 1%Z →
  table_lookup ((λ r : tref, leg (st !!! r) 1) <$> <[j := p]> items)
               (leg (st !!! t) 1) 0 = Some j →
  (label_eqb (leg (st !!! lr) 0) (leg (st !!! t) 0) = true ∧ k = Z.of_nat j
   ∨ label_eqb (leg (st !!! lr) 0) (leg (st !!! t) 0) = false
     ∧ label_eqb (leg (st !!! lr) 0) (leg (st !!! t) 2) = true
     ∧ k = (Z.of_nat j + 1)%Z) →
  _set_ABL_ (Some t) (Some lr)
            (mkSigma (mkMPS md (<[j := p]> items) None None) st tr) =
  (Ok tt, mkSigma (mkMPS md items (Some lr) (Some k)) st tr).
Proof.
  intros Ht Hd Hn3 Hn1 Htab Heq.
  pose proof (lookup_lt_Some _ _ _ Ht) as Hj.
  apply wp_eq. unfold _set_ABL_. wp_steps. rewrite Hd.
  wp_steps. rewrite decide_True by done.
  apply wp_bind, wp_table_at. cbn [self ms heap]. rewrite Htab.
  wp_beta. wp_steps. rewrite length_insert, py_index_nonneg by lia.
  wp_steps. rewrite Nat2Z.id, list_insert_insert_eq, (list_insert_id _ _ _ Ht).
  destruct Heq as [[-> ->]|(-> & -> & ->)]; wp_steps; done.
Qed.

(** [self.table] of the collapsed chain finds the tensor the center was
    merged into, over any store in which the chain's tensors have the site
    labels they had. *)
Lemma restore_lookup (items : list tref) (h st : list tensor) j (t p : tref) :
  label_eq_refl → items !! j = Some t →
  (∀ i ri, items !! i = Some ri → i ≠ j →
     label_eqb (leg (h !!! ri) 1) (leg (h !!! t) 1) = false) →
  leg (st !!! p) 1 = leg (h !!! t) 1 →
  (∀ i ri, items !! i = Some ri → i ≠ j → leg (st !!! ri) 1 = leg (h !!! ri) 1) →
  table_lookup ((λ r : tref, leg (st !!! r) 1) <$> <[j := p]> items)
               (leg (h !!! t) 1) 0 = Some j.
Proof.
  intros Hrefl Ht Hd Hp Hst. pose proof (lookup_lt_Some _ _ _ Ht) as Hj.
  apply (table_lookup_last _ _ 0 j).
  - rewrite list_lookup_fmap, list_lookup_insert_eq by done. simpl. by rewrite Hp.
  - apply Hrefl.
  - intros j' l Hlt Hl. rewrite list_lookup_fmap, list_lookup_insert_ne in Hl by lia.
    destruct (items !! j') as [r'|] eqn:Hr'; [|done]. simpl in Hl.
    injection Hl as <-. rewrite (Hst j' r') by (done || lia).
    apply (Hd j' r'); [done|lia].
Qed.

Lemma set_ABL_restores_in md (items : list tref) (lr : tref) h P st tr j (t : tref) k :
  label_eq_refl → items !! j = Some t → Forall (λ r, r < length h) items →
  is_DTensor (h !!! lr) = true → ndim (h !!! t) = 3%Z → ndim (h !!! lr) = 1%Z →
  leg P 1 = leg (h !!! t) 1 →
  (∀ i ri, items !! i = Some ri → i ≠ j →
     label_eqb (leg (h !!! ri) 1) (leg (h !!! t) 1) = false) →
  st !!! t = h !!! t → st !!! lr = h !!! lr →
  (∀ r, r ∈ <[j := length h]> items → leg (st !!! r) 1 = leg ((h ++ [P]) !!! r) 1) →
  (label_eqb (leg (h !!! lr) 0) (leg (h !!! t) 0) = true ∧ k = Z.of_nat j
   ∨ label_eqb (leg (h !!! lr) 0) (leg (h !!! t) 0) = false
     ∧ label_eqb (leg (h !!! lr) 0) (leg (h !!! t) 2) = true
     ∧ k = (Z.of_nat j + 1)%Z) →
  _set_ABL_ (Some t) (Some lr)
            (mkSigma (mkMPS md (<[j := length h]> items) None None) st tr) =
  (Ok tt, mkSigma (mkMPS md items (Some lr) (Some k)) st tr).
Proof.
  intros Hrefl Ht Hcl Hdl Hn3 Hn1 HP Hd Hst_t Hst_l Hsites Hlab.
  pose proof (lookup_lt_Some _ _ _ Ht) as Hj.
  apply set_ABL_restores_at; rewrite ?Hst_t, ?Hst_l; try done.
  apply restore_lookup; try done.
  - rewrite Hsites.
    + by rewrite lookup_total_app_r, Nat.sub_diag by done.
    + apply list_elem_of_lookup. exists j. by apply list_lookup_insert_eq.
  - intros i ri Hi Hne. rewrite Hsites.
    + rewrite lookup_total_app_l; [done|]. by eapply Forall_lookup_1 in Hcl.
    + apply list_elem_of_lookup. exists i. by rewrite list_lookup_insert_ne.
Qed.

(** [_set_ABL_] on what [_merge_ABL_] returned, over a store [st] in which
    [Lambda] and the tensor it was merged into are as they were and the
    tensors of the collapsed chain have the site labels the merge left. *)
Lemma set_ABL_restores s st :
  label_eq_refl → product_keeps_site →
  center_invariant (self s) → has_neighbour (self s) → closed s →
  center_on_bond s → sites_differ s →
  (∀ r, neighbour (self s) = Some r → st !!! r = heap s !!! r) →
  (∀ lr, Lambda (self s) = Some lr → st !!! lr = heap s !!! lr) →
  (∀ r, r ∈ ms (self (collapse s)) →
     leg (st !!! r) 1 = leg (heap (collapse s) !!! r) 1) →
  _set_ABL_ (neighbour (self s)) (Lambda (self s))
            (mkSigma (self (collapse s)) st (trail s)) =
  (Ok tt, mkSigma (self s) st (trail s)).
Proof.
  destruct s as [[md items lam ct] h tr].
  unfold has_neighbour, closed, center_on_bond, sites_differ, neighbour, collapse, nsite.
  simpl.
  intros Hrefl Hprod [[[Hc Hl] _]|[(k & lr & Hk & Hr & Hl) _]] Hn [Hcl Hcl'] Hb Hd
    Hst_t Hst_l Hst_s; simpl in *; subst; [done|].
  unfold nsite in *. simpl in *.
  destruct Hn as [|Hn]; [done|]. specialize (Hcl' lr eq_refl).
  specialize (Hst_l lr eq_refl).
  destruct (decide (k = Z.of_nat (length items))) as [Hkn|Hkn]; simpl in *.
  - destruct (lookup_lt_is_Some_2 items (Z.to_nat (k - 1))) as [t Ht]; [lia|].
    rewrite (list_lookup_total_correct _ _ _ Ht) in *.
    destruct Hb as (Hdl & Hn3 & Hn1 & Heq1 & Heq2).
    apply (set_ABL_restores_in md items lr h _ st tr _ t k Hrefl Ht Hcl Hdl Hn3 Hn1
             (proj1 (Hprod _ _ Hn3 Hn1))).
    + intros i ri Hi Hne. by apply (Hd i (Z.to_nat (k - 1)) ri t).
    + by apply Hst_t.
    + done.
    + done.
    + right. split_and!; auto. lia.
  - destruct (lookup_lt_is_Some_2 items (Z.to_nat k)) as [t Ht]; [lia|].
    rewrite (list_lookup_total_correct _ _ _ Ht) in *.
    destruct Hb as (Hdl & Hn3 & Hn1 & Heq).
    apply (set_ABL_restores_in md items lr h _ st tr _ t k Hrefl Ht Hcl Hdl Hn3 Hn1
             (proj2 (Hprod _ _ Hn3 Hn1))).
    + intros i ri Hi Hne. by apply (Hd i (Z.to_nat k) ri t).
    + by apply Hst_t.
    + done.
    + done.
    + left. split; [done|]. lia.
Qed.

Lemma collapse_heap s : heap s `prefix_of` heap (collapse s).
Proof.
  unfold collapse. destruct (cut (self s)), (Lambda (self s)); try done.
  destruct (decide _); simpl; by apply prefix_app_r.
Qed.

(** The store of the collapsed chain, possibly extended, meets the
    conditions of [set_ABL_restores]. *)
Lemma collapse_store_keeps s ext :
  closed s → has_neighbour (self s) → center_invariant (self s) →
  (∀ r, neighbour (self s) = Some r → (heap (collapse s) ++ ext) !!! r = heap s !!! r)
  ∧ (∀ lr, Lambda (self s) = Some lr → (heap (collapse s) ++ ext) !!! lr = heap s !!! lr)
  ∧ Forall (λ r, r < length (heap (collapse s))) (ms (self (collapse s))).
Proof.
  intros [Hcl Hcl'] Hn Hi.
  pose proof (collapse_heap s) as [e He].
  assert (∀ r, r < length (heap s) → (heap (collapse s) ++ ext) !!! r = heap s !!! r) as Hlk.
  { intros r Hr. rewrite He, <- app_assoc. by rewrite lookup_total_app_l. }
  split_and!.
  - intros r Hr. apply Hlk. unfold neighbour in Hr.
    destruct (cut (self s)) as [k|] eqn:Hk; [|done]. injection Hr as <-.
    destruct Hn as [|Hn]; [congruence|].
    destruct Hi as [[[Hc _] _]|[(k' & lr & Hk' & Hr' & Hl) _]]; [congruence|].
    assert (k' = k) as -> by congruence.
    destruct (lookup_lt_is_Some_2 (ms (self s))
                (Z.to_nat (if decide (k = nsite (self s)) then k - 1 else k)%Z))
      as [t Ht]; [unfold nsite in *; destruct (decide _); lia|].
    rewrite (list_lookup_total_correct _ _ _ Ht). by eapply Forall_lookup_1 in Hcl.
  - intros lr Hlr. apply Hlk. by apply Hcl'.
  - unfold collapse. destruct (cut (self s)), (Lambda (self s)); try done.
    destruct (decide _); simpl; (apply Forall_insert; [|rewrite length_app; simpl; lia]);
      eapply Forall_impl; try exact Hcl; intros r Hr; simpl in *;
      rewrite length_app; simpl; lia.
Qed.

(** ** Layer remapping *)

Lemma rank3_new (h vs e : list tensor) :
  Forall (λ v, ndim v = 3%Z) vs →
  forallb (λ r, bool_decide (ndim ((h ++ vs ++ e) !!! r) = 3%Z))
          (seq (length h) (length vs)) = true.
Proof.
  intros Hvs. apply Is_true_true, forallb_True, Forall_seq. intros j Hj.
  apply bool_decide_pack.
  rewrite lookup_total_app_r by lia. rewrite lookup_total_app_l by lia.
  destruct (lookup_lt_is_Some_2 vs (j - length h)) as [v Hv]; [lia|].
  rewrite (list_lookup_total_correct _ _ _ Hv).
  by eapply Forall_lookup_1 in Hvs.
Qed.

Lemma merge_result_neighbour s :
  match cut (self s) with
  | Some k => Some (ms (self s) !!!
                    Z.to_nat (if decide (k = nsite (self s)) then k - 1 else k)%Z)
  | None => None
  end = neighbour (self s).
Proof. done. Qed.

Lemma collapse_trail s : trail (collapse s) = trail s.
Proof.
  unfold collapse. destruct (cut (self s)), (Lambda (self s)); try done.
  by destruct (decide _).
Qed.

Lemma collapse_mode s : mode (self (collapse s)) = mode (self s).
Proof.
  unfold collapse. destruct (cut (self s)), (Lambda (self s)); try done.
  by destruct (decide _).
Qed.

(** The items of the collapsed chain are those of the chain, but for the
    new tensor object the center was merged into. *)
Lemma collapse_items s r :
  r ∈ ms (self (collapse s)) → r ∈ ms (self s) ∨ r = length (heap s).
Proof.
  unfold collapse. destruct (cut (self s)), (Lambda (self s)); auto.
  destruct (decide _); simpl; intros [i Hi]%list_elem_of_lookup_1;
    apply list_lookup_insert_Some in Hi as [(_ & <- & _)|[_ Hi]]; auto;
    left; by eapply list_elem_of_lookup_2.
Qed.

Lemma collapse_NoDup s : closed s → NoDup (ms (self s)) → NoDup (ms (self (collapse s))).
Proof.
  intros [Hcl _] Hnd. unfold collapse.
  destruct (cut (self s)), (Lambda (self s)); try done.
  assert (length (heap s) ∉ ms (self s)) as Hfresh.
  { intros Hin. rewrite Forall_forall in Hcl. apply Hcl in Hin. lia. }
  destruct (decide _); simpl; by apply NoDup_insert_fresh.
Qed.

Lemma neighbour_lt s r :
  closed s → has_neighbour (self s) → center_invariant (self s) →
  neighbour (self s) = Some r → r < length (heap s).
Proof.
  intros [Hcl Hcl'] Hn Hi Hr. unfold neighbour in Hr.
  destruct (cut (self s)) as [k|] eqn:Hk; [|done]. injection Hr as <-.
  destruct Hn as [|Hn]; [congruence|].
  destruct Hi as [[[Hc _] _]|[(k' & lr & Hk' & Hr' & Hl) _]]; [congruence|].
  assert (k' = k) as -> by congruence.
  destruct (lookup_lt_is_Some_2 (ms (self s))
              (Z.to_nat (if decide (k = nsite (self s)) then k - 1 else k)%Z))
    as [t Ht]; [unfold nsite in *; destruct (decide _); lia|].
  rewrite (list_lookup_total_correct _ _ _ Ht). by eapply Forall_lookup_1 in Hcl.
Qed.

(** The tensor the center was merged into is no item of the collapsed
    chain. *)
Lemma neighbour_gone s r :
  closed s → NoDup (ms (self s)) → has_neighbour (self s) → center_invariant (self s) →
  neighbour (self s) = Some r → r ∉ ms (self (collapse s)).
Proof.
  intros [Hcl Hcl'] Hnd Hn Hi Hr. unfold neighbour in Hr.
  destruct (cut (self s)) as [k|] eqn:Hk; [|done]. injection Hr as <-.
  destruct Hn as [|Hn]; [congruence|].
  destruct Hi as [[[Hc _] _]|[(k' & lr & Hk' & Hr' & Hl) _]]; [congruence|].
  assert (k' = k) as -> by congruence.
  unfold collapse. rewrite Hk, Hl.
  set (j := Z.to_nat (if decide (k = nsite (self s)) then k - 1 else k)%Z).
  assert (j < length (ms (self s))) as Hj
    by (unfold j, nsite in *; destruct (decide _); lia).
  destruct (lookup_lt_is_Some_2 _ _ Hj) as [t Ht].
  rewrite (list_lookup_total_correct _ _ _ Ht).
  assert (t < length (heap s)) as Htl by (by eapply Forall_lookup_1 in Hcl).
  assert (t ∉ <[j := length (heap s)]> (ms (self s))) as Hgone.
  { intros [i Hi]%list_elem_of_lookup_1.
    apply list_lookup_insert_Some in Hi as [(_ & Heq & _)|[Hne Hi]]; [lia|].
    rewrite NoDup_alt in Hnd. by pose proof (Hnd i j t Hi Ht). }
  unfold j in Hgone. by destruct (decide (k = nsite (self s))).
Qed.

(** C9, as the code has it.  The chain has at least one site, tensors with
    pairwise different site labels, a [Lambda] that is none of its items,
    and a center, if any, labelled as [_set_ABL_] reads it; a label equals
    itself and the product with a one-legged tensor keeps the site label.
    Then [relayer] to another layer first collapses the chain and gives the
    tensors of the collapsed chain to the remapping loop.  When the loop for
    a coarser layer returns three-legged tensors and leaves the site labels
    of the items as they were, the chain returned has those tensors as items
    and neither cut nor [Lambda], and the store holds the items as the loop
    left them, every other tensor object being as it was.  When the loop for
    a finer layer returns three-legged tensors, the chain returned has the
    cut at its right end and the [Lambda] of the last split.  In both cases
    the chain [relayer] was called on has again its items, cut and
    [Lambda]. *)
Theorem relayer_other_layer w r degfres layer nmax tol c m0 rest new :
  let s := mkSigma c (tensors w) (moves w) in
  let old := current_layer degfres (tensors w !!! m0) in
  let s1 := collapse s in
  let ts := (λ m, heap s1 !!! m) <$> ms (self s1) in
  label_eq_refl → product_keeps_site →
  chains w !! r = Some c → ms c = m0 :: rest →
  center_invariant c → closed s → center_on_bond s → sites_differ s →
  (∀ lr, Lambda c = Some lr → lr ∉ ms c) →
  target_layer degfres layer = Some new →
  (0 ≤ new < Z.of_nat (length (layers degfres)))%Z →
  new ≠ old → is_Some (py_index (length (layers degfres)) old) →
  ((new < old)%Z → ∀ ts' vs,
     coarse degfres old new (mode c) ts = (ts', inr vs) →
     Forall2 (λ t t', leg t' 1 = leg t 1) ts ts' →
     Forall (λ v, ndim v = 3%Z) vs →
     relayer r degfres layer nmax tol w =
     (Ok (length (chains w)),
      mkWorld (chains w ++
               [mkMPS (mode c) (seq (length (heap s1)) (length vs)) None None])
              (written_back (heap s1) (ms (self s1)) ts' ++ vs) (moves w))
     ∧ ∀ r', r' < length (tensors w) → r' ∉ ms (self s1) →
         written_back (heap s1) (ms (self s1)) ts' !! r' = tensors w !! r')
  ∧ ((old < new)%Z → ∀ vs lam,
     fine degfres old new (mode c) nmax tol ts = inr (vs, lam) →
     Forall (λ v, ndim v = 3%Z) vs → is_DTensor lam = true →
     relayer r degfres layer nmax tol w =
     (Ok (length (chains w)),
      mkWorld (chains w ++
               [mkMPS (mode c) (seq (length (heap s1)) (length vs))
                      (Some (length (heap s1) + length vs))
                      (Some (Z.of_nat (length vs)))])
              (heap s1 ++ vs ++ [lam]) (moves w))).
Proof.
  intros s old s1 ts Hrefl Hprod Hr Hms Hi Hcl Hb Hd Hlam Ht Hnew Hne [jold Hold].
  assert (has_neighbour c) as Hn.
  { right. unfold nsite. rewrite Hms. simpl. lia. }
  pose proof (lookup_lt_Some _ _ _ Hr) as Hrl.
  assert (trail s1 = moves w) as Htr by apply (collapse_trail s).
  (* the common prefix: up to the remapping loop *)
  assert (∀ (res : Outcome oref * World),
    (∀ w1, w1 = mkWorld (<[r := self s1]> (chains w)) (heap s1) (moves w) →
       (  '(Ms, center) ←
            (if decide (new < old)%Z then
               let '(ts', res) := coarse degfres old new (mode (self s1)) ts in
               write_back (ms (self s1)) ts';;
               match res with
               | inl e => raise e
               | inr vs => Ms ← new_tensors vs; mret (Ms, None)
               end
             else
               match fine degfres old new (mode (self s1)) nmax tol ts with
               | inl e => raise e
               | inr (vs, lam) =>
                   Ms ← new_tensors vs;
                   lr ← new_tensor lam;
                   mret (Ms, Some (lr, Z.of_nat (length Ms)))
               end);
          call r (_set_ABL_ (neighbour c) (Lambda c));;
          __init__ (mode (self s1)) Ms (fst <$> center) (snd <$> center)) w1
       = res) →
    relayer r degfres layer nmax tol w = res) as Hprefix.
  { intros res Hrest. apply wp_eq. unfold relayer.
    rewrite Ht. wpw_steps. rewrite decide_True by done.
    wpw_steps. rewrite (list_lookup_total_correct _ _ _ Hr), Hms.
    wpw_steps. fold old. rewrite decide_False by done.
    apply wp_bind, wp_call. rewrite (list_lookup_total_correct _ _ _ Hr).
    eapply wp_mono; [by apply (merge_spec s)|].
    intros o s' [-> ->]. wpw_beta. fold s1. rewrite Hold.
    apply wp_bind, wp_chain_at. wpw_beta. apply wp_bind, wp_get_world. wpw_beta.
    rewrite list_lookup_total_insert_eq by lia. rewrite Htr.
    unfold wp. rewrite <- (Hrest _ eq_refl). symmetry. apply surjective_pairing. }
  assert (<[r := self s]> (<[r := self s1]> (chains w)) = chains w) as Hback.
  { rewrite list_insert_insert_eq. by apply list_insert_id. }
  assert (mode (self s1) = mode c) as Hmode by apply (collapse_mode s).
  pose proof (sites_differ_NoDup s Hrefl Hd) as Hnd.
  split.
  - intros Hlt ts' vs Hk Hts Hvs.
    destruct (collapse_store_keeps s [] Hcl Hn Hi) as (Hkt & Hkl & Hlt1).
    rewrite app_nil_r in Hkt, Hkl.
    pose proof (collapse_NoDup s Hcl Hnd) as Hnd1.
    pose proof (prefix_length _ _ (collapse_heap s)) as Hlen1.
    fold s1 in Hkt, Hkl, Hlt1, Hnd1, Hlen1. simpl in Hlen1.
    set (h2 := written_back (heap s1) (ms (self s1)) ts').
    assert (length h2 = length (heap s1)) as Hlen2 by apply written_back_length.
    assert (∀ r', r' < length (tensors w) → r' ∉ ms (self s1) →
              h2 !! r' = tensors w !! r') as Hframe.
    { intros r' Hr' Hnin. unfold h2. rewrite written_back_other by done.
      destruct (collapse_heap s) as [e He]. fold s1 in He. rewrite He.
      by rewrite lookup_app_l. }
    split; [|exact Hframe].
    apply Hprefix. intros w1 ->. apply wp_eq.
    rewrite decide_True by done. rewrite Hmode, Hk.
    wpw_steps. fold h2. apply wp_call. cbn [chains tensors moves].
    rewrite list_lookup_total_insert_eq by lia.
    eapply wp_of_run.
    { apply (set_ABL_restores s (h2 ++ vs)); try done.
      - intros t Htn. pose proof (neighbour_lt s t Hcl Hn Hi Htn) as Htl. simpl in Htl.
        rewrite lookup_total_app_l by lia.
        unfold h2. rewrite written_back_other_total by by apply (neighbour_gone s).
        by apply Hkt.
      - intros lr Hlr. pose proof (proj2 Hcl lr Hlr) as Hll. simpl in Hll.
        rewrite lookup_total_app_l by lia.
        unfold h2. rewrite written_back_other_total; [by apply Hkl|].
        intros [Hin| Heq]%collapse_items; [by apply (Hlam lr)|simpl in Heq; lia].
      - intros r' Hr'. rewrite lookup_total_app_l.
        + by apply written_back_sites.
        + rewrite Hlen2. rewrite Forall_forall in Hlt1. by apply Hlt1. }
    wpw_beta. rewrite Hback.
    change (trail s) with (moves w). unfold wp, __init__. simpl.
    pose proof (rank3_new h2 vs [] Hvs) as Hrank. rewrite app_nil_r in Hrank.
    rewrite Hrank. simpl. by rewrite Hlen2.
  - intros Hlt vs lam Hk Hvs Hdl. apply Hprefix. intros w1 ->. apply wp_eq.
    rewrite decide_False by lia. rewrite Hmode, Hk.
    wpw_steps. apply wp_call. cbn [chains tensors moves].
    rewrite list_lookup_total_insert_eq by lia.
    destruct (collapse_store_keeps s (vs ++ [lam]) Hcl Hn Hi) as (Hkt & Hkl & Hlt1).
    eapply wp_of_run.
    { rewrite <- app_assoc. apply (set_ABL_restores s (heap s1 ++ vs ++ [lam])); try done.
      intros r' Hr'. rewrite lookup_total_app_l; [done|].
      rewrite Forall_forall in Hlt1. by apply Hlt1. }
    wpw_beta. rewrite Hback.
    change (trail s) with (moves w). unfold wp, __init__. simpl.
    rewrite length_seq. rewrite decide_True by lia.
    rewrite rank3_new by done. simpl.
    rewrite (app_assoc (heap s1)), lookup_total_app_r by lia.
    rewrite Nat.sub_diag. simpl. rewrite Hdl. simpl.
    by rewrite <- app_assoc, length_app.
Qed.

(** ** Existing tensor objects under every outcome *)

(** The invariant on a chain of [n] sites over a store that extends [h0]. *)
Definition framed (h0 : list tensor) (n : nat) (s : Sigma) : Prop :=
  kept n s ∧ h0 `prefix_of` heap s.

Definition frames {A} (m : ST Sigma A) : Prop :=
  ∀ h0 n s, framed h0 n s → wp m (λ _ s', framed h0 n s') s.

Lemma frames_bind {A B} (m : ST Sigma A) (f : A → ST Sigma B) :
  frames m → (∀ a, frames (f a)) → frames (m ≫= f).
Proof.
  intros Hm Hf h0 n s Hs. apply wp_bind. eapply wp_mono; [by apply Hm|].
  intros [a|e] s' Hs'; [by apply Hf|done].
Qed.

Lemma frames_ret {A} (a : A) : frames (mret a).
Proof. intros h0 n s Hs. by apply wp_ret. Qed.

Lemma frames_for_xrange n body : frames body → frames (for_xrange n body).
Proof.
  intros Hb. induction n as [|n IH]; simpl; [apply frames_ret|].
  apply frames_bind; auto.
Qed.

Lemma lmove_step_frames nmax tol : frames (lmove_step nmax tol).
Proof.
  intros h0 n s [[Hi Hlen] Hp].
  destruct (center_invariant_cases _ Hi) as [[Hc Hl]|(k & lr & Hk & Hr & Hl)].
  - unfold lmove_step. wp_steps. rewrite Hc. done.
  - destruct (decide (k = 0%Z)) as [->|].
    + eapply wp_mono; [by apply lmove_step_at_zero|].
      intros o s' (_ & Hs & _ & Hp'). split; [by apply (kept_same_self _ s)|].
      by etrans.
    + eapply wp_mono; [eapply lmove_step_spec; [done|done|lia]|].
      intros o s' [_ Hm]. split; [split|].
      * apply centered_invariant. eapply moved_centered; [done|lia].
      * destruct Hm as (_ & -> & _). done.
      * destruct Hm as (_ & _ & _ & _ & _ & Hp' & _). by etrans.
Qed.

Lemma rmove_step_frames nmax tol : frames (rmove_step nmax tol).
Proof.
  intros h0 n s [[Hi Hlen] Hp].
  destruct (center_invariant_cases _ Hi) as [[Hc Hl]|(k & lr & Hk & Hr & Hl)].
  - unfold rmove_step. wp_steps. rewrite Hc. done.
  - destruct (decide (k = nsite (self s))) as [->|].
    + eapply wp_of_run; [by apply rmove_step_at_end|]. done.
    + eapply wp_mono; [eapply rmove_step_spec; [done|done|lia]|].
      intros o s' [_ Hm]. split; [split|].
      * apply centered_invariant. eapply moved_centered; [done|lia].
      * destruct Hm as (_ & -> & _). done.
      * destruct Hm as (_ & _ & _ & _ & _ & Hp' & _). by etrans.
Qed.

Lemma ilshift_frames other : frames (__ilshift__ other).
Proof.
  unfold __ilshift__. destruct other as [k|k nmax tol]; destruct (decide _);
    apply frames_for_xrange; auto using lmove_step_frames, rmove_step_frames.
Qed.

Lemma irshift_frames other : frames (__irshift__ other).
Proof. unfold __irshift__. apply ilshift_frames. Qed.

Lemma merge_frames : frames (_merge_ABL_ SideR).
Proof.
  intros h0 n s [[Hi Hlen] Hp]. destruct (decide (has_neighbour (self s))) as [Hn|Hn].
  - eapply wp_mono; [by apply merge_spec|]. intros o s' [-> ->].
    split; [split|].
    + by apply centerless_invariant, collapse_centerless.
    + by rewrite collapse_length.
    + etrans; [done|apply collapse_heap].
  - destruct (center_invariant_cases _ Hi) as [[Hc Hl]|(k & lr & Hk & Hr & Hl)].
    { destruct Hn. by left. }
    assert (ms (self s) = []) as Hnil.
    { destruct (ms (self s)) eqn:E; [done|]. destruct Hn. right.
      unfold nsite. rewrite E. simpl. lia. }
    assert (k = 0%Z) as -> by (unfold nsite in Hr; rewrite Hnil in Hr; simpl in Hr; lia).
    eapply wp_of_run; [by eapply merge_empty_center|]. done.
Qed.

Lemma reset_frames arg : frames (reset arg).
Proof.
  intros h0 n s Hs. unfold reset. apply wp_bind.
  eapply wp_mono; [by apply merge_frames|].
  intros [a|e] s' [[Hi Hlen] Hp]; [|done].
  destruct arg as [k|]; [|by apply wp_ret].
  destruct s' as [[md items lam ct] h tr]. simpl in *. wp_steps.
  unfold nsite; cbn [ms]. destruct (decide _) as [Hk|Hk]; wp_steps; [|done].
  split; [split; [|done]|by apply prefix_snoc].
  apply centered_invariant. exists k, (length h). done.
Qed.

(** What a program leaves of the objects that existed before it: every
    chain object [r] is as it was, and so is every tensor object. *)
Definition untouched (w w' : World) : Prop :=
  chains w `prefix_of` chains w' ∧ tensors w `prefix_of` tensors w'.

Lemma call_new_untouched {A} (m : ST Sigma A) w0 w r :
  frames m → untouched w0 w → length (chains w0) ≤ r →
  center_invariant (chains w !!! r) →
  wp (call r m) (λ _ w', untouched w0 w' ∧ center_invariant (chains w' !!! r)
                         ∧ length (chains w') = length (chains w)) w.
Proof.
  intros Hm [Hc Ht] Hr Hi. apply wp_call.
  eapply wp_mono; [apply (Hm (tensors w0) (length (ms (chains w !!! r))))|].
  - split; [split|]; done.
  - intros o s' [[Hi' _] Hp]. simpl. split_and!.
    + split; [by apply prefix_insert_fresh|done].
    + destruct (decide (r < length (chains w))) as [Hlt|Hge].
      * rewrite list_lookup_total_insert, decide_True by done. done.
      * rewrite list_insert_ge by lia. done.
    + by rewrite length_insert.
Qed.

(** X1.  The copying shifts leave the chain they are applied to, every other
    chain object and every tensor object as they were, whether they return
    or raise; the chain they return is a new object. *)
Theorem shift_copy_leaves_original w r c other :
  chains w !! r = Some c → center_invariant c →
  (∀ o w', __lshift__ r other w = (o, w') →
     untouched w w' ∧ chains w' !! r = Some c
     ∧ ∀ r', o = Ok r' → r' = length (chains w) ∧ is_Some (chains w' !! r'))
  ∧ (∀ o w', __rshift__ r other w = (o, w') →
     untouched w w' ∧ chains w' !! r = Some c
     ∧ ∀ r', o = Ok r' → r' = length (chains w) ∧ is_Some (chains w' !! r')).
Proof.
  intros Hr Hi.
  assert (∀ m : ST Sigma unit, frames m →
    wp (r' ← copy r; call r' m;; mret r')
       (λ o w', untouched w w' ∧ chains w' !! r = Some c
                ∧ ∀ r', o = Ok r' → r' = length (chains w) ∧ is_Some (chains w' !! r')) w)
    as Hgen.
  { intros m Hm. unfold copy. wpw_steps.
    rewrite (list_lookup_total_correct _ _ _ Hr).
    eapply wp_mono.
    { apply (call_new_untouched m w); [done| |simpl; lia|].
      - split; simpl; [by apply prefix_app_r|done].
      - simpl. rewrite lookup_total_app_r by lia. by rewrite Nat.sub_diag. }
    intros [[]|e] w' ([Hc Ht] & _ & Hlen); simpl in Hlen; rewrite length_app in Hlen;
      simpl in Hlen.
    - apply wp_ret. split_and!; [done|by eapply prefix_lookup_Some|].
      intros r' [= <-]. split; [done|]. apply lookup_lt_is_Some_2. lia.
    - split_and!; [done|by eapply prefix_lookup_Some|done]. }
  split; intros o w' Hrun.
  - pose proof (Hgen (__ilshift__ other) (ilshift_frames other)) as H.
    unfold wp in H. fold (__lshift__ r other) in H. by rewrite Hrun in H.
  - pose proof (Hgen (__irshift__ other) (irshift_frames other)) as H.
    unfold wp in H. fold (__rshift__ r other) in H. by rewrite Hrun in H.
Qed.

(** X2.  The norm query works on a copy: it resets the copy to cut 0 and
    sweeps it [N] moves rightward, which succeeds, and returns the tensor
    that is then the [Lambda] of the copy.  The world it leaves has the copy
    as a new chain object after the existing ones, which are as they were,
    and a tensor store that extends the old one. *)
Theorem norm_leaves_chain w r c :
  chains w !! r = Some c → center_invariant c → has_neighbour c →
  let s0 := install 0 (collapse (mkSigma c (tensors w) (moves w))) in
  ∃ s3 lr,
    __irshift__ (ShiftInt (nsite c)) s0 = (Ok tt, s3)
    ∧ cut (self s3) = Some (nsite c) ∧ Lambda (self s3) = Some lr
    ∧ trail s3 = moves w ++ replicate (length (ms c)) MoveR
    ∧ tensors w `prefix_of` heap s3
    ∧ norm r w =
      (Ok (heap s3 !!! lr), mkWorld (chains w ++ [self s3]) (heap s3) (trail s3)).
Proof.
  intros Hr Hi Hn s0.
  set (s := mkSigma c (tensors w) (moves w)).
  assert (reset (Some 0%Z) s = (Ok tt, s0)) as Hreset.
  { destruct (reset_spec s Hi Hn) as [_ H]. rewrite (H 0%Z).
    rewrite decide_True; [done|]. unfold nsite. lia. }
  assert (length (ms (self s0)) = length (ms c)) as Hlen0
    by apply (install_collapse_length 0 s).
  assert (nsite (self s0) = nsite c) as HN by (unfold nsite; by rewrite Hlen0).
  pose proof (irshift_spec s0 0 (length (heap (collapse s))) (nsite (self s0)) None None
                eq_refl eq_refl) as Hsweep.
  destruct (wp_run _ _ _ (Hsweep ltac:(unfold nsite; lia) ltac:(lia) ltac:(lia)))
    as (o & s3 & Hrun & -> & Hm & Hl3 & Hc3 & [lr Hlam] & Ht3 & Hp3).
  pose proof Hrun as Hrun0. rewrite HN in Hrun.
  change (__irshift__ (ShiftTuple (nsite c) None None)) with
    (__irshift__ (ShiftInt (nsite c))) in Hrun.
  exists s3, lr. split_and!.
  - exact Hrun.
  - rewrite Hc3, HN. f_equal. rewrite Z2Nat.id by (unfold nsite; lia). lia.
  - exact Hlam.
  - rewrite Ht3, HN. unfold nsite. rewrite Nat2Z.id. f_equal.
    apply (collapse_trail s).
  - etrans; [|exact Hp3]. simpl. apply prefix_snoc, (collapse_heap s).
  - apply wp_eq. unfold norm, copy. wpw_steps.
    rewrite (list_lookup_total_correct _ _ _ Hr).
    apply wp_call. simpl. rewrite lookup_total_app_r by lia. rewrite Nat.sub_diag. simpl.
    fold s. eapply wp_of_run; [exact Hreset|].
    cbv beta iota. wpw_steps. rewrite list_lookup_total_insert, decide_True
      by (rewrite length_app; simpl; lia).
    apply wp_call. simpl.
    rewrite list_lookup_total_insert, decide_True by (rewrite length_app; simpl; lia).
    eapply wp_of_run; [exact Hrun0|].
    cbv beta iota. wpw_steps.
    rewrite list_lookup_total_insert, decide_True
      by (rewrite length_insert, length_app; simpl; lia).
    rewrite Hlam. wpw_steps. f_equal. f_equal.
    rewrite list_insert_insert_eq.
    rewrite insert_app_r_alt, Nat.sub_diag by done. done.
Qed.

(** ** The overlap *)

Lemma wp_relabel_at r f Q w :
  Q (Ok tt) (mkWorld (chains w) (<[r := f (tensors w !!! r)]> (tensors w)) (moves w)) →
  wp (relabel_at r f) Q w.
Proof. done. Qed.

(** A chain all of whose items were created after the store [h0]. *)
Definition made_after (h0 : list tensor) (c : MPS) : Prop :=
  Forall (λ r, length h0 ≤ r) (ms c).

Lemma overlap_pairs_untouched w0 rs1 : ∀ rs2 i n res w,
  untouched w0 w → Forall (λ r, length (tensors w0) ≤ r) rs2 →
  wp (overlap_pairs i n res rs1 rs2) (λ _ w', untouched w0 w') w.
Proof.
  induction rs1 as [|r1 rs1 IH]; intros rs2 i n res w Hu Hf; [by destruct rs2|].
  destruct rs2 as [|r2 rs2]; [done|].
  apply Forall_cons in Hf as [Hr2 Hf].
  assert (∀ cs ts mv f, untouched w0 (mkWorld cs ts mv) →
            untouched w0 (mkWorld cs (<[r2 := f]> ts) mv)) as Hstep.
  { intros cs ts mv f [Hc Ht]. split; [done|]. by apply prefix_insert_fresh. }
  assert (untouched w0 (mkWorld (chains w) (tensors w) (moves w))) as Hu'
    by (destruct Hu; by split).
  simpl. wpw_steps. apply wp_relabel_at. wpw_beta.
  apply wp_bind.
  destruct (decide (i = 0%Z)); [apply wp_relabel_at|apply wp_ret]; wpw_beta;
    (apply wp_bind;
     destruct (decide (i = n - 1)%Z); [apply wp_relabel_at|apply wp_ret]; wpw_beta;
     wpw_steps; (apply IH; [|done]); repeat apply Hstep; done).
Qed.

Lemma reset_none_made_after h0 s :
  center_invariant (self s) → h0 `prefix_of` heap s → made_after h0 (self s) →
  wp (reset None)
     (λ _ s', center_invariant (self s') ∧ h0 `prefix_of` heap s'
              ∧ made_after h0 (self s')) s.
Proof.
  intros Hi Hp Hf. destruct (decide (has_neighbour (self s))) as [Hn|Hn].
  - destruct (reset_spec s Hi Hn) as [Hrun _].
    eapply wp_of_run; [exact Hrun|]. split_and!.
    + by apply centerless_invariant, collapse_centerless.
    + etrans; [done|apply collapse_heap].
    + unfold made_after, collapse. destruct (cut (self s)), (Lambda (self s)); try done.
      apply prefix_length in Hp.
      destruct (decide _); simpl; apply Forall_insert; auto.
  - assert (ms (self s) = []) as Hnil.
    { destruct (ms (self s)) eqn:E; [done|]. destruct Hn. right.
      unfold nsite. rewrite E. simpl. lia. }
    eapply wp_mono; [apply (reset_frames None h0 0 s)|].
    + split; [split|]; [done|by rewrite Hnil|done].
    + intros o s' [[Hi' Hlen] Hp']. split_and!; [done|done|].
      unfold made_after. destruct (ms (self s')); [done|discriminate].
Qed.

Lemma dagger_of_spec w0 w r :
  untouched w0 w →
  wp (dagger_of r)
     (λ o w', untouched w0 w'
              ∧ match o with
                | Ok t2 => t2 = length (chains w)
                           ∧ ∃ c', chains w' = chains w ++ [c']
                                   ∧ center_invariant c'
                                   ∧ made_after (tensors w) c'
                | Raise _ => chains w' = chains w
                end) w.
Proof.
  intros [Hc Ht]. unfold dagger_of. wpw_steps.
  set (ds := (λ m, dagger (tensors w !!! m)) <$> ms (chains w !!! r)).
  assert (Forall (λ r, length (tensors w) ≤ r) (seq (length (tensors w)) (length ds)))
    as Hfresh by (apply Forall_seq; lia).
  assert (∀ lam ext, wp (__init__ (mode (chains w !!! r))
                           (seq (length (tensors w)) (length ds)) lam
                           (cut (chains w !!! r)))
    (λ o w', untouched w0 w'
             ∧ match o with
               | Ok t2 => t2 = length (chains w)
                          ∧ ∃ c', chains w' = chains w ++ [c']
                                  ∧ center_invariant c'
                                  ∧ made_after (tensors w) c'
               | Raise _ => chains w' = chains w
               end)
    (mkWorld (chains w) ((tensors w ++ ds) ++ ext) (moves w))) as Hinit.
  { intros lam ext.
    assert (untouched w0 (mkWorld (chains w) ((tensors w ++ ds) ++ ext) (moves w))) as Hu.
    { split; [done|]. simpl. by do 2 apply prefix_app_r. }
    unfold wp, __init__. cbn [tensors chains moves].
    destruct lam as [lr|], (cut (chains w !!! r)) as [k|]; try done.
    - destruct (decide _) as [Hk|]; [|done]. destruct (_ && _); [|done].
      simpl. split; [split; [by apply prefix_app_r|by do 2 apply prefix_app_r]|].
      split; [done|]. eexists. split; [done|]. split; [|done].
      apply centered_invariant. by exists k, lr.
    - destruct (forallb _ _); [|done].
      simpl. split; [split; [by apply prefix_app_r|by do 2 apply prefix_app_r]|].
      split; [done|]. eexists. split; [done|]. split; [|done].
      by apply centerless_invariant. }
  destruct (Lambda (chains w !!! r)) as [lr|]; wpw_steps.
  - apply (Hinit _ [_]).
  - rewrite <- (app_nil_r (tensors w ++ ds)). apply Hinit.
Qed.

Lemma call_other {A} r (m : ST Sigma A) w :
  wp (call r m) (λ _ w', ∀ r', r' ≠ r → chains w' !!! r' = chains w !!! r') w.
Proof.
  apply wp_call. unfold wp. intros r' Hne. simpl.
  by rewrite list_lookup_total_insert_ne.
Qed.

Lemma wp_and {S A} (m : ST S A) (Q1 Q2 : Outcome A → S → Prop) s :
  wp m Q1 s → wp m Q2 s → wp m (λ o s', Q1 o s' ∧ Q2 o s') s.
Proof. unfold wp. auto. Qed.

(** X3.  The overlap leaves the two chains it is given, every other chain object
    and every tensor object as they were, whether it returns or raises. *)
Theorem overlap_leaves_chains w r1 r2 c1 c2 :
  chains w !! r1 = Some c1 → chains w !! r2 = Some c2 → center_invariant c1 →
  ∀ o w', overlap r1 r2 w = (o, w') →
    untouched w w' ∧ chains w' !! r1 = Some c1 ∧ chains w' !! r2 = Some c2.
Proof.
  intros Hr1 Hr2 Hi1.
  cut (wp (overlap r1 r2) (λ _ w', untouched w w') w).
  { intros H o w' Hrun. unfold wp in H. rewrite Hrun in H. simpl in H.
    split; [done|]. destruct H as [Hc _]. split; by eapply prefix_lookup_Some. }
  unfold overlap. wpw_steps. destruct (decide _) as [HN|]; [|by apply wp_raise].
  unfold copy. wpw_steps. rewrite (list_lookup_total_correct _ _ _ Hr1).
  set (w1 := mkWorld (chains w ++ [c1]) (tensors w) (moves w)).
  assert (untouched w w1) as Hu1 by (split; [by apply prefix_app_r|done]).
  eapply wp_mono; [apply (dagger_of_spec w w1 r2 Hu1)|].
  intros [t2|e] w2 [Hu2 H2]; [|done].
  destruct H2 as (-> & c' & Hch2 & Hi' & Hf'). simpl in Hf'.
  set (t1 := length (chains w)).
  assert (length (chains w1) = S t1) as Hl1 by (simpl; rewrite length_app; simpl; lia).
  assert (chains w2 !!! t1 = c1) as Ht1.
  { rewrite Hch2. rewrite lookup_total_app_l by lia. simpl.
    rewrite lookup_total_app_r by done. by rewrite Nat.sub_diag. }
  assert (chains w2 !!! S t1 = c') as Ht2.
  { rewrite Hch2, lookup_total_app_r by lia. by rewrite Hl1, Nat.sub_diag. }
  assert (length (chains w2) = S (S t1)) as Hl2
    by (rewrite Hch2, length_app, Hl1; simpl; lia).
  (* reset of the copy *)
  apply wp_bind. eapply wp_mono.
  { apply wp_and; [|apply call_other].
    apply (call_new_untouched (reset None) w w2 t1); [apply reset_frames|done|done|].
    by rewrite Ht1. }
  intros [[]|e] w3 [(Hu3 & _ & Hl3) Ho3]; [|done].
  (* reset of the dagger *)
  apply wp_bind, wp_call.
  rewrite Hl1, (Ho3 (S t1)), Ht2 by lia.
  eapply wp_mono.
  { apply (reset_none_made_after (tensors w)); [done|apply Hu3|done]. }
  intros o4 s4 (_ & Hp4 & Hf4).
  assert (untouched w (mkWorld (<[S t1 := self s4]> (chains w3)) (heap s4) (trail s4)))
    as Hu4.
  { split; [|done]. simpl. apply prefix_insert_fresh; [lia|apply Hu3]. }
  destruct o4 as [[]|e]; [|done].
  assert (<[S t1 := self s4]> (chains w3) !!! S t1 = self s4) as Hd2
    by (rewrite list_lookup_total_insert, decide_True by lia; done).
  wpw_steps. rewrite Hd2.
  eapply wp_mono; [by apply (overlap_pairs_untouched w)|].
  intros [[t|]|e] w5 Hu5; [|done|done].
  by destruct (decide _).
Qed.

(** ** Further properties of the operations *)

(** X4.  On a chain whose tensors have pairwise different site labels and
    whose center, if any, is a one-legged DTensor on the bond of its
    neighbour, over a tensor library in which a label equals itself and the
    product with a one-legged tensor keeps the site label, [_merge_ABL_]
    followed by [_set_ABL_] on what it returned gives the chain back its
    items, its cut and its [Lambda]; the merged tensor stays in the store as
    an object no chain holds. *)
Theorem merge_then_set_restores s :
  label_eq_refl → product_keeps_site →
  center_invariant (self s) → has_neighbour (self s) → closed s →
  center_on_bond s → sites_differ s →
  ('(m, lam) ← _merge_ABL_ SideR; _set_ABL_ m lam) s =
  (Ok tt, mkSigma (self s) (heap (collapse s)) (trail s)).
Proof.
  intros Hrefl Hprod Hi Hn Hcl Hb Hd. apply wp_eq. apply wp_bind.
  eapply wp_mono; [by apply merge_spec|]. intros o s' [-> ->].
  rewrite merge_result_neighbour.
  destruct (collapse_store_keeps s [] Hcl Hn Hi) as (Hkt & Hkl & _).
  rewrite app_nil_r in Hkt, Hkl.
  pose proof (set_ABL_restores s (heap (collapse s)) Hrefl Hprod Hi Hn Hcl Hb Hd
                Hkt Hkl (λ _ _, eq_refl)) as H.
  rewrite <- (collapse_trail s) in H at 1.
  unfold wp. replace (collapse s) with
    (mkSigma (self (collapse s)) (heap (collapse s)) (trail (collapse s)))
    by by destruct (collapse s).
  simpl. by rewrite H.
Qed.

(** X5.  [self<<=(k,nmax,tol)] with [0 <= k <= cut] makes [k] leftward moves and
    ends with the cut at [cut-k]; [self>>=(k,nmax,tol)] with
    [0 <= k <= N-cut] makes [k] rightward moves and ends with the cut at
    [cut+k]; a negative count shifts the other way. *)
Theorem shift_by_count s c lr k nmax tol :
  cut (self s) = Some c → Lambda (self s) = Some lr →
  (0 ≤ c ≤ nsite (self s))%Z → (0 ≤ k)%Z →
  ((k ≤ c)%Z →
     ∃ s', __ilshift__ (ShiftTuple k nmax tol) s = (Ok tt, s')
           ∧ __irshift__ (ShiftTuple (- k) nmax tol) s = (Ok tt, s')
           ∧ cut (self s') = Some (c - k)%Z
           ∧ trail s' = trail s ++ replicate (Z.to_nat k) MoveL)
  ∧ ((c + k ≤ nsite (self s))%Z →
     ∃ s', __irshift__ (ShiftTuple k nmax tol) s = (Ok tt, s')
           ∧ __ilshift__ (ShiftTuple (- k) nmax tol) s = (Ok tt, s')
           ∧ cut (self s') = Some (c + k)%Z
           ∧ trail s' = trail s ++ replicate (Z.to_nat k) MoveR).
Proof.
  intros Hc Hl Hr Hk. split; intros Hk'.
  - destruct (wp_run _ _ _ (ilshift_spec s c lr k nmax tol Hc Hl ltac:(lia) ltac:(lia)))
      as (o & s' & Hrun & -> & _ & _ & Hcut & _ & Ht & _).
    exists s'. split_and!; [done| |rewrite Hcut; f_equal; lia|done].
    unfold __irshift__. by rewrite Z.opp_involutive.
  - destruct (wp_run _ _ _ (irshift_spec s c lr k nmax tol Hc Hl ltac:(lia) ltac:(lia)
                              ltac:(lia)))
      as (o & s' & Hrun & -> & _ & _ & Hcut & _ & Ht & _).
    exists s'. split_and!; [done|done|rewrite Hcut; f_equal; lia|done].
Qed.

(** X6.  [compress(nsweep,cut,nmax,tol)] with [nsweep >= 1] on a chain with at
    least one site runs the moves of [canonicalize(cut)] [nsweep] times and
    returns with the cut at [cut]. *)
Theorem compress_repeats s n c nmax tol :
  center_invariant (self s) → (0 < nsite (self s))%Z →
  (0 ≤ c ≤ nsite (self s))%Z → (0 < n)%Z →
  ∃ s', compress n c nmax tol s = (Ok tt, s')
        ∧ cut (self s') = Some c
        ∧ is_Some (Lambda (self s'))
        ∧ trail s' = trail s
                     ++ concat (replicate (Z.to_nat n) (canonicalize_moves (nsite (self s)) c)).
Proof.
  intros Hi HN Hc Hn.
  cut (wp (compress n c nmax tol)
          (λ o s', o = Ok tt ∧ cut (self s') = Some c ∧ is_Some (Lambda (self s'))
                   ∧ trail s' = trail s ++ concat (replicate (Z.to_nat n)
                                            (canonicalize_moves (nsite (self s)) c))) s).
  { intros H. apply wp_run in H as (o & s' & Hrun & -> & H). eauto. }
  unfold compress.
  apply (wp_for_xrange (λ i s',
    center_invariant (self s') ∧ length (ms (self s')) = length (ms (self s))
    ∧ trail s' = trail s ++ concat (replicate i (canonicalize_moves (nsite (self s)) c))
    ∧ (0 < i → cut (self s') = Some c ∧ is_Some (Lambda (self s'))))).
  - split_and!; [done|done|by rewrite app_nil_r|lia].
  - intros i s1 Hlt (Hi1 & Hlen1 & Ht1 & _).
    eapply wp_mono.
    { apply (canonicalize_spec s1 c nmax tol Hi1).
      - right. unfold nsite in *. rewrite Hlen1. done.
      - unfold nsite in *. rewrite Hlen1. done. }
    intros o s2 (-> & Hc2 & [lr Hl2] & Hlen2 & Ht2).
    split_and!.
    + apply centered_invariant. exists c, lr. unfold nsite in *.
      rewrite Hlen2, Hlen1. done.
    + by rewrite Hlen2.
    + rewrite Ht2, Ht1. unfold nsite. rewrite Hlen1.
      rewrite <- app_assoc. f_equal.
      change (S i) with (1 + i). rewrite Nat.add_comm, replicate_add, concat_app.
      simpl. by rewrite app_nil_r.
    + intros _. by rewrite Hl2.
  - intros s' (_ & _ & Ht & Hcut). destruct Hcut as [Hcut Hl]; [lia|]. done.
Qed.

(** X7.  The labelled constructor fails at once on a size mismatch: with
    [len(ms)], [len(sites)] and [len(bonds)-1] not all equal it raises
    AssertionError and leaves no object behind. *)
Theorem init_size_mismatch_fails w md arrs lam k sites bonds :
  length arrs ≠ length sites
  ∨ Z.of_nat (length sites) ≠ (Z.of_nat (length bonds) - 1)%Z →
  __init__labelled md arrs lam k sites bonds w = (Raise AssertionError, w).
Proof.
  intros Hne. unfold __init__labelled.
  rewrite bool_decide_eq_false_2 by tauto. simpl.
  destruct lam, k; try done. by destruct (decide _).
Qed.

(** ** Shifts past the boundary *)

Lemma lmove_step_at_zero_run s lr nmax tol :
  cut (self s) = Some 0%Z → Lambda (self s) = Some lr →
  ∃ e s', lmove_step nmax tol s = (Raise e, s') ∧ self s' = self s ∧ trail s' = trail s
          ∧ heap s `prefix_of` heap s'
          ∧ ((0 < nsite (self s))%Z → e = ValueError)
          ∧ (nsite (self s) = 0%Z → e = IndexError ∧ s' = s).
Proof.
  destruct s as [[md items lam ct] h tr]. unfold nsite. simpl. intros -> ->.
  destruct (decide (length items = 0)) as [H0|H0].
  - exists IndexError, (mkSigma (mkMPS md items (Some lr) (Some 0%Z)) h tr).
    split_and!; try done; [|lia].
    apply wp_eq. unfold lmove_step. wp_steps.
    unfold py_index. rewrite !decide_False by lia. done.
  - eexists ValueError, _. split_and!; [| | | | |lia]; cycle 1.
    5:{ apply wp_eq. unfold lmove_step. wp_steps.
        unfold py_index. rewrite decide_False, decide_True by lia. wp_steps.
        unfold wp. rewrite lmove_at_zero by done. done. }
    all: simpl; try done. by apply prefix_app_r.
Qed.

Lemma lsweep_overshoot s c lr n nmax tol :
  cut (self s) = Some c → Lambda (self s) = Some lr →
  (0 ≤ c ≤ nsite (self s))%Z → (c < Z.of_nat n)%Z →
  wp (for_xrange n (lmove_step nmax tol))
     (λ o s', (∃ e, o = Raise e ∧ ((0 < nsite (self s))%Z → e = ValueError))
              ∧ ∃ s1, swept s c (-1) MoveL (Z.to_nat c) s1
                      ∧ self s' = self s1 ∧ trail s' = trail s1
                      ∧ heap s1 `prefix_of` heap s') s.
Proof.
  intros Hc Hl Hr Hn.
  apply (wp_for_xrange (λ i s1, Z.of_nat i ≤ c ∧ swept s c (-1) MoveL i s1)%Z).
  - split; [lia|by eapply swept_start].
  - intros i s1 Hi [Hic Hs1]. pose proof Hs1 as (Hm & Hlen & Hc1 & [lr1 Hl1] & Ht & Hp).
    destruct (decide (Z.of_nat i = c)) as [Heq|Hne].
    + destruct (lmove_step_at_zero_run s1 lr1 nmax tol) as (e & s' & Hrun & Hs & Htr & Hp' & He & _);
        [rewrite Hc1; f_equal; lia|done|].
      eapply wp_of_run; [exact Hrun|]. simpl. split.
      * exists e. split; [done|]. intros HN. apply He. unfold nsite in *. by rewrite Hlen.
      * exists s1. replace (Z.to_nat c) with i by lia. done.
    + eapply wp_mono.
      { eapply lmove_step_spec; [done|done|]. unfold nsite in *. rewrite Hlen. lia. }
      intros o s2 [-> Hmv]. split; [lia|]. eapply swept_step; [done|].
      replace (c + -1 * Z.of_nat (S i))%Z with (c + -1 * Z.of_nat i - 1)%Z by lia. done.
  - intros s1 [Hle _]. lia.
Qed.

Lemma rsweep_overshoot s c lr n nmax tol :
  cut (self s) = Some c → Lambda (self s) = Some lr →
  (0 ≤ c ≤ nsite (self s))%Z → (nsite (self s) - c < Z.of_nat n)%Z →
  wp (for_xrange n (rmove_step nmax tol))
     (λ o s', o = Raise IndexError
              ∧ swept s c 1 MoveR (Z.to_nat (nsite (self s) - c)) s') s.
Proof.
  intros Hc Hl Hr Hn.
  apply (wp_for_xrange (λ i s1, c + Z.of_nat i ≤ nsite (self s)
                                 ∧ swept s c 1 MoveR i s1)%Z).
  - split; [lia|by eapply swept_start].
  - intros i s1 Hi [Hic Hs1]. pose proof Hs1 as (Hm & Hlen & Hc1 & [lr1 Hl1] & Ht & Hp).
    destruct (decide (c + Z.of_nat i = nsite (self s))%Z) as [Heq|Hne].
    + eapply wp_of_run.
      { apply rmove_step_at_end. rewrite Hc1. f_equal. unfold nsite in *. rewrite Hlen. lia. }
      simpl. split; [done|]. replace (Z.to_nat (nsite (self s) - c)) with i by lia. done.
    + eapply wp_mono.
      { eapply rmove_step_spec; [done|done|]. unfold nsite in *. rewrite Hlen. lia. }
      intros o s2 [-> Hmv]. split; [lia|]. eapply swept_step; [done|].
      replace (c + 1 * Z.of_nat (S i))%Z with (c + 1 * Z.of_nat i + 1)%Z by lia. done.
  - intros s1 [Hle _]. lia.
Qed.

(** X8.  A shift by more moves than the chain has left is not atomic.
    [self<<=(k,nmax,tol)] with [k > cut] makes [cut] leftward moves and then
    raises (ValueError on a chain with sites), leaving the cut at 0;
    [self>>=(k,nmax,tol)] with [k > N-cut] makes [N-cut] rightward moves and
    then raises IndexError, leaving the cut at [N]. *)
Theorem shift_overshoot_stops_at_boundary s c lr k nmax tol :
  cut (self s) = Some c → Lambda (self s) = Some lr → (0 ≤ c ≤ nsite (self s))%Z →
  ((c < k)%Z →
     ∃ e s', __ilshift__ (ShiftTuple k nmax tol) s = (Raise e, s')
             ∧ ((0 < nsite (self s))%Z → e = ValueError)
             ∧ cut (self s') = Some 0%Z ∧ is_Some (Lambda (self s'))
             ∧ length (ms (self s')) = length (ms (self s))
             ∧ trail s' = trail s ++ replicate (Z.to_nat c) MoveL)
  ∧ ((nsite (self s) - c < k)%Z →
     ∃ s', __irshift__ (ShiftTuple k nmax tol) s = (Raise IndexError, s')
           ∧ cut (self s') = Some (nsite (self s)) ∧ is_Some (Lambda (self s'))
           ∧ length (ms (self s')) = length (ms (self s))
           ∧ trail s' = trail s ++ replicate (Z.to_nat (nsite (self s) - c)) MoveR).
Proof.
  intros Hc Hl Hr. split; intros Hk.
  - destruct (wp_run _ _ _ (lsweep_overshoot s c lr (Z.to_nat k) nmax tol Hc Hl Hr
                              ltac:(lia)))
      as (o & s' & Hrun & (e & -> & He) & s1 & (Hm & Hlen & Hc1 & Hl1 & Ht & Hp) & Hs & Htr & _).
    exists e, s'. unfold __ilshift__. rewrite decide_True by lia.
    split_and!; [done|done|..]; rewrite ?Hs, ?Htr; try done.
    rewrite Hc1. f_equal. lia.
  - destruct (wp_run _ _ _ (rsweep_overshoot s c lr (Z.to_nat k) nmax tol Hc Hl Hr
                              ltac:(lia)))
      as (o & s' & Hrun & -> & (Hm & Hlen & Hc1 & Hl1 & Ht & Hp)).
    exists s'. unfold __irshift__, __ilshift__.
    destruct (decide (0 ≤ - k)%Z) as [H0|H0].
    { assert (k = 0%Z) as -> by lia. lia. }
    rewrite Z.opp_involutive. split_and!; try done.
    rewrite Hc1. f_equal. lia.
Qed.

(** X9.  [canonicalize(c)] with a target outside [0, N] raises only after
    the full sweep: for [c < 0] the chain is left with the cut at 0, for
    [c > N] with the cut at [N]. *)
Theorem canonicalize_out_of_range_raises s c nmax tol :
  center_invariant (self s) → has_neighbour (self s) →
  ((c < 0)%Z →
     ∃ e s', canonicalize c nmax tol s = (Raise e, s')
             ∧ ((0 < nsite (self s))%Z → e = ValueError)
             ∧ cut (self s') = Some 0%Z ∧ is_Some (Lambda (self s'))
             ∧ trail s' = trail s ++ replicate (length (ms (self s))) MoveL)
  ∧ ((nsite (self s) < c)%Z →
     ∃ s', canonicalize c nmax tol s = (Raise IndexError, s')
           ∧ cut (self s') = Some (nsite (self s)) ∧ is_Some (Lambda (self s'))
           ∧ trail s' = trail s ++ replicate (length (ms (self s))) MoveR).
Proof.
  intros Hi Hn. set (N := nsite (self s)).
  destruct (reset_spec s Hi Hn) as [_ Hreset].
  assert (0 ≤ N)%Z as HN by (unfold N, nsite; lia).
  split; intros Hc.
  - cut (wp (canonicalize c nmax tol)
          (λ o s', (∃ e, o = Raise e ∧ ((0 < N)%Z → e = ValueError))
                   ∧ cut (self s') = Some 0%Z ∧ is_Some (Lambda (self s'))
                   ∧ trail s' = trail s ++ replicate (length (ms (self s))) MoveL) s).
    { intros H. apply wp_run in H as (o & s' & Hrun & (e & -> & He) & H).
      exists e, s'. split_and!; try done; apply H. }
    unfold canonicalize. apply wp_bind, wp_get_self. fold N.
    rewrite decide_True by (assert (0 ≤ N / 2)%Z by (apply Z.div_pos; lia); lia).
    pose proof (Hreset N) as Hr. rewrite decide_True in Hr by (fold N; lia).
    apply wp_bind. eapply wp_of_run; [exact Hr|]. cbv beta iota.
    set (s1 := install N (collapse s)).
    assert (nsite (self s1) = N) as HN1.
    { unfold nsite, s1. by rewrite install_collapse_length. }
    apply wp_bind. eapply wp_mono.
    { apply (ilshift_spec s1 N (length (heap (collapse s))) N nmax tol eq_refl eq_refl);
        rewrite ?HN1; lia. }
    intros o s2 (-> & Hm & Hlen & Hc2 & [lr2 Hl2] & Ht & Hp).
    unfold __irshift__, __ilshift__. rewrite decide_True by lia.
    eapply wp_mono.
    { apply (lsweep_overshoot s2 0 lr2 (Z.to_nat (- c)) nmax tol); [|done| |lia].
      - rewrite Hc2. f_equal. lia.
      - unfold nsite. lia. }
    intros o3 s3 ((e & -> & He) & s4 & (_ & _ & Hc4 & Hl4 & Ht4 & _) & Hs & Htr & _).
    simpl in Ht4. rewrite app_nil_r in Ht4.
    split_and!; [|by rewrite Hs, Hc4|by rewrite Hs|].
    { exists e. split; [done|]. intros HN0. apply He. unfold nsite. rewrite Hlen.
      fold (nsite (self s1)). by rewrite HN1. }
    rewrite Htr, Ht4, Ht. simpl. rewrite (collapse_trail s). f_equal. f_equal.
    unfold N, nsite. lia.
  - cut (wp (canonicalize c nmax tol)
          (λ o s', o = Raise IndexError ∧ cut (self s') = Some N ∧ is_Some (Lambda (self s'))
                   ∧ trail s' = trail s ++ replicate (length (ms (self s))) MoveR) s).
    { intros H. apply wp_run in H as (o & s' & Hrun & -> & H). eauto. }
    unfold canonicalize. apply wp_bind, wp_get_self. fold N.
    rewrite decide_False.
    2:{ assert (N / 2 ≤ N)%Z by (apply Z.div_le_upper_bound; lia). lia. }
    pose proof (Hreset 0%Z) as Hr. rewrite decide_True in Hr by (fold N; lia).
    apply wp_bind. eapply wp_of_run; [exact Hr|]. cbv beta iota.
    set (s1 := install 0 (collapse s)).
    assert (nsite (self s1) = N) as HN1.
    { unfold nsite, s1. by rewrite install_collapse_length. }
    apply wp_bind. eapply wp_mono.
    { apply (irshift_spec s1 0 (length (heap (collapse s))) N nmax tol eq_refl eq_refl);
        rewrite ?HN1; lia. }
    intros o s2 (-> & Hm & Hlen & Hc2 & [lr2 Hl2] & Ht & Hp).
    unfold __ilshift__. rewrite decide_False by lia.
    assert (nsite (self s2) = N) as HN2.
    { unfold nsite. rewrite Hlen. exact HN1. }
    eapply wp_mono.
    { apply (rsweep_overshoot s2 N lr2 (Z.to_nat (- (N - c))) nmax tol); [|done|lia|lia].
      rewrite Hc2. f_equal. lia. }
    intros o3 s3 (-> & (_ & _ & Hc4 & Hl4 & Ht4 & _)).
    rewrite HN2, Z.sub_diag in Hc4, Ht4. simpl in Ht4. rewrite app_nil_r in Ht4.
    split_and!; [done|rewrite Hc4; f_equal; lia|done|].
    rewrite Ht4, Ht. simpl. rewrite (collapse_trail s). f_equal. f_equal.
    unfold N, nsite. lia.
Qed.

(** ** Views of a chain *)

Lemma py_bound_le n i d : d ≤ n → py_bound n i d ≤ n.
Proof. unfold py_bound. destruct i as [k|]; [|done]. destruct (decide _); lia. Qed.

(** X10.  [As] and [Bs] split the chain at the cut for every integer cut,
    also a negative one or one past the end: [As+Bs] is the whole chain, and
    for a cut in [0, N] they are its first [cut] and its last [N-cut] items.
    Without a cut each of them is the whole chain. *)
Theorem As_Bs_partition (c : MPS) :
  (∀ k, cut c = Some k →
     As c ++ Bs c = ms c
     ∧ ((0 ≤ k ≤ nsite c)%Z →
        As c = take (Z.to_nat k) (ms c) ∧ Bs c = drop (Z.to_nat k) (ms c)))
  ∧ (cut c = None → As c = ms c ∧ Bs c = ms c).
Proof.
  unfold As, Bs, py_slice, nsite. split.
  - intros k ->. set (n := length (ms c)).
    assert (py_bound n (Some 0%Z) 0 = 0) as -> by (unfold py_bound; simpl; lia).
    assert (py_bound n (Some (Z.of_nat n)) n = n) as ->.
    { unfold py_bound. rewrite decide_False by lia. lia. }
    pose proof (py_bound_le n (Some k) n ltac:(done)) as Hle.
    set (a := py_bound n (Some k) n) in *.
    rewrite Nat.sub_0_r, drop_0. change (py_bound n (Some k) 0) with a.
    assert (take (n - a) (drop a (ms c)) = drop a (ms c)) as ->.
    { apply take_ge. rewrite length_drop. done. }
    split; [apply take_drop|]. intros Hk.
    assert (a = Z.to_nat k) as ->; [|done].
    unfold a, py_bound. rewrite decide_False by lia. lia.
  - intros ->. unfold py_bound. rewrite !decide_False by lia.
    rewrite Nat2Z.id, Nat.min_id. simpl. rewrite !Nat.sub_0_r, !drop_0.
    split; by apply take_ge.
Qed.

(** X11.  [self.table[S]] is the position of the last item whose site label
    equals [S], and a KeyError when no item has that site label. *)
Theorem table_finds_last_site s lS :
  (∀ i r, ms (self s) !! i = Some r →
     leg (heap s !!! r) 1 = lS → label_eqb lS lS = true →
     (∀ j r', i < j → ms (self s) !! j = Some r' →
        label_eqb (leg (heap s !!! r') 1) lS = false) →
     table_at lS s = (Ok i, s))
  ∧ ((∀ r, r ∈ ms (self s) → label_eqb (leg (heap s !!! r) 1) lS = false) →
     table_at lS s = (Raise KeyError, s)).
Proof.
  split.
  - intros i r Hi Hleg Hrefl Hlater. unfold table_at.
    rewrite (table_lookup_last _ lS 0 i); [done| |done|].
    + rewrite list_lookup_fmap, Hi. simpl. by rewrite Hleg.
    + intros j l Hj. rewrite list_lookup_fmap. intros Hl.
      destruct (ms (self s) !! j) as [r'|] eqn:E; [|done]. injection Hl as <-.
      by eapply Hlater.
  - intros Hnone. unfold table_at. rewrite table_lookup_none; [done|].
    intros l [r [-> Hr]]%list_elem_of_fmap. by apply Hnone.
Qed.

(** ** Relabelling *)

(** The store after the loop of [relabel] over the items [rs]. *)
Fixpoint relabelled (fin fout : Z) (h : list tensor) (rs : list tref)
    (ss bs : list label) : list tensor :=
  match rs, ss, bs with
  | r :: rs', site :: ss', L :: ((R :: _) as bs') =>
      relabelled fin fout
        (<[r := relabel_news (h !!! r)
                  [replace_flow L (Some fin); replace_flow site (Some fin);
                   replace_flow R (Some fout)]]> h) rs' ss' bs'
  | _, _, _ => h
  end.

Lemma relabel_items_run fin fout rs ss bs s :
  relabel_items fin fout rs ss bs s =
  (Ok tt, mkSigma (self s) (relabelled fin fout (heap s) rs ss bs) (trail s)).
Proof.
  revert ss bs s. induction rs as [|r rs IH]; intros ss bs s; [by destruct s|].
  destruct ss as [|S ss]; [by destruct s|].
  destruct bs as [|L [|R bs]]; [by destruct s..|].
  simpl. unfold mbind, ST_bind, mutate. simpl. by rewrite IH.
Qed.

Lemma relabelled_length fin fout h rs ss bs :
  length (relabelled fin fout h rs ss bs) = length h.
Proof.
  revert h ss bs. induction rs as [|r rs IH]; intros h ss bs; [done|].
  destruct ss as [|S ss]; [done|]. destruct bs as [|L [|R bs]]; [done..|].
  simpl. by rewrite IH, length_insert.
Qed.

Lemma relabelled_other fin fout h rs ss bs r :
  r ∉ rs → relabelled fin fout h rs ss bs !! r = h !! r.
Proof.
  revert h ss bs. induction rs as [|r0 rs IH]; intros h ss bs Hr; [done|].
  destruct ss as [|S ss]; [done|]. destruct bs as [|L [|R bs]]; [done..|].
  apply not_elem_of_cons in Hr as [Hne Hr]. simpl.
  rewrite IH by done. by rewrite list_lookup_insert_ne.
Qed.

Lemma relabelled_item fin fout h rs ss bs j r S L R :
  NoDup rs → Forall (λ r, r < length h) rs →
  rs !! j = Some r → ss !! j = Some S → bs !! j = Some L → bs !! (Datatypes.S j) = Some R →
  relabelled fin fout h rs ss bs !! r =
  Some (relabel_news (h !!! r)
          [replace_flow L (Some fin); replace_flow S (Some fin); replace_flow R (Some fout)]).
Proof.
  revert h ss bs j. induction rs as [|r0 rs IH]; intros h ss bs j Hnd Hv Hr HS HL HR; [done|].
  destruct ss as [|S0 ss]; [done|]. destruct bs as [|L0 [|R0 bs]]; [done| |].
  { by destruct j. }
  apply NoDup_cons in Hnd as [Hnin Hnd]. apply Forall_cons in Hv as [Hv0 Hv].
  simpl. destruct j as [|j]; simpl in *.
  - injection Hr as ->. injection HS as ->. injection HL as ->. injection HR as ->.
    rewrite relabelled_other by done. by rewrite list_lookup_insert_eq.
  - assert (r ≠ r0) as Hne.
    { intros ->. apply Hnin. by eapply list_elem_of_lookup_2. }
    rewrite (IH _ ss (R0 :: bs) j); try done.
    + by rewrite list_lookup_total_insert_ne.
    + eapply Forall_impl; [done|]. intros x Hx. simpl. by rewrite length_insert.
Qed.

(** X12.  [relabel(sites,bonds)] raises AssertionError with nothing changed
    unless [len(sites)==N==len(bonds)-1]; otherwise it returns on every chain
    that satisfies the center invariant, and whether it returns or raises it
    leaves the chain object (items, cut, [Lambda]) as it was, creates no
    tensor object and changes no tensor object other than the items and
    [Lambda] of the chain. *)
Theorem relabel_keeps_structure s ss bs :
  (¬ (length ss = length (ms (self s))
      ∧ Z.of_nat (length (ms (self s))) = (Z.of_nat (length bs) - 1)%Z) →
   relabel ss bs s = (Raise AssertionError, s))
  ∧ (length ss = length (ms (self s)) →
     Z.of_nat (length (ms (self s))) = (Z.of_nat (length bs) - 1)%Z →
     ∀ o s', relabel ss bs s = (o, s') →
       self s' = self s ∧ trail s' = trail s ∧ length (heap s') = length (heap s)
       ∧ (∀ r, r ∉ ms (self s) → Lambda (self s) ≠ Some r → heap s' !! r = heap s !! r)
       ∧ (center_invariant (self s) → o = Ok tt)).
Proof.
  split.
  - intros Hne. apply wp_eq. unfold relabel. wp_steps. by rewrite decide_False.
  - intros H1 H2 o s' Hrun.
    cut (wp (relabel ss bs)
           (λ o s', self s' = self s ∧ trail s' = trail s
                    ∧ length (heap s') = length (heap s)
                    ∧ (∀ r, r ∉ ms (self s) → Lambda (self s) ≠ Some r →
                         heap s' !! r = heap s !! r)
                    ∧ (center_invariant (self s) → o = Ok tt)) s).
    { unfold wp. by rewrite Hrun. }
    clear o s' Hrun. unfold relabel. wp_steps. rewrite decide_True by done.
    set (fl := match mode (self s) with QN => (1, -1)%Z | NB => (0, 0)%Z end).
    destruct fl as [fin fout]. apply wp_bind.
    eapply wp_of_run; [apply relabel_items_run|]. cbv beta iota.
    set (h' := relabelled fin fout (heap s) (ms (self s)) ss bs).
    assert (length h' = length (heap s)) as Hlen by apply relabelled_length.
    assert (∀ r, r ∉ ms (self s) → h' !! r = heap s !! r) as Hother
      by (intros r Hr; by apply relabelled_other).
    cbn [self]. destruct (Lambda (self s)) as [lr|] eqn:Hl.
    + apply wp_bind. destruct (cut (self s)) as [k|] eqn:Hk.
      * apply wp_ret. destruct (py_index (length bs) k ≫= _) as [b|] eqn:Hb.
        -- apply wp_mutate. cbn [self heap trail]. split_and!; try done.
           ++ by rewrite length_insert.
           ++ intros r Hr Hne. rewrite list_lookup_insert_ne by congruence. by apply Hother.
        -- apply wp_raise. split_and!; try done; [by auto|].
           intros Hi. exfalso.
           destruct (center_invariant_cases _ Hi) as [[Hc _]|(k' & lr' & Hk' & Hr & _)];
             [congruence|].
           assert (k' = k) as -> by congruence. unfold nsite in Hr.
           rewrite py_index_nonneg in Hb by lia. simpl in Hb.
           destruct (lookup_lt_is_Some_2 bs (Z.to_nat k)) as [b Hb']; [lia|].
           by rewrite Hb' in Hb.
      * apply wp_raise. split_and!; try done; [by auto|].
        intros Hi. exfalso.
        destruct (center_invariant_cases _ Hi) as [[_ Hc]|(k' & lr' & Hk' & _)]; congruence.
    + apply wp_ret. split_and!; try done. intros r Hr _. by apply Hother.
Qed.

(** X13.  On a chain whose items are distinct tensor objects and whose
    [Lambda] is none of them, over a tensor library in which [relabel] sets
    the labels it is given and [replace(flow=...)] overrides an earlier
    flow, [relabel(sites,bonds)] followed by the properties [sites] and
    [bonds] gives back the labels without their flow. *)
Theorem relabel_then_sites_bonds s ss bs :
  (∀ t a b c, leg (relabel_news t [a; b; c]) 0 = a
              ∧ leg (relabel_news t [a; b; c]) 1 = b
              ∧ leg (relabel_news t [a; b; c]) 2 = c) →
  (∀ l f g, replace_flow (replace_flow l f) g = replace_flow l g) →
  center_invariant (self s) → closed s → NoDup (ms (self s)) →
  (∀ lr, Lambda (self s) = Some lr → lr ∉ ms (self s)) →
  length ss = length (ms (self s)) → length bs = Datatypes.S (length (ms (self s))) →
  ∃ s', relabel ss bs s = (Ok tt, s')
        ∧ sites s' = (λ l, replace_flow l None) <$> ss
        ∧ ((0 < nsite (self s))%Z → bonds s' = (λ l, replace_flow l None) <$> bs).
Proof.
  intros Hleg Hflow Hi [Hcl Hcl'] Hnd Hlam Hss Hbs.
  set (fin := match mode (self s) with QN => 1%Z | NB => 0%Z end).
  set (fout := match mode (self s) with QN => (-1)%Z | NB => 0%Z end).
  set (h' := relabelled fin fout (heap s) (ms (self s)) ss bs).
  assert (∀ j r, ms (self s) !! j = Some r →
            ∃ S L R, ss !! j = Some S ∧ bs !! j = Some L ∧ bs !! (Datatypes.S j) = Some R
                     ∧ h' !! r = Some (relabel_news (heap s !!! r)
                                         [replace_flow L (Some fin); replace_flow S (Some fin);
                                          replace_flow R (Some fout)])) as Hitem.
  { intros j r Hr. pose proof (lookup_lt_Some _ _ _ Hr) as Hj.
    destruct (lookup_lt_is_Some_2 ss j) as [S HS]; [lia|].
    destruct (lookup_lt_is_Some_2 bs j) as [L HL]; [lia|].
    destruct (lookup_lt_is_Some_2 bs (Datatypes.S j)) as [R HR]; [lia|].
    exists S, L, R. split_and!; try done. by eapply relabelled_item. }
  (* the run *)
  assert (∃ hf, relabel ss bs s = (Ok tt, mkSigma (self s) hf (trail s))
                ∧ ∀ r, r ∈ ms (self s) → hf !! r = h' !! r) as (hf & Hrun & Hhf).
  { destruct (center_invariant_cases _ Hi) as [[Hc Hl]|(k & lr & Hk & Hr & Hl)].
    - exists h'. split; [|done]. apply wp_eq. unfold relabel. wp_steps.
      rewrite decide_True by (split; [done|lia]).
      fold fin fout. destruct (mode (self s)); simpl in fin, fout;
        (apply wp_bind; eapply wp_of_run; [apply relabel_items_run|]; cbv beta iota;
         cbn [self]; rewrite Hl; by apply wp_ret).
    - destruct (lookup_lt_is_Some_2 bs (Z.to_nat k)) as [b Hb]; [unfold nsite in Hr; lia|].
      exists (<[lr := relabel_news (h' !!! lr) [replace_flow b None]]> h'). split.
      + apply wp_eq. unfold relabel. wp_steps.
        rewrite decide_True by (split; [done|lia]).
        fold fin fout. destruct (mode (self s)); simpl in fin, fout;
          (apply wp_bind; eapply wp_of_run; [apply relabel_items_run|]; cbv beta iota;
           cbn [self]; rewrite Hl, Hk; wp_steps;
           rewrite py_index_nonneg by (unfold nsite in Hr; lia); simpl; rewrite Hb;
           by apply wp_mutate).
      + intros r Hr'. rewrite list_lookup_insert_ne; [done|].
        intros Heq. apply (Hlam lr); [done|]. by rewrite Heq. }
  exists (mkSigma (self s) hf (trail s)). split; [done|].
  assert (∀ j r, ms (self s) !! j = Some r →
            ∃ S L R, ss !! j = Some S ∧ bs !! j = Some L ∧ bs !! (Datatypes.S j) = Some R
                     ∧ leg (hf !!! r) 0 = replace_flow L (Some fin)
                     ∧ leg (hf !!! r) 1 = replace_flow S (Some fin)
                     ∧ leg (hf !!! r) 2 = replace_flow R (Some fout)) as Hlegs.
  { intros j r Hr. destruct (Hitem j r Hr) as (S & L & R & HS & HL & HR & Hh).
    exists S, L, R. split_and!; try done;
      rewrite (list_lookup_total_correct hf r _
                 (eq_trans (Hhf r (list_elem_of_lookup_2 _ _ _ Hr)) Hh));
      apply Hleg. }
  split.
  - unfold sites. cbn [self heap]. apply list_eq. intros j.
    rewrite !list_lookup_fmap.
    destruct (ms (self s) !! j) as [r|] eqn:Hr; simpl.
    + destruct (Hlegs j r Hr) as (S & L & R & HS & _ & _ & _ & H1 & _).
      by rewrite HS, H1, Hflow.
    + apply lookup_ge_None in Hr. rewrite lookup_ge_None_2 by lia. done.
  - intros HN. unfold bonds. cbn [self heap]. unfold nsite in HN.
    destruct (ms (self s)) as [|m0 rest] eqn:Hms; [simpl in HN; lia|].
    destruct bs as [|L0 bs']; [done|]. rewrite (fmap_cons _ L0 bs'). f_equal.
    + destruct (Hlegs 0 m0 eq_refl) as (S & L & R & _ & HL & _ & H0 & _).
      simpl in HL. injection HL as <-. by rewrite H0, Hflow.
    + apply list_eq. intros j. rewrite !list_lookup_fmap.
      destruct ((m0 :: rest) !! j) as [r|] eqn:Hr; simpl.
      * destruct (Hlegs j r Hr) as (S & L & R & _ & _ & HR & _ & _ & H2).
        simpl in HR. by rewrite HR, H2, Hflow.
      * apply lookup_ge_None in Hr. simpl in *. rewrite lookup_ge_None_2 by lia. done.
Qed.

(** ** Scalar multiples *)

(** X14.  [self*other] returns a new chain and leaves the chain, every other
    chain object and every tensor object as they were: the new chain shares
    the items of the original except that its [Lambda] (its first item when
    it has no [Lambda]) is a new tensor object, the scalar multiple.  On a
    chain without sites and without [Lambda] it raises IndexError. *)
Theorem mul_scales_copy w r c by_other :
  chains w !! r = Some c →
  __mul__ r by_other w =
  match Lambda c, ms c with
  | Some lr, _ =>
      (Ok (length (chains w)),
       mkWorld (chains w ++ [mkMPS (mode c) (ms c) (Some (length (tensors w))) (cut c)])
               (tensors w ++ [by_other (tensors w !!! lr)]) (moves w))
  | None, m0 :: rest =>
      (Ok (length (chains w)),
       mkWorld (chains w ++ [mkMPS (mode c) (length (tensors w) :: rest) None (cut c)])
               (tensors w ++ [by_other (tensors w !!! m0)]) (moves w))
  | None, [] =>
      (Raise IndexError, mkWorld (chains w ++ [c]) (tensors w) (moves w))
  end.
Proof.
  intros Hr. apply wp_eq. unfold __mul__, copy. wpw_steps.
  rewrite (list_lookup_total_correct _ _ _ Hr).
  rewrite lookup_total_app_r, Nat.sub_diag by done. cbn [lookup_total list_lookup_total].
  assert (∀ c', <[length (chains w) := c']> (chains w ++ [c]) = chains w ++ [c']) as Hins.
  { intros c'. rewrite insert_app_r_alt, Nat.sub_diag by done. done. }
  destruct c as [md items [lr|] ct]; wpw_beta.
  - apply wp_call. wpw_beta.
    rewrite lookup_total_app_r, Nat.sub_diag by done. cbn [lookup_total list_lookup_total].
    wp_steps. wpw_steps. by rewrite Hins.
  - apply wp_call. wpw_beta.
    rewrite lookup_total_app_r, Nat.sub_diag by done. cbn [lookup_total list_lookup_total].
    destruct items as [|m0 rest]; wp_steps.
    + rewrite py_index_empty. wpw_beta. wpw_steps. by rewrite Hins.
    + rewrite py_index_nonneg by (simpl; lia). wp_steps.
      rewrite py_index_nonneg by (simpl; lia). wp_steps.
      wpw_steps. by rewrite Hins.
Qed.

(** ** Concatenation *)

Lemma merge_grows side s :
  wp (_merge_ABL_ side)
     (λ _ s', heap s `prefix_of` heap s'
              ∧ length (ms (self s')) = length (ms (self s))) s.
Proof.
  destruct s as [[md items lam ct] h tr]. unfold _merge_ABL_. wp_steps.
  destruct ct as [k|]; [|by apply wp_ret].
  assert (∀ i (a b : tref → tref → tref),
    wp (m ← getitem i; l ← tensor_of lam; p ← times (a m l) (b m l); setitem i p;;
        set_cut None;; set_Lambda None;; mret (Some m, lam))
       (λ _ s', h `prefix_of` heap s' ∧ length (ms (self s')) = length items)
       (mkSigma (mkMPS md items lam (Some k)) h tr)) as Hgen.
  { intros i a b. wp_steps. destruct (py_index _ _) as [j|] eqn:Hj; wp_beta; [|done].
    wp_steps. destruct lam as [lr|]; wp_beta; [|done].
    wp_steps. rewrite Hj. wp_steps. split; [by apply prefix_app_r|].
    by rewrite length_insert. }
  unfold nsite. cbn [ms].
  destruct (decide _); [apply (Hgen (k - 1)%Z (λ m _, m) (λ _ l, l))|].
  destruct (decide _); [apply (Hgen k (λ _ l, l) (λ m _, m))|].
  destruct side; [apply (Hgen (k - 1)%Z (λ m _, m) (λ _ l, l))
                 |apply (Hgen k (λ _ l, l) (λ m _, m))].
Qed.

Lemma set_ABL_heap m lam s :
  wp (_set_ABL_ m lam)
     (λ _ s', heap s `prefix_of` heap s'
              ∧ length (ms (self s')) = length (ms (self s))) s.
Proof.
  destruct s as [[md items lm ct] h tr]. unfold _set_ABL_.
  destruct m as [mr|], lam as [lr|]; try (by apply wp_ret).
  wp_steps. destruct (is_DTensor _); [|by apply wp_ret].
  wp_steps. destruct (decide _); [|by apply wp_raise].
  apply wp_bind, wp_table_at. cbn [self ms heap].
  destruct (table_lookup _ _ _) as [pos|] eqn:Hpos; wp_beta; [|done].
  wp_steps. destruct (py_index _ _) as [j|]; wp_beta; [|done].
  wp_steps. destruct (label_eqb _ _); wp_steps; [by rewrite length_insert|].
  destruct (label_eqb _ _); wp_steps; by rewrite length_insert.
Qed.

(** What a program keeps of the world [w0] it started from: the tensor
    objects, and the number of items of every chain object. *)
Definition stable (w0 w : World) : Prop :=
  tensors w0 `prefix_of` tensors w
  ∧ length (chains w0) ≤ length (chains w)
  ∧ ∀ r, r < length (chains w0) →
      length (ms (chains w !!! r)) = length (ms (chains w0 !!! r)).

Lemma stable_refl w : stable w w.
Proof. by split_and!. Qed.

Lemma stable_snoc w c : stable w (mkWorld (chains w ++ [c]) (tensors w) (moves w)).
Proof.
  unfold stable. cbn [chains tensors]. split_and!; [done|rewrite length_app; lia|].
  intros r Hr. by rewrite lookup_total_app_l.
Qed.

Lemma call_stable {A} (m : ST Sigma A) w0 w r :
  (∀ s, wp m (λ _ s', heap s `prefix_of` heap s'
                      ∧ length (ms (self s')) = length (ms (self s))) s) →
  stable w0 w →
  wp (call r m)
     (λ _ w', stable w0 w' ∧ length (chains w') = length (chains w)
              ∧ length (ms (chains w' !!! r)) = length (ms (chains w !!! r))
              ∧ ∀ r', r' ≠ r → chains w' !!! r' = chains w !!! r') w.
Proof.
  intros Hm (Ht & Hc & Hlen). apply wp_call.
  eapply wp_mono; [apply Hm|]. intros o s' [Hp Hl]. cbn [self heap trail] in *.
  assert (length (ms (<[r:=self s']> (chains w) !!! r)) = length (ms (chains w !!! r)))
    as Hr.
  { destruct (decide (r < length (chains w))).
    - by rewrite list_lookup_total_insert, decide_True.
    - by rewrite list_insert_ge by lia. }
  split_and!; cbn [chains tensors].
  - split_and!; cbn [chains tensors].
    + by etrans.
    + by rewrite length_insert.
    + intros r' Hr'. destruct (decide (r' = r)) as [->|Hne].
      * rewrite Hr. by apply Hlen.
      * rewrite list_lookup_total_insert_ne by done. by apply Hlen.
  - by rewrite length_insert.
  - done.
  - intros r' Hne. by rewrite list_lookup_total_insert_ne.
Qed.

Lemma wp_extend rs Q s :
  Q (Ok tt) (mkSigma (mkMPS (mode (self s)) (ms (self s) ++ rs) (Lambda (self s))
                            (cut (self s))) (heap s) (trail s)) →
  wp (extend rs) Q s.
Proof. done. Qed.

Definition nsites (w : World) (rs : list oref) : nat :=
  sum_list ((λ r, length (ms (chains w !!! r))) <$> rs).

Lemma nsites_cons w r rs :
  nsites w (r :: rs) = length (ms (chains w !!! r)) + nsites w rs.
Proof. done. Qed.

Lemma concatenate_rest_spec w0 L others : ∀ w n,
  Forall (λ r, r < L) others → L = length (chains w0) →
  stable w0 w → L < length (chains w) →
  length (ms (chains w !!! L)) = n →
  centerless (chains w !!! L) →
  wp (concatenate_rest L others)
     (λ o w', stable w0 w' ∧ L < length (chains w')
              ∧ (o = Ok tt →
                 length (ms (chains w' !!! L)) = n + nsites w0 others
                 ∧ centerless (chains w' !!! L))) w.
Proof.
  induction others as [|mps others IH]; intros w n Hv HL Hst HLw Hn Hcl.
  { apply wp_ret. split_and!; try done. intros _. unfold nsites. simpl. split; [lia|done]. }
  apply Forall_cons in Hv as [Hmps Hv]. simpl.
  assert (∀ e, stable w0 w ∧ L < length (chains w)
               ∧ (Raise e = Ok tt →
                  length (ms (chains w !!! L)) = n + nsites w0 (mps :: others)
                  ∧ centerless (chains w !!! L))) as Hfail by (intros; by split_and!).
  wpw_steps. destruct (py_index _ _) as [j|]; wpw_steps; [|apply Hfail].
  destruct (ms (chains w !!! mps)) as [|m0 rest] eqn:Hms; wpw_steps; [apply Hfail|].
  destruct (label_eqb _ _); [|apply wp_raise, Hfail].
  (* the merge of [mps] *)
  apply wp_bind. eapply wp_mono; [apply (call_stable _ w0 w mps (merge_grows SideR) Hst)|].
  intros [[m lam]|e] w1 (Hst1 & Hl1 & Hlen1 & Ho1); [|split_and!; try done; lia].
  wpw_steps.
  (* the extension of the result *)
  apply wp_call, wp_extend. wpw_beta.
  set (w2 := mkWorld _ _ _).
  assert (L ≠ mps) as Hne by lia.
  assert (stable w0 w2 ∧ length (chains w2) = length (chains w1)
          ∧ chains w2 !!! mps = chains w1 !!! mps
          ∧ chains w2 !!! L =
            mkMPS (mode (chains w1 !!! L)) (ms (chains w1 !!! L) ++ ms (chains w1 !!! mps))
                  (Lambda (chains w1 !!! L)) (cut (chains w1 !!! L))) as (Hst2 & Hl2 & Hm2 & HL2).
  { unfold w2. cbn [chains tensors self heap trail]. split_and!.
    - destruct Hst1 as (Ht1 & Hc1 & Hlen1'). split_and!; cbn [chains tensors]; try done.
      + by rewrite length_insert.
      + intros r Hr. rewrite list_lookup_total_insert_ne by lia. by apply Hlen1'.
    - by rewrite length_insert.
    - by rewrite list_lookup_total_insert_ne.
    - rewrite list_lookup_total_insert, decide_True by (split; [done|lia]). done. }
  clearbody w2.
  (* the restoring call *)
  apply wp_bind. eapply wp_mono; [apply (call_stable _ w0 w2 mps (set_ABL_heap m lam) Hst2)|].
  intros [[]|e] w3 (Hst3 & Hl3 & Hlen3 & Ho3); [|split_and!; try done; lia].
  eapply wp_mono.
  { apply (IH w3 (n + length (ms (chains w0 !!! mps)))); try done.
    - lia.
    - rewrite (Ho3 L) by done. rewrite HL2. cbn [ms]. rewrite length_app.
      rewrite (Ho1 L) by done. rewrite Hn, Hlen1. f_equal.
      destruct Hst as (_ & _ & Hlen0). apply Hlen0. lia.
    - rewrite (Ho3 L) by done. rewrite HL2. unfold centerless. cbn [cut Lambda].
      by rewrite (Ho1 L) by done. }
  intros o w4 (Hst4 & Hl4 & Hres). split_and!; try done.
  intros Ho. destruct (Hres Ho) as [Hlen4 Hc4]. split; [|done].
  rewrite Hlen4, nsites_cons. lia.
Qed.

Lemma reset_none_centerless h0 n s :
  framed h0 n s →
  wp (reset None)
     (λ o s', h0 `prefix_of` heap s' ∧ length (ms (self s')) = n
              ∧ (o = Ok tt → centerless (self s'))) s.
Proof.
  intros Hs. unfold reset. apply wp_bind.
  eapply wp_mono; [apply wp_and; [by apply merge_frames|apply (merge_outcome n), Hs]|].
  intros [a|e] s' [[[Hi Hlen] Hp] [_ Hc]]; simpl in Hc.
  - by apply wp_ret.
  - by split_and!.
Qed.

Lemma canonicalize_frames c nmax tol : frames (canonicalize c nmax tol).
Proof.
  unfold canonicalize. apply frames_bind; [intros h0 n s Hs; by apply wp_get_self|].
  intros cur. destruct (decide _);
    repeat first [ apply reset_frames | apply ilshift_frames | apply irshift_frames
                 | apply frames_bind; [|intros _] ].
Qed.

Lemma call_new_stable {A} (m : ST Sigma A) w0 w r n :
  (∀ s, framed (tensors w0) n s → wp m (λ _ s', framed (tensors w0) n s') s) →
  stable w0 w → length (chains w0) ≤ r → r < length (chains w) →
  center_invariant (chains w !!! r) → length (ms (chains w !!! r)) = n →
  wp (call r m)
     (λ _ w', stable w0 w' ∧ length (chains w') = length (chains w)
              ∧ length (ms (chains w' !!! r)) = n) w.
Proof.
  intros Hm (Ht & Hc & Hlen) Hr Hrw Hi Hn. apply wp_call.
  eapply wp_mono; [apply Hm|].
  - split; [split|]; done.
  - intros o s' [[Hi' Hn'] Hp]. cbn [self heap trail] in *. split_and!; cbn [chains tensors].
    + split_and!; cbn [chains tensors]; [done|by rewrite length_insert|].
      intros r' Hr'. rewrite list_lookup_total_insert_ne by lia. by apply Hlen.
    + by rewrite length_insert.
    + by rewrite list_lookup_total_insert, decide_True.
Qed.

(** X15.  [MPS.concatenate(mpses,mode,cut)] of no chain returns a new chain
    without items when a mode is given and raises AssertionError with the
    default [mode=None]; of chains it modifies no tensor object and leaves
    every chain with as many items as it had, and the chain it returns is a
    new object whose number of items is the sum of theirs. *)
Theorem concatenate_sums_sites w mpses md k :
  Forall (λ r, r < length (chains w)) mpses →
  (∀ first, head mpses = Some first → center_invariant (chains w !!! first)) →
  concatenate [] None k w = (Raise AssertionError, w)
  ∧ (∀ md', concatenate [] (Some md') k w =
            (Ok (length (chains w)),
             mkWorld (chains w ++ [mkMPS md' [] None None]) (tensors w) (moves w)))
  ∧ ∀ o w', concatenate mpses md k w = (o, w') →
      stable w w'
      ∧ ∀ r', o = Ok r' →
          r' = length (chains w) ∧ length (chains w) < length (chains w')
          ∧ length (ms (chains w' !!! r')) = nsites w mpses.
Proof.
  intros Hv Hfirst. split; [done|]. split; [done|].
  intros o w' Hrun.
  cut (wp (concatenate mpses md k)
         (λ o w', stable w w'
                  ∧ ∀ r', o = Ok r' →
                      r' = length (chains w) ∧ length (chains w) < length (chains w')
                      ∧ length (ms (chains w' !!! r')) = nsites w mpses) w).
  { unfold wp. by rewrite Hrun. }
  clear o w' Hrun. destruct mpses as [|first others].
  { unfold concatenate. destruct md as [md'|]; [|apply wp_raise; split; [apply stable_refl|done]].
    unfold wp. cbn. split; [apply stable_snoc|].
    intros r' [= <-]. rewrite length_app. simpl. split_and!; [done|lia|].
    by rewrite lookup_total_app_r, Nat.sub_diag. }
  apply Forall_cons in Hv as [Hf Hv]. specialize (Hfirst first eq_refl).
  set (L := length (chains w)).
  unfold concatenate. wpw_steps.
  destruct (_ || _); [|apply wp_raise; split; [apply stable_refl|done]].
  unfold copy. wpw_steps. fold L.
  set (w1 := mkWorld (chains w ++ [chains w !!! first]) (tensors w) (moves w)).
  assert (stable w w1) as Hst1 by apply stable_snoc.
  assert (length (chains w1) = S L) as Hl1.
  { unfold w1. cbn [chains]. rewrite length_app. simpl. lia. }
  assert (chains w1 !!! L = chains w !!! first) as HL1.
  { unfold w1. cbn [chains]. by rewrite lookup_total_app_r, Nat.sub_diag. }
  (* the reset of the copy *)
  apply wp_call. rewrite HL1.
  eapply wp_mono.
  { apply (reset_none_centerless (tensors w) (length (ms (chains w !!! first)))).
    split; [split|]; done. }
  intros o2 s2 (Hp2 & Hlen2 & Hc2). cbn [self heap trail] in *.
  set (w2 := mkWorld _ _ _).
  assert (stable w w2 ∧ length (chains w2) = S L ∧ chains w2 !!! L = self s2)
    as (Hst2 & Hl2 & HL2).
  { unfold w2. cbn [chains tensors]. split_and!.
    - destruct Hst1 as (Ht1 & Hc1 & Hlen1). split_and!; cbn [chains tensors].
      + done.
      + rewrite length_insert. lia.
      + intros r Hr. rewrite list_lookup_total_insert_ne by (fold L in Hr; lia).
        by apply Hlen1.
    - by rewrite length_insert.
    - rewrite list_lookup_total_insert, decide_True; [done|]. split; [done|lia]. }
  clearbody w2. destruct o2 as [[]|e]; [|done]. specialize (Hc2 eq_refl).
  (* the other chains *)
  apply wp_bind. eapply wp_mono.
  { apply (concatenate_rest_spec w L others w2 (length (ms (chains w !!! first))));
      try done; [lia|by rewrite HL2|by rewrite HL2]. }
  intros [[]|e] w3 (Hst3 & Hl3 & Hres); [|done].
  destruct (Hres eq_refl) as [Hlen3 Hc3].
  assert (length (ms (chains w3 !!! L)) = nsites w (first :: others)) as Hsum
    by by rewrite nsites_cons.
  destruct k as [k|]; wpw_steps.
  - eapply wp_mono.
    { apply (call_new_stable _ w w3 L (nsites w (first :: others))); try done.
      - intros s. apply canonicalize_frames.
      - by apply centerless_invariant. }
    intros [[]|e] w4 (Hst4 & Hl4 & Hlen4); [|done].
    apply wp_ret. split; [done|]. intros r' [= <-]. split_and!; [done|lia|done].
  - split; [done|]. intros r' [= <-]. done.
Qed.

(** ** Addition and the dagger *)

Lemma merge_mode side s :
  wp (_merge_ABL_ side) (λ _ s', mode (self s') = mode (self s)) s.
Proof.
  destruct s as [[md items lam ct] h tr]. unfold _merge_ABL_. wp_steps.
  destruct ct as [k|]; [|by apply wp_ret].
  assert (∀ i (a b : tref → tref → tref),
    wp (m ← getitem i; l ← tensor_of lam; p ← times (a m l) (b m l); setitem i p;;
        set_cut None;; set_Lambda None;; mret (Some m, lam))
       (λ _ s', mode (self s') = md)
       (mkSigma (mkMPS md items lam (Some k)) h tr)) as Hgen.
  { intros i a b. wp_steps. destruct (py_index _ _) as [j|] eqn:Hj; wp_beta; [|done].
    wp_steps. destruct lam as [lr|]; wp_beta; [|done].
    wp_steps. rewrite Hj. wp_steps. done. }
  unfold nsite. cbn [ms].
  destruct (decide _); [apply (Hgen (k - 1)%Z (λ m _, m) (λ _ l, l))|].
  destruct (decide _); [apply (Hgen k (λ _ l, l) (λ m _, m))|].
  destruct side; [apply (Hgen (k - 1)%Z (λ m _, m) (λ _ l, l))
                 |apply (Hgen k (λ _ l, l) (λ m _, m))].
Qed.

Lemma call_merge_stable w0 w r :
  stable w0 w →
  wp (call r (_merge_ABL_ SideR))
     (λ _ w', stable w0 w' ∧ length (chains w') = length (chains w)
              ∧ length (ms (chains w' !!! r)) = length (ms (chains w !!! r))
              ∧ mode (chains w' !!! r) = mode (chains w !!! r)
              ∧ ∀ r', r' ≠ r → chains w' !!! r' = chains w !!! r') w.
Proof.
  intros (Ht & Hc & Hlen). apply wp_call.
  eapply wp_mono; [apply wp_and; [apply merge_grows|apply merge_mode]|].
  intros o s' [[Hp Hl] Hm]. cbn [self heap trail] in *.
  assert (<[r:=self s']> (chains w) !!! r = self s' ∨
          <[r:=self s']> (chains w) !!! r = chains w !!! r ∧ length (chains w) ≤ r) as Hr.
  { destruct (decide (r < length (chains w))).
    - left. by rewrite list_lookup_total_insert, decide_True.
    - right. rewrite list_insert_ge by lia. split; [done|lia]. }
  split_and!; cbn [chains tensors].
  - split_and!; cbn [chains tensors].
    + by etrans.
    + by rewrite length_insert.
    + intros r' Hr'. destruct (decide (r' = r)) as [->|Hne].
      * destruct Hr as [->|[-> _]]; [rewrite Hl|]; by apply Hlen.
      * rewrite list_lookup_total_insert_ne by done. by apply Hlen.
  - by rewrite length_insert.
  - by destruct Hr as [->|[-> _]].
  - by destruct Hr as [->|[-> _]].
  - intros r' Hne. by rewrite list_lookup_total_insert_ne.
Qed.

Lemma directsums_spec rs1 : ∀ i n rs2 w,
  wp (directsums i n rs1 rs2)
     (λ o w', chains w' = chains w ∧ tensors w `prefix_of` tensors w'
              ∧ ∀ rs, o = Ok rs →
                  length rs = length rs1 `min` length rs2
                  ∧ Forall (λ t, length (tensors w) ≤ t) rs) w.
Proof.
  induction rs1 as [|r1 rs1 IH]; intros i n rs2 w.
  { apply wp_ret. split_and!; try done. by intros rs [= <-]. }
  destruct rs2 as [|r2 rs2].
  { apply wp_ret. split_and!; try done. by intros rs [= <-]. }
  simpl. wpw_steps. destruct (same_labels _ _); [|by apply wp_raise].
  wpw_steps. eapply wp_mono; [apply IH|].
  intros [rs|e] w' (Hc & Hp & Hrs); cbn [chains tensors] in *.
  - apply wp_ret. split_and!; [done|by etrans; [apply prefix_app_r|]|].
    intros rs' [= <-]. destruct (Hrs rs eq_refl) as [Hlen Hf]. split; [simpl; lia|].
    apply Forall_cons. split; [done|].
    eapply Forall_impl; [done|]. intros t. simpl. rewrite length_app. simpl. lia.
  - split_and!; [done|by etrans; [apply prefix_app_r|]|done].
Qed.

(** X16.  Addition of two chains of different mode or different length
    raises AssertionError with nothing changed.  Otherwise, whether it
    returns or raises, it modifies no tensor object and leaves every chain
    with as many items as it had; the chain it returns is a new object
    without cut and [Lambda], in the mode of the left operand, with as many
    items as the operands, each a new tensor object. *)
Theorem add_returns_center_free w r r2 c1 c2 :
  chains w !! r = Some c1 → chains w !! r2 = Some c2 →
  ((mode c1 ≠ mode c2 ∨ nsite c1 ≠ nsite c2) →
   __add__ r (AddMPS r2) w = (Raise AssertionError, w))
  ∧ ∀ o w', __add__ r (AddMPS r2) w = (o, w') →
      stable w w'
      ∧ ∀ r', o = Ok r' →
          r' = length (chains w)
          ∧ ∃ rs, chains w' !! r' = Some (mkMPS (mode c1) rs None None)
                  ∧ length rs = length (ms c1)
                  ∧ Forall (λ t, length (tensors w) ≤ t) rs.
Proof.
  intros Hr Hr2.
  pose proof (list_lookup_total_correct _ _ _ Hr) as Hc1.
  pose proof (list_lookup_total_correct _ _ _ Hr2) as Hc2.
  split.
  { intros Hne. apply wp_eq. unfold __add__. wpw_steps. rewrite Hc1, Hc2.
    rewrite decide_False by tauto. done. }
  intros o w' Hrun.
  cut (wp (__add__ r (AddMPS r2))
         (λ o w', stable w w'
                  ∧ ∀ r', o = Ok r' →
                      r' = length (chains w)
                      ∧ ∃ rs, chains w' !! r' = Some (mkMPS (mode c1) rs None None)
                              ∧ length rs = length (ms c1)
                              ∧ Forall (λ t, length (tensors w) ≤ t) rs) w).
  { unfold wp. by rewrite Hrun. }
  clear o w' Hrun.
  (* the constructor at the end *)
  assert (∀ w4 rs, stable w w4 → length (chains w4) = length (chains w) →
            length rs = length (ms c1) → Forall (λ t, length (tensors w) ≤ t) rs →
            wp (__init__ (mode c1) rs None None)
               (λ o w', stable w w'
                  ∧ ∀ r', o = Ok r' →
                      r' = length (chains w)
                      ∧ ∃ rs, chains w' !! r' = Some (mkMPS (mode c1) rs None None)
                              ∧ length rs = length (ms c1)
                              ∧ Forall (λ t, length (tensors w) ≤ t) rs) w4) as Hinit.
  { intros w4 rs (Ht & Hc & Hlen) Hl4 Hlrs Hf. unfold wp, __init__.
    destruct (forallb _ _); [|by split_and!].
    cbn. split.
    - split_and!; cbn [chains tensors]; [done|rewrite length_app; lia|].
      intros r' Hr'. rewrite lookup_total_app_l by lia. by apply Hlen.
    - intros r' [= <-]. split; [done|]. exists rs. split_and!; try done.
      by rewrite lookup_app_r, Hl4, Nat.sub_diag by lia. }
  unfold __add__. wpw_steps. rewrite Hc1, Hc2.
  destruct (decide _) as [[Hmode HN]|]; [|apply wp_raise; split; [apply stable_refl|done]].
  assert (length (ms c2) = length (ms c1)) as Hlen12 by (unfold nsite in HN; lia).
  destruct (decide (r = r2)) as [<-|Hne].
  - apply wp_bind. eapply wp_mono; [apply (call_merge_stable w w r), stable_refl|].
    intros [[u lam]|e] w1 (Hst1 & Hl1 & Hlen1 & Hm1 & _); [|done].
    wpw_steps. eapply wp_mono; [apply directsums_spec|].
    intros [rs|e] w2 (Hch2 & Hp2 & Hrs); [|split; [|done]].
    2:{ destruct Hst1 as (Ht & Hc & Hl). split_and!; [by etrans|by rewrite Hch2|].
        intros r' Hr'. rewrite Hch2. by apply Hl. }
    destruct (Hrs rs eq_refl) as [Hlrs Hf].
    assert (stable w w2) as Hst2.
    { destruct Hst1 as (Ht & Hc & Hl). split_and!; [by etrans|by rewrite Hch2|].
      intros r' Hr'. rewrite Hch2. by apply Hl. }
    apply wp_bind. eapply wp_mono; [apply (call_stable _ w w2 r (set_ABL_heap u lam) Hst2)|].
    intros [[]|e] w3 (Hst3 & Hl3 & _); [|done].
    rewrite Hm1, Hc1. apply Hinit; [done|rewrite Hl3, Hch2; lia| |].
    + rewrite Hlrs, Hlen1, Hc1. lia.
    + eapply Forall_impl; [done|]. intros t Ht. simpl in *.
      destruct Hst1 as (Hp1 & _). apply prefix_length in Hp1. lia.
  - apply wp_bind. eapply wp_mono; [apply (call_merge_stable w w r), stable_refl|].
    intros [[u1 lam1]|e] w1 (Hst1 & Hl1 & Hlen1 & Hm1 & Ho1); [|done].
    apply wp_bind. eapply wp_mono; [apply (call_merge_stable w w1 r2), Hst1|].
    intros [[u2 lam2]|e] w1' (Hst1' & Hl1' & Hlen1' & Hm1' & Ho1'); [|done].
    wpw_steps. eapply wp_mono; [apply directsums_spec|].
    assert (∀ w2, chains w2 = chains w1' → tensors w1' `prefix_of` tensors w2 →
              stable w w2) as Hst2.
    { intros w2 Hch2 Hp2. destruct Hst1' as (Ht & Hc & Hl).
      split_and!; [by etrans|by rewrite Hch2|].
      intros r' Hr'. rewrite Hch2. by apply Hl. }
    intros [rs|e] w2 (Hch2 & Hp2 & Hrs); [|split; [by apply Hst2|done]].
    destruct (Hrs rs eq_refl) as [Hlrs Hf].
    apply wp_bind.
    eapply wp_mono; [apply (call_stable _ w w2 r (set_ABL_heap u1 lam1)), Hst2; done|].
    intros [[]|e] w3 (Hst3 & Hl3 & _); [|done].
    apply wp_bind.
    eapply wp_mono; [apply (call_stable _ w w3 r2 (set_ABL_heap u2 lam2) Hst3)|].
    intros [[]|e] w4 (Hst4 & Hl4 & _); [|done].
    rewrite (Ho1' r) by done. rewrite Hm1, Hc1.
    apply Hinit; [done|rewrite Hl4, Hl3, Hch2; lia| |].
    + rewrite Hlrs, (Ho1' r) by done. rewrite Hlen1, Hc1, Hlen1'.
      rewrite (Ho1 r2) by done. rewrite Hc2. lia.
    + eapply Forall_impl; [done|]. intros t Ht. simpl in *.
      destruct Hst1' as (Hp1 & _). apply prefix_length in Hp1. lia.
Qed.

(** X17.  On a chain that satisfies the center invariant and whose tensors
    have three-legged daggers (and a DTensor as the dagger of [Lambda]), the
    property [dagger] returns a new chain of the same mode, cut and number
    of sites whose items and [Lambda] are new tensor objects, the daggers in
    order, and leaves every existing chain and tensor object as it was. *)
Theorem dagger_returns_new_chain (w : @World TS) r c :
  chains w !! r = Some c → center_invariant c →
  Forall (λ m, ndim (dagger (tensors w !!! m)) = 3%Z) (ms c) →
  (∀ lr, Lambda c = Some lr →
     lr < length (tensors w) ∧ is_DTensor (dagger (tensors w !!! lr)) = true) →
  let ds := (λ m, dagger (tensors w !!! m)) <$> ms c in
  let h := length (tensors w) in
  dagger_of r w =
  (Ok (length (chains w)),
   mkWorld (chains w
            ++ [mkMPS (mode c) (seq h (length (ms c)))
                      (match Lambda c with Some _ => Some (h + length (ms c)) | None => None end)
                      (cut c)])
           (tensors w ++ ds
            ++ match Lambda c with Some lr => [dagger (tensors w !!! lr)] | None => [] end)
           (moves w)).
Proof.
  intros Hr Hi Hds Hlam ds h.
  assert (Forall (λ v, ndim v = 3%Z) ds) as Hds'.
  { unfold ds. apply Forall_fmap. eapply Forall_impl; [exact Hds|]. done. }
  assert (length ds = length (ms c)) as Hlds by (unfold ds; by rewrite length_fmap).
  assert (∀ e, forallb (λ r0, bool_decide (ndim ((tensors w ++ ds ++ e) !!! r0) = 3%Z))
                 (seq h (length (ms c))) = true) as Hrank.
  { intros e. rewrite <- Hlds. by apply rank3_new. }
  apply wp_eq. unfold dagger_of. wpw_steps.
  rewrite (list_lookup_total_correct _ _ _ Hr). fold ds. rewrite Hlds. fold h.
  destruct (center_invariant_cases _ Hi) as [[Hc Hl]|(k & lr & Hk & Hrange & Hl)].
  - rewrite Hl, Hc. wpw_steps. unfold wp, __init__. cbn [tensors chains moves].
    pose proof (Hrank []) as H0. rewrite app_nil_r in H0. rewrite H0.
    by rewrite app_nil_r.
  - rewrite Hl, Hk. destruct (Hlam lr Hl) as [Hlt Hd]. wpw_steps.
    rewrite lookup_total_app_l by done.
    unfold wp, __init__. cbn [tensors chains moves].
    rewrite decide_True by (rewrite length_seq; unfold nsite in Hrange; lia).
    rewrite <- app_assoc, Hrank.
    rewrite length_app, Hlds. fold h.
    rewrite (app_assoc (tensors w)), lookup_total_app_r by (rewrite length_app; lia).
    rewrite length_app, Hlds. fold h. rewrite Nat.sub_diag. simpl. rewrite Hd. simpl.
    by rewrite <- app_assoc.
Qed.

End Facts.

(** * Properties of the index-sequence tables *)

(** ** Sorting by a key *)

Section Before.
Context {A : Type}.

(** [a] comes before [b] in the list. *)
Definition before (l : list A) (a b : A) : Prop :=
  ∃ i j, l !! i = Some a ∧ l !! j = Some b ∧ i < j.

Lemma before_cons x l a b : before (x :: l) a b ↔ (a = x ∧ b ∈ l) ∨ before l a b.
Proof.
  split.
  - intros (i & j & Hi & Hj & Hlt). destruct j as [|j]; [lia|]. simpl in Hj.
    destruct i as [|i]; simpl in Hi.
    + left. split; [congruence|]. by eapply list_elem_of_lookup_2.
    + right. exists i, j. split_and!; [done|done|lia].
  - intros [[-> [j Hj]%list_elem_of_lookup_1]|(i & j & Hi & Hj & Hlt)].
    + exists 0, (S j). split_and!; [done|done|lia].
    + exists (S i), (S j). split_and!; [done|done|lia].
Qed.

Lemma before_nil a b : ¬ before [] a b.
Proof. by intros (i & j & Hi & _). Qed.

Lemma before_app l1 l2 a b :
  before (l1 ++ l2) a b ↔ before l1 a b ∨ (a ∈ l1 ∧ b ∈ l2) ∨ before l2 a b.
Proof.
  induction l1 as [|x l1 IH]; simpl.
  - pose proof (before_nil a b). rewrite elem_of_nil. tauto.
  - rewrite !before_cons, IH, elem_of_app, elem_of_cons. tauto.
Qed.

Lemma before_elem l a b : before l a b → a ∈ l ∧ b ∈ l.
Proof.
  intros (i & j & Hi & Hj & _). split; by eapply list_elem_of_lookup_2.
Qed.

Lemma before_lookup l a b i j :
  NoDup l → l !! i = Some a → l !! j = Some b → before l a b ↔ i < j.
Proof.
  intros Hnd Hi Hj. split.
  - intros (i' & j' & Hi' & Hj' & Hlt).
    by rewrite (NoDup_lookup _ _ _ _ Hnd Hi Hi'), (NoDup_lookup _ _ _ _ Hnd Hj Hj').
  - intros Hlt. by exists i, j.
Qed.

End Before.

Section SortedFacts.
Context {A T : Type} (lt : T → T → Prop) `{!∀ x y, Decision (lt x y)}.
Context (key : A → T).

(** [x] is not behind [y] in the order of the keys. *)
Definition key_le (x y : A) : Prop := ¬ lt (key y) (key x).

(** The keys are weakly ordered by [<]: the order is strict, and an object
    between two that are in order is in order with one of them. *)
Definition weak_order : Prop :=
  StrictOrder lt ∧ ∀ a b c, lt a c → lt a b ∨ lt b c.

Lemma insert_by_Permutation x l : DegreeOfFreedom.insert_by lt key x l ≡ₚ x :: l.
Proof.
  induction l as [|y l IH]; simpl; [done|].
  destruct (decide _); [done|]. rewrite IH. apply Permutation_swap.
Qed.

Lemma sorted_snoc l x :
  DegreeOfFreedom.sorted lt key (l ++ [x]) =
  DegreeOfFreedom.insert_by lt key x (DegreeOfFreedom.sorted lt key l).
Proof. unfold DegreeOfFreedom.sorted. by rewrite foldl_app. Qed.

Lemma sorted_Permutation l : DegreeOfFreedom.sorted lt key l ≡ₚ l.
Proof.
  induction l as [|x l IH] using rev_ind; [done|].
  rewrite sorted_snoc, insert_by_Permutation, IH. apply Permutation_cons_append.
Qed.

Lemma insert_by_place x l :
  weak_order → StronglySorted key_le l →
  ∃ l1 l2, l = l1 ++ l2
           ∧ DegreeOfFreedom.insert_by lt key x l = l1 ++ x :: l2
           ∧ Forall (λ a, ¬ lt (key x) (key a)) l1
           ∧ Forall (λ b, lt (key x) (key b)) l2
           ∧ StronglySorted key_le (l1 ++ x :: l2).
Proof.
  intros [Hstrict Hneg]. induction 1 as [|y l Hl IH Hy]; simpl.
  - exists [], []. split_and!; try done. repeat constructor.
  - destruct (decide (lt (key x) (key y))) as [Hlt|Hnlt].
    + assert (Forall (λ b, lt (key x) (key b)) (y :: l)) as Hall.
      { constructor; [done|]. eapply Forall_impl; [exact Hy|].
        intros b Hb. by destruct (Hneg _ (key b) _ Hlt). }
      exists [], (y :: l). split_and!; try done. simpl.
      constructor; [by constructor|].
      eapply Forall_impl; [exact Hall|]. intros b Hb Hbx.
      by apply (irreflexivity lt (key x)); trans (key b).
    + destruct IH as (l1 & l2 & -> & Hins & H1 & H2 & Hs).
      exists (y :: l1), l2. split_and!; try done.
      * simpl. by rewrite Hins.
      * by constructor.
      * simpl. constructor; [done|].
        apply Forall_app in Hy as [Hy1 Hy2]. apply Forall_app.
        split; [done|]. by constructor.
Qed.

Lemma sorted_before `{!EqDecision A} l :
  weak_order → NoDup l →
  StronglySorted key_le (DegreeOfFreedom.sorted lt key l)
  ∧ ∀ a b, before (DegreeOfFreedom.sorted lt key l) a b ↔
           a ∈ l ∧ b ∈ l
           ∧ (lt (key a) (key b) ∨ (¬ lt (key b) (key a) ∧ before l a b)).
Proof.
  intros Hwo. induction l as [|x l IH] using rev_ind; intros Hnd.
  { split; [constructor|]. intros a b. pose proof (before_nil a b).
    unfold DegreeOfFreedom.sorted. simpl. rewrite elem_of_nil. tauto. }
  apply NoDup_app in Hnd as (Hnd & Hx & _).
  assert (x ∉ l) as Hxl. { intros Hin. apply (Hx x Hin). by left. }
  destruct (IH Hnd) as [Hs Hb]. rewrite sorted_snoc.
  destruct (insert_by_place x _ Hwo Hs) as (l1 & l2 & Hl & -> & H1 & H2 & Hs').
  split; [done|]. intros a b.
  assert (∀ c, c ∈ l ↔ c ∈ l1 ∨ c ∈ l2) as Hmem.
  { intros c. by rewrite <- (sorted_Permutation l), Hl, elem_of_app. }
  assert (before (l1 ++ x :: l2) a b ↔
          before l1 a b ∨ (a ∈ l1 ∧ (b = x ∨ b ∈ l2))
          ∨ (a = x ∧ b ∈ l2) ∨ before l2 a b) as ->.
  { by rewrite before_app, before_cons, elem_of_cons. }
  assert (before (l ++ [x]) a b ↔ before l a b ∨ (a ∈ l ∧ b = x)) as ->.
  { rewrite before_app, before_cons, list_elem_of_singleton, elem_of_nil.
    pose proof (before_nil a b). tauto. }
  rewrite !elem_of_app, !list_elem_of_singleton.
  specialize (Hb a b). rewrite Hl, before_app in Hb.
  rewrite Forall_forall in H1. rewrite Forall_forall in H2.
  destruct Hwo as [Hstrict Hneg].
  assert (∀ u v, lt u v → ¬ lt v u) as Hasym.
  { intros u v Huv Hvu. by apply (irreflexivity lt u); trans v. }
  pose proof (Hmem a) as Hma. pose proof (Hmem b) as Hmb. pose proof (Hmem x) as Hmx.
  pose proof (H1 a) as H1a. pose proof (H1 b) as H1b.
  pose proof (H2 a) as H2a. pose proof (H2 b) as H2b.
  pose proof (before_elem l1 a b) as He1. pose proof (before_elem l2 a b) as He2.
  pose proof (before_elem l a b) as He.
  pose proof (Hasym (key a) (key b)) as Hab.
  assert (¬ lt (key x) (key x)) as Hirr by apply (irreflexivity lt).
  clear Hmem H1 H2 IH Hs Hs' Hl Hneg Hasym.
  assert ((x ∉ l1) ∧ (x ∉ l2)) as [N1 N2] by tauto. clear Hmx.
  destruct (decide (a = x)) as [->|Ha], (decide (b = x)) as [->|Hbx].
  - clear Hb Hma Hmb H1a H1b H2a H2b Hab. tauto.
  - clear Hb Hma H1a H2a Hab. tauto.
  - clear Hb Hmb H1b H2b. tauto.
  - assert (before l1 a b ∨ a ∈ l1 ∧ (b = x ∨ b ∈ l2) ∨ a = x ∧ b ∈ l2 ∨ before l2 a b
            ↔ before l1 a b ∨ a ∈ l1 ∧ b ∈ l2 ∨ before l2 a b) as ->
      by (clear -Ha Hbx; tauto).
    rewrite Hb. clear -Ha Hbx. tauto.
Qed.

End SortedFacts.

(** ** Numbering a list *)

(** No two keys of the table have the same value. *)
Definition injective {K V} `{Countable K} (t : gmap K V) : Prop :=
  ∀ k1 k2 v, t !! k1 = Some v → t !! k2 = Some v → k1 = k2.

Section TableFacts.
Context `{DO : DictOrder} {K : Type} `{Countable K}.

Lemma assign_lookup_notin i l (t : gmap K nat) v :
  v ∉ l → DegreeOfFreedom.assign i l t !! v = t !! v.
Proof.
  revert i t. induction l as [|x l IH]; intros i t Hv; [done|].
  apply not_elem_of_cons in Hv as [Hne Hv]. simpl.
  rewrite IH by done. by rewrite lookup_insert_ne.
Qed.

Lemma assign_lookup_last i l (t : gmap K nat) j v :
  l !! j = Some v → (∀ j', j < j' → l !! j' ≠ Some v) →
  DegreeOfFreedom.assign i l t !! v = Some (i + j).
Proof.
  revert i t j. induction l as [|x l IH]; intros i t j Hj Hlast; [done|].
  simpl. destruct j as [|j]; simpl in Hj.
  - injection Hj as ->. rewrite assign_lookup_notin.
    + rewrite lookup_insert_eq. f_equal. lia.
    + intros [j' Hj']%list_elem_of_lookup_1. by apply (Hlast (S j')); [lia|].
  - rewrite (IH (S i) _ j); [f_equal; lia|done|].
    intros j' Hlt. apply (Hlast (S j')). lia.
Qed.

Lemma assign_dom i l (t : gmap K nat) v :
  is_Some (DegreeOfFreedom.assign i l t !! v) ↔ v ∈ l ∨ is_Some (t !! v).
Proof.
  revert i t. induction l as [|x l IH]; intros i t; simpl.
  - rewrite elem_of_nil. tauto.
  - rewrite IH, elem_of_cons. destruct (decide (v = x)) as [->|Hne].
    + rewrite lookup_insert_eq. split; [auto|]. intros _. right. by eexists.
    + rewrite lookup_insert_ne by done. tauto.
Qed.

Lemma assign_position (l : list K) v j :
  NoDup l → DegreeOfFreedom.assign 0 l ∅ !! v = Some j ↔ l !! j = Some v.
Proof.
  intros Hnd. split.
  - intros Hv. assert (v ∈ l) as [j' Hj']%list_elem_of_lookup_1.
    { destruct (proj1 (assign_dom 0 l ∅ v)) as [|[? Hemp]]; [by eexists|done|].
      by rewrite lookup_empty in Hemp. }
    rewrite (assign_lookup_last 0 l ∅ j' v) in Hv; [by simplify_eq|done|].
    intros j'' Hlt Hj''. pose proof (NoDup_lookup _ _ _ _ Hnd Hj' Hj''). lia.
  - intros Hj. rewrite (assign_lookup_last 0 l ∅ j v); [done|done|].
    intros j' Hlt Hj'. pose proof (NoDup_lookup _ _ _ _ Hnd Hj Hj'). lia.
Qed.

Lemma assign_union i l (t : gmap K nat) :
  DegreeOfFreedom.assign i l t = DegreeOfFreedom.assign i l ∅ ∪ t.
Proof.
  revert i t. induction l as [|x l IH]; intros i t; simpl.
  - by rewrite (left_id_L ∅ (∪)).
  - rewrite (IH _ (<[x:=i]> t)), (IH _ (<[x:=i]> ∅)).
    rewrite <- (assoc_L (∪)). f_equal.
    by rewrite <- insert_union_l, (left_id_L ∅ (∪)).
Qed.

Lemma assign_app i l1 l2 (t : gmap K nat) :
  DegreeOfFreedom.assign i (l1 ++ l2) t =
  DegreeOfFreedom.assign (i + length l1) l2 (DegreeOfFreedom.assign i l1 t).
Proof.
  revert i t. induction l1 as [|x l1 IH]; intros i t; simpl.
  - by rewrite Nat.add_0_r.
  - rewrite IH. f_equal. lia.
Qed.

Lemma assign_shift i n (l : list K) :
  (λ v, v + n) <$> DegreeOfFreedom.assign i l (∅ : gmap K nat) =
  DegreeOfFreedom.assign (i + n) l ∅.
Proof.
  revert i. induction l as [|x l IH]; intros i; simpl; [by rewrite fmap_empty|].
  rewrite (assign_union _ l (<[x:=i]> ∅)), (assign_union _ l (<[x:=i + n]> ∅)).
  rewrite map_fmap_union, (IH (S i)). f_equal.
  by rewrite fmap_insert, fmap_empty.
Qed.

Lemma assign_size (l : list K) :
  NoDup l → size (DegreeOfFreedom.assign 0 l (∅ : gmap K nat)) = length l.
Proof.
  intros Hnd. rewrite <- (size_dom (D := gset K)).
  assert (dom (DegreeOfFreedom.assign 0 l (∅ : gmap K nat)) = list_to_set l) as ->.
  { apply set_eq. intros v. rewrite elem_of_dom, assign_dom, elem_of_list_to_set.
    rewrite lookup_empty. split; [intros [|[? ?]]; done|auto]. }
  by rewrite size_list_to_set.
Qed.

(** A table that numbers the list [s] from 0, over entries for elements of
    [s] only. *)
Lemma assign_covering (s : list K) (t : gmap K nat) :
  NoDup s → (∀ k, is_Some (t !! k) → k ∈ s) →
  DegreeOfFreedom.assign 0 s t = DegreeOfFreedom.assign 0 s ∅.
Proof.
  intros Hnd Hcov. rewrite assign_union. apply map_eq. intros k.
  destruct (DegreeOfFreedom.assign 0 s ∅ !! k) as [i|] eqn:Hk.
  - by erewrite lookup_union_Some_l.
  - rewrite lookup_union_r by done. destruct (t !! k) as [i|] eqn:Ht; [|done].
    assert (is_Some (DegreeOfFreedom.assign 0 s ∅ !! k)) as [? ?]; [|congruence].
    apply assign_dom. left. apply Hcov. by eexists.
Qed.

Lemma numbering (s : list K) :
  NoDup s →
  let t := DegreeOfFreedom.assign 0 s ∅ in
  size t = length s
  ∧ (∀ v, is_Some (t !! v) ↔ v ∈ s)
  ∧ (∀ v i, t !! v = Some i → i < length s)
  ∧ injective t
  ∧ ∀ a b i j, t !! a = Some i → t !! b = Some j → (i < j ↔ before s a b).
Proof.
  intros Hnd t. split_and!.
  - by apply assign_size.
  - intros v. unfold t. rewrite assign_dom, lookup_empty.
    split; [intros [|[? ?]]; done|auto].
  - intros v i Hv%assign_position; [|done]. by eapply lookup_lt_Some.
  - intros k1 k2 v H1%assign_position H2%assign_position; try done. congruence.
  - intros a b i j Ha%assign_position Hb%assign_position; try done.
    symmetry. by apply before_lookup.
Qed.

(** ** Walking over a dict *)

Lemma iteritems_NoDup {V} (m : gmap K V) : NoDup (iteritems m).*1.
Proof. rewrite iteritems_items. apply NoDup_fst_map_to_list. Qed.

Lemma iteritems_lookup {V} (m : gmap K V) k v :
  (k, v) ∈ iteritems m ↔ m !! k = Some v.
Proof. rewrite iteritems_items. apply elem_of_map_to_list. Qed.

Lemma iteritems_keys {V} (m : gmap K V) k :
  k ∈ (iteritems m).*1 ↔ is_Some (m !! k).
Proof.
  rewrite list_elem_of_fmap. split.
  - intros [[k' v] [-> Hin%iteritems_lookup]]. by eexists.
  - intros [v Hv]. exists (k, v). split; [done|]. by apply iteritems_lookup.
Qed.

Lemma iteritems_length {V} (m : gmap K V) : length (iteritems m) = size m.
Proof. rewrite iteritems_items. by rewrite length_map_to_list. Qed.

Lemma snoc_keys {V} (l : list (K * V)) k v :
  NoDup (l ++ [(k, v)]).*1 → NoDup l.*1 ∧ ∀ v', (k, v') ∉ l.
Proof.
  rewrite fmap_app. intros (Hnd & Hk & _)%NoDup_app. split; [done|].
  intros v' Hin. apply (Hk k); [|by left].
  apply list_elem_of_fmap. by exists (k, v').
Qed.

Lemma shift_loop sum (l : list (K * nat)) (r0 : gmap K nat) k w :
  NoDup l.*1 →
  foldl (λ result '(k, v), <[k := v + sum]> result) r0 l !! k = Some w ↔
  (∃ v, (k, v) ∈ l ∧ w = v + sum) ∨ ((∀ v, (k, v) ∉ l) ∧ r0 !! k = Some w).
Proof.
  induction l as [|[k0 v0] l IH] using rev_ind; intros Hnd.
  - simpl. split; [intros ?; right; split; [intros v; apply not_elem_of_nil|done]|].
    intros [(v & []%elem_of_nil & _)|[_ ?]]. done.
  - apply snoc_keys in Hnd as [Hnd Hk0]. rewrite foldl_app. simpl.
    setoid_rewrite elem_of_app. setoid_rewrite list_elem_of_singleton.
    destruct (decide (k = k0)) as [->|Hne].
    + rewrite lookup_insert_eq. split.
      * intros [= <-]. left. exists v0. auto.
      * intros [(v & [Hin|[= ->]] & ->)|[Hno _]]; [by destruct (Hk0 v)|done|].
        destruct (Hno v0). auto.
    + rewrite lookup_insert_ne by done. rewrite (IH Hnd). split.
      * intros [(v & Hin & ->)|[Hno Hr]]; [left; exists v; auto|].
        right. split; [|done]. intros v [Hin|[= ? ?]]; [by apply (Hno v)|done].
      * intros [(v & [Hin|[= ? ?]] & ->)|[Hno Hr]]; [left; by exists v|done|].
        right. split; [|done]. intros v Hin. apply (Hno v). auto.
Qed.

Lemma shift_loop_union sum (table r0 : gmap K nat) :
  foldl (λ result '(k, v), <[k := v + sum]> result) r0 (iteritems table) =
  ((λ v, v + sum) <$> table) ∪ r0.
Proof.
  apply map_eq. intros k. apply option_eq. intros w.
  rewrite shift_loop by apply iteritems_NoDup.
  rewrite lookup_union_Some_raw, lookup_fmap_Some, lookup_fmap, fmap_None.
  setoid_rewrite iteritems_lookup. split.
  - intros [(v & Hv & ->)|[Hno Hr]]; [left; by exists v|].
    right. split; [|done]. destruct (table !! k) as [v|] eqn:Hv; [|done].
    by destruct (Hno v).
  - intros [(v & <- & Hv)|[Hno Hr]]; [left; by exists v|].
    right. split; [|done]. intros v Hv. congruence.
Qed.

Lemma select_loop (select : K → bool) (l : list (K * nat)) k v :
  NoDup l.*1 →
  foldl (λ result '(k, v), if select k then <[k := v]> result else result)
        (∅ : gmap K nat) l !! k = Some v ↔
  (k, v) ∈ l ∧ select k = true.
Proof.
  induction l as [|[k0 v0] l IH] using rev_ind; intros Hnd.
  - simpl. rewrite lookup_empty, elem_of_nil. split; [done|tauto].
  - apply snoc_keys in Hnd as [Hnd Hk0]. rewrite foldl_app. simpl.
    rewrite elem_of_app, list_elem_of_singleton.
    destruct (select k0) eqn:Hsel.
    + destruct (decide (k = k0)) as [->|Hne].
      * rewrite lookup_insert_eq. split; [intros [= <-]; auto|].
        intros [[Hin|[= ->]] _]; [by destruct (Hk0 v)|done].
      * rewrite lookup_insert_ne by done. rewrite (IH Hnd).
        split; [intros [? ?]; auto|]. intros [[?|[= ? ?]] ?]; done.
    + rewrite (IH Hnd). split; [intros [? ?]; auto|].
      intros [[?|[= -> ->]] Hs]; [done|congruence].
Qed.

End TableFacts.

Section ReversedFacts.
Context `{DO : DictOrder} {K V : Type} `{Countable K, Countable V}.

Lemma reverse_loop (l : list (K * V)) v k :
  NoDup l.*1 → NoDup l.*2 →
  foldl (λ result '(k, v), <[v := k]> result) (∅ : gmap V K) l !! v = Some k ↔
  (k, v) ∈ l.
Proof.
  induction l as [|[k0 v0] l IH] using rev_ind; intros Hnd1 Hnd2.
  - simpl. rewrite lookup_empty, elem_of_nil. done.
  - rewrite fmap_app in Hnd1. rewrite fmap_app in Hnd2.
    apply NoDup_app in Hnd1 as (Hnd1 & Hk & _). apply NoDup_app in Hnd2 as (Hnd2 & Hv & _).
    rewrite foldl_app. simpl. rewrite elem_of_app, list_elem_of_singleton.
    destruct (decide (v = v0)) as [->|Hne].
    + rewrite lookup_insert_eq. split; [intros [= <-]; auto|].
      intros [Hin|[= ->]]; [|done]. destruct (Hv v0); [|by left].
      apply list_elem_of_fmap. by exists (k, v0).
    + rewrite lookup_insert_ne by done. rewrite (IH Hnd1 Hnd2).
      split; [auto|]. intros [?|[= ? ?]]; done.
Qed.

Lemma reversed_table_lookup (t : gmap K V) :
  injective t → ∀ v k, DegreeOfFreedom.reversed_table t !! v = Some k ↔ t !! k = Some v.
Proof.
  intros Hinj v k. unfold DegreeOfFreedom.reversed_table.
  rewrite reverse_loop, iteritems_lookup; [done|apply iteritems_NoDup|].
  apply NoDup_alt. intros i j v' Hi Hj.
  apply list_lookup_fmap_Some in Hi as ([k1 v1] & -> & Hi).
  apply list_lookup_fmap_Some in Hj as ([k2 v2] & Heq & Hj). simpl in Heq. subst v2.
  pose proof (list_elem_of_lookup_2 _ _ _ Hi) as H1%iteritems_lookup.
  pose proof (list_elem_of_lookup_2 _ _ _ Hj) as H2%iteritems_lookup.
  pose proof (Hinj _ _ _ H1 H2) as ->.
  pose proof (iteritems_NoDup t) as Hnd. rewrite NoDup_alt in Hnd.
  apply (Hnd i j k2); rewrite list_lookup_fmap; [by rewrite Hi|by rewrite Hj].
Qed.

End ReversedFacts.

(** ** The tables *)

Lemma get_lt_weak_order : weak_order DegreeOfFreedom.get_lt.
Proof.
  split; [split|].
  - intros [x|] Hx; simpl in Hx; [lia|done].
  - intros [x|] [y|] [z|]; simpl; try done. lia.
  - intros [x|] [y|] [z|]; simpl; try tauto; lia.
Qed.

Section TableTheorems.
Context `{DO : DictOrder} {K : Type} `{Countable K}.

(** X18.  A table made of a list without a sort key gives every index the
    position of its last occurrence in the list, and has no entry for
    anything else (a lookup is then a KeyError).  When no index occurs twice
    the table has as many entries as the list and gives every index its
    position. *)
Theorem Table_numbers_by_position {T} (lt : T → T → Prop) `{!∀ x y, Decision (lt x y)}
    (indices : list K) :
  let t := DegreeOfFreedom.Table lt indices None in
  (∀ i v, indices !! i = Some v → (∀ j, i < j → indices !! j ≠ Some v) →
     t !! v = Some i)
  ∧ (∀ v, v ∉ indices → t !! v = None)
  ∧ (NoDup indices →
     size t = length indices ∧ ∀ i v, t !! v = Some i ↔ indices !! i = Some v).
Proof.
  unfold DegreeOfFreedom.Table. split_and!.
  - intros i v Hi Hlast. by rewrite (assign_lookup_last 0 _ _ i v).
  - intros v Hv. by rewrite assign_lookup_notin.
  - intros Hnd. split; [by apply assign_size|]. intros i v. by apply assign_position.
Qed.

(** X19.  A table made with a sort key of a list in which no index occurs
    twice, the keys weakly ordered by [<], numbers the indices of the list
    from 0 without gaps, in the order of their keys, and indices whose keys
    are not in order either way in the order of the list. *)
Theorem Table_numbers_by_key {T} (lt : T → T → Prop) `{!∀ x y, Decision (lt x y)}
    (indices : list K) (f : K → T) :
  weak_order lt → NoDup indices →
  let t := DegreeOfFreedom.Table lt indices (Some f) in
  size t = length indices
  ∧ (∀ v, is_Some (t !! v) ↔ v ∈ indices)
  ∧ (∀ v i, t !! v = Some i → i < length indices)
  ∧ injective t
  ∧ ∀ a b i j, t !! a = Some i → t !! b = Some j →
      (i < j ↔ lt (f a) (f b) ∨ (¬ lt (f b) (f a) ∧ before indices a b)).
Proof.
  intros Hwo Hnd t.
  pose proof (sorted_Permutation lt f indices) as Hperm.
  destruct (sorted_before lt f indices Hwo Hnd) as [_ Hb].
  assert (NoDup (DegreeOfFreedom.sorted lt f indices)) as Hnd' by by rewrite Hperm.
  destruct (numbering _ Hnd') as (Hsize & Hdom & Hlt & Hinj & Hord).
  assert (length (DegreeOfFreedom.sorted lt f indices) = length indices) as Hlen
    by by rewrite Hperm.
  assert (∀ v, v ∈ DegreeOfFreedom.sorted lt f indices ↔ v ∈ indices) as Hmem
    by (intros v; by rewrite Hperm).
  rewrite Hlen in Hsize, Hlt. setoid_rewrite Hmem in Hdom.
  split_and!; try done.
  intros a b i j Ha Hj. rewrite (Hord a b i j Ha Hj), Hb.
  assert (a ∈ indices) by (apply Hdom; by eexists).
  assert (b ∈ indices) by (apply Hdom; by eexists). tauto.
Qed.

Lemma union_fold_sum (tables : list (gmap K nat)) :
  (foldl (λ '(result, sum) table,
            (foldl (λ result '(k, v), <[k := v + sum]> result) result
                   (iteritems table),
             sum + length (iteritems table)))
         ((∅ : gmap K nat), 0) tables).2 = sum_list (size <$> tables).
Proof.
  induction tables as [|t tables IH] using rev_ind; [done|].
  rewrite foldl_app, fmap_app, sum_list_with_app. simpl.
  destruct (foldl _ _ tables) as [result sum]. simpl in *.
  rewrite iteritems_length. lia.
Qed.

Lemma union_snoc {T} (lt : T → T → Prop) `{!∀ x y, Decision (lt x y)}
    (tables : list (gmap K nat)) (t : gmap K nat) :
  DegreeOfFreedom.union lt (tables ++ [t]) None =
  ((λ v, v + sum_list (size <$> tables)) <$> t) ∪ DegreeOfFreedom.union lt tables None.
Proof.
  unfold DegreeOfFreedom.union. rewrite foldl_app. simpl.
  pose proof (union_fold_sum tables) as Hsum.
  destruct (foldl _ _ tables) as [result sum]. simpl in *.
  by rewrite shift_loop_union, Hsum.
Qed.

Lemma tables_size {T} (lt : T → T → Prop) `{!∀ x y, Decision (lt x y)}
    (ls : list (list K)) :
  Forall NoDup ls →
  sum_list (size <$> ((λ l, DegreeOfFreedom.Table lt l None) <$> ls)) =
  length (concat ls).
Proof.
  induction 1 as [|l ls Hl Hnd IH]; [done|].
  rewrite !fmap_cons. cbn [sum_list_with concat]. rewrite IH, length_app.
  f_equal. by apply assign_size.
Qed.

(** X20.  Without a sort key, the union of the tables of lists in none of
    which an index occurs twice is the table of the concatenation of the
    lists: the numbers of each table are shifted by the sizes of the tables
    before it, and an index of several tables keeps the entry of the last of
    them. *)
Theorem union_offsets_tables {T} (lt : T → T → Prop) `{!∀ x y, Decision (lt x y)}
    (ls : list (list K)) :
  Forall NoDup ls →
  DegreeOfFreedom.union lt ((λ l, DegreeOfFreedom.Table lt l None) <$> ls) None =
  DegreeOfFreedom.Table lt (concat ls) None.
Proof.
  induction ls as [|l ls IH] using rev_ind; intros Hnd; [done|].
  apply Forall_app in Hnd as [Hnd Hl]. apply Forall_singleton in Hl.
  rewrite fmap_app, list_fmap_singleton, union_snoc, (IH Hnd), (tables_size lt ls Hnd).
  unfold DegreeOfFreedom.Table. rewrite concat_app. simpl. rewrite app_nil_r.
  rewrite assign_app, (assign_union _ l (DegreeOfFreedom.assign 0 (concat ls) ∅)).
  by rewrite assign_shift.
Qed.

Lemma update_fold_dom (tables : list (gmap K nat)) k :
  is_Some (foldl (λ result table, table ∪ result) ∅ tables !! k) ↔
  ∃ t, t ∈ tables ∧ is_Some (t !! k).
Proof.
  induction tables as [|t tables IH] using rev_ind.
  - simpl. rewrite lookup_empty. split; [by intros [? ?]|].
    by intros (t & ?%elem_of_nil & _).
  - rewrite foldl_app. simpl. rewrite lookup_union_is_Some, IH.
    setoid_rewrite elem_of_app. setoid_rewrite list_elem_of_singleton.
    split.
    + intros [Ht|(t' & Hin & Ht')]; [exists t; auto|exists t'; auto].
    + intros (t' & [Hin| ->] & Ht'); [right; by exists t'|by left].
Qed.

(** X21.  With a sort key, the keys weakly ordered by [<], the union of
    tables has exactly the indices of the tables, numbered from 0 without
    gaps in the order of their keys, whatever numbers the tables gave
    them. *)
Theorem union_numbers_by_key {T} (lt : T → T → Prop) `{!∀ x y, Decision (lt x y)}
    (tables : list (gmap K nat)) (f : K → T) :
  weak_order lt →
  let r := DegreeOfFreedom.union lt tables (Some f) in
  (∀ k, is_Some (r !! k) ↔ ∃ t, t ∈ tables ∧ is_Some (t !! k))
  ∧ (∀ k i, r !! k = Some i → i < size r)
  ∧ injective r
  ∧ ∀ a b i j, r !! a = Some i → r !! b = Some j → lt (f a) (f b) → i < j.
Proof.
  intros Hwo r. unfold DegreeOfFreedom.union in r.
  set (result := foldl (λ result table, table ∪ result) ∅ tables) in *.
  set (keys := (iteritems result).*1) in *.
  assert (NoDup keys) as Hnd by apply iteritems_NoDup.
  pose proof (sorted_Permutation lt f keys) as Hperm.
  destruct (sorted_before lt f keys Hwo Hnd) as [_ Hb].
  assert (NoDup (DegreeOfFreedom.sorted lt f keys)) as Hnd' by by rewrite Hperm.
  assert (r = DegreeOfFreedom.assign 0 (DegreeOfFreedom.sorted lt f keys) ∅) as Hr.
  { apply assign_covering; [done|]. intros k Hk. rewrite Hperm.
    by apply iteritems_keys. }
  destruct (numbering _ Hnd') as (Hsize & Hdom & Hlt & Hinj & Hord).
  rewrite <- Hr in Hsize, Hdom, Hlt, Hinj, Hord. split_and!.
  - intros k. rewrite Hdom, Hperm. unfold keys. rewrite iteritems_keys.
    apply update_fold_dom.
  - intros k i Hk. rewrite Hsize. by eapply Hlt.
  - done.
  - intros a b i j Ha Hj Hab. apply (Hord a b i j Ha Hj), Hb.
    split_and!; [|..|by left]; rewrite <- Hperm; apply Hdom; by eexists.
Qed.

(** X22.  The subset of a table has exactly the selected indices of the
    table, numbered from 0 without gaps, and two of them are in the order
    the table had them in. *)
Theorem subset_renumbers_in_order (self : gmap K nat) (select : K → bool) :
  let r := DegreeOfFreedom.subset self select in
  (∀ k, is_Some (r !! k) ↔ is_Some (self !! k) ∧ select k = true)
  ∧ (∀ k i, r !! k = Some i → i < size r)
  ∧ injective r
  ∧ ∀ a b i j i' j',
      self !! a = Some i → self !! b = Some j →
      r !! a = Some i' → r !! b = Some j' → i < j → i' < j'.
Proof.
  intros r. unfold DegreeOfFreedom.subset in r.
  set (result := foldl (λ result '(k, v), if select k then <[k := v]> result else result)
                       ∅ (iteritems self)) in *.
  assert (∀ k v, result !! k = Some v ↔ self !! k = Some v ∧ select k = true) as Hres.
  { intros k v. unfold result. rewrite select_loop by apply iteritems_NoDup.
    by rewrite iteritems_lookup. }
  set (keys := (iteritems result).*1) in *.
  set (get := λ k, result !! k) in *.
  assert (NoDup keys) as Hnd by apply iteritems_NoDup.
  pose proof (sorted_Permutation DegreeOfFreedom.get_lt get keys) as Hperm.
  destruct (sorted_before DegreeOfFreedom.get_lt get keys get_lt_weak_order Hnd) as [_ Hb].
  assert (NoDup (DegreeOfFreedom.sorted DegreeOfFreedom.get_lt get keys)) as Hnd'
    by by rewrite Hperm.
  destruct (numbering _ Hnd') as (Hsize & Hdom & Hlt & Hinj & Hord).
  assert (r = DegreeOfFreedom.assign 0
                (DegreeOfFreedom.sorted DegreeOfFreedom.get_lt get keys) ∅) as Hr.
  { unfold r. apply map_eq. intros k.
    destruct (DegreeOfFreedom.assign 0 _ ∅ !! k) as [i|] eqn:Hk.
    - by erewrite lookup_union_Some_l.
    - rewrite lookup_union_r by done. apply eq_None_not_Some. intros Hsome.
      apply iteritems_keys in Hsome. fold keys in Hsome. rewrite <- Hperm in Hsome.
      apply Hdom in Hsome as [? ?]. congruence. }
  rewrite <- Hr in Hsize, Hdom, Hlt, Hinj, Hord.
  assert (∀ k, is_Some (r !! k) ↔ is_Some (result !! k)) as Hkeys.
  { intros k. rewrite Hdom, Hperm. apply iteritems_keys. }
  split_and!.
  - intros k. rewrite Hkeys. split.
    + intros [v [Hv Hs]%Hres]. split; [by eexists|done].
    + intros [[v Hv] Hs]. exists v. by apply Hres.
  - intros k i Hk. rewrite Hsize. by eapply Hlt.
  - done.
  - intros a b i j i' j' Ha Hj Ha' Hj' Hij. apply (Hord a b i' j' Ha' Hj'), Hb.
    assert (result !! a = Some i) as Hra.
    { destruct (proj1 (Hkeys a)) as [v Hv]; [by eexists|].
      pose proof (proj1 (Hres a v) Hv) as [? ?]. apply Hres. split; congruence. }
    assert (result !! b = Some j) as Hrb.
    { destruct (proj1 (Hkeys b)) as [v Hv]; [by eexists|].
      pose proof (proj1 (Hres b v) Hv) as [? ?]. apply Hres. split; congruence. }
    split_and!.
    + rewrite <- Hperm. apply Hdom. by eexists.
    + rewrite <- Hperm. apply Hdom. by eexists.
    + left. unfold get. by rewrite Hra, Hrb.
Qed.

End TableTheorems.

(** X23.  The reversed table of a table that gives no two indices the same
    number maps every number back to its index, and reversing it again
    gives the table back. *)
Theorem reversed_table_round_trip `{DO : DictOrder} {K V} `{Countable K, Countable V}
    (t : gmap K V) :
  injective t →
  (∀ v k, DegreeOfFreedom.reversed_table t !! v = Some k ↔ t !! k = Some v)
  ∧ DegreeOfFreedom.reversed_table (DegreeOfFreedom.reversed_table t) = t.
Proof.
  intros Hinj. split; [by apply reversed_table_lookup|].
  assert (injective (DegreeOfFreedom.reversed_table t)) as Hinj'.
  { intros v1 v2 k H1 H2. apply (reversed_table_lookup t Hinj) in H1.
    apply (reversed_table_lookup t Hinj) in H2. congruence. }
  apply map_eq. intros k. apply option_eq. intros v.
  rewrite reversed_table_lookup by done. by apply reversed_table_lookup.
Qed.

(** ** Indices *)

Section IndexFacts.
Context {V : Type}.
Implicit Types (self : @DegreeOfFreedom.Index V) (d : list (string * option V)).

(** The attributes of the index are the elements of its tuple, in order
    (which [Index(pid,iid)] gives when no name is a field of both [pid] and
    [iid]). *)
Definition consistent self : Prop :=
  NoDup (DegreeOfFreedom.__dict__ self).*1 ∧ (DegreeOfFreedom.__dict__ self).*2 = DegreeOfFreedom.values self.

Lemma od_set_fresh d k v : k ∉ d.*1 → DegreeOfFreedom.od_set d k v = d ++ [(k, v)].
Proof. intros Hk. unfold DegreeOfFreedom.od_set. by rewrite decide_False. Qed.

Lemma od_update_fresh d items :
  NoDup (d ++ items).*1 → DegreeOfFreedom.od_update d items = d ++ items.
Proof.
  revert d. induction items as [|[k v] items IH]; intros d Hnd.
  - by rewrite app_nil_r.
  - change (DegreeOfFreedom.od_update d ((k, v) :: items))
      with (DegreeOfFreedom.od_update (DegreeOfFreedom.od_set d k v) items).
    rewrite od_set_fresh.
    + rewrite IH; rewrite <- app_assoc; done.
    + rewrite fmap_app in Hnd. apply NoDup_app in Hnd as (_ & Hd & _).
      intros Hk. apply (Hd k Hk). simpl. by left.
Qed.

Lemma map_pop_left (karg : gmap string (option V)) keys vs k :
  (DegreeOfFreedom.map_pop karg keys vs).2 !! k = if decide (k ∈ keys) then None else karg !! k.
Proof.
  revert karg vs. induction keys as [|k0 keys IH]; intros karg vs; cbn [DegreeOfFreedom.map_pop].
  - by destruct (decide (k ∈ [])) as [?%elem_of_nil|].
  - specialize (IH (delete k0 karg) (tail vs)).
    destruct (DegreeOfFreedom.map_pop (delete k0 karg) keys (tail vs)) as [result karg'].
    simpl in *. rewrite IH. destruct (decide (k ∈ keys)) as [Hin|Hnin].
    + rewrite decide_True; [done|]. by right.
    + destruct (decide (k = k0)) as [->|Hne].
      * rewrite decide_True by by left. by rewrite lookup_delete_eq.
      * rewrite decide_False by (by intros [?|?]%elem_of_cons).
        by rewrite lookup_delete_ne.
Qed.

Lemma map_pop_result (karg : gmap string (option V)) d :
  NoDup d.*1 →
  (DegreeOfFreedom.map_pop karg d.*1 d.*2).1 = (λ kv, default kv.2 (karg !! kv.1)) <$> d.
Proof.
  revert karg. induction d as [|[k v] d IH]; intros karg Hnd; [done|].
  rewrite !fmap_cons in *. apply NoDup_cons in Hnd as [Hk Hnd]. simpl.
  specialize (IH (delete k karg) Hnd).
  destruct (DegreeOfFreedom.map_pop (delete k karg) d.*1 d.*2) as [result karg']. simpl in *.
  rewrite IH. f_equal. apply list_fmap_ext. intros i [k' v'] Hi. simpl.
  rewrite lookup_delete_ne; [done|]. intros ->. apply Hk.
  apply list_elem_of_fmap. exists (k', v'). split; [done|].
  by eapply list_elem_of_lookup_2.
Qed.

Lemma zip_keys (g : string * option V → option V) d :
  zip d.*1 (g <$> d) = (λ kv, (kv.1, g kv)) <$> d.
Proof. induction d as [|[k v] d IH]; [done|]. csimpl. by rewrite IH. Qed.

(** What [replace] makes of the attributes. *)
Definition replaced (karg : gmap string (option V)) d : list (string * option V) :=
  (λ kv, (kv.1, default kv.2 (karg !! kv.1))) <$> d.

Lemma replaced_keys karg d : (replaced karg d).*1 = d.*1.
Proof. unfold replaced. rewrite <- list_fmap_compose. by apply list_fmap_ext. Qed.

Lemma replace_spec self (karg : gmap string (option V)) :
  consistent self →
  ((∀ k, is_Some (karg !! k) → k ∈ (DegreeOfFreedom.__dict__ self).*1) →
   DegreeOfFreedom.replace self karg =
   Ok (DegreeOfFreedom.mkIndex (replaced karg (DegreeOfFreedom.__dict__ self)).*2 (replaced karg (DegreeOfFreedom.__dict__ self))))
  ∧ (∀ k, is_Some (karg !! k) → k ∉ (DegreeOfFreedom.__dict__ self).*1 →
     DegreeOfFreedom.replace self karg = Raise ValueError).
Proof.
  intros [Hnd Hval]. unfold DegreeOfFreedom.replace. rewrite <- Hval.
  pose proof (map_pop_result karg _ Hnd) as Hres.
  pose proof (map_pop_left karg (DegreeOfFreedom.__dict__ self).*1 (DegreeOfFreedom.__dict__ self).*2) as Hleft.
  destruct (DegreeOfFreedom.map_pop karg _ _) as [result karg']. simpl in *. subst result. split.
  - intros Hall. rewrite decide_True.
    + rewrite zip_keys. rewrite od_update_fresh.
      * f_equal. unfold replaced. f_equal.
        rewrite <- list_fmap_compose. by apply list_fmap_ext.
      * simpl. fold (replaced karg (DegreeOfFreedom.__dict__ self)). by rewrite replaced_keys.
    + apply map_size_empty_iff, map_eq. intros k. rewrite Hleft, lookup_empty.
      destruct (decide _) as [|Hk]; [done|]. apply eq_None_not_Some. intros Hsome.
      by apply Hk, Hall.
  - intros k Hk Hnin. rewrite decide_False; [done|].
    intros Hsize%map_size_empty_iff. specialize (Hleft k).
    rewrite Hsize, lookup_empty, decide_False in Hleft by done.
    destruct Hk as [? ?]. congruence.
Qed.

Lemma od_get_replaced karg d k :
  k ∈ d.*1 → DegreeOfFreedom.od_get (replaced karg d) k = default (DegreeOfFreedom.od_get d k) (karg !! k).
Proof.
  induction d as [|[k' v] d IH]; [by intros ?%elem_of_nil|].
  rewrite fmap_cons. intros Hk. simpl. destruct (decide (k' = k)) as [->|Hne]; [done|].
  apply IH. by apply elem_of_cons in Hk as [?|?].
Qed.

Lemma od_get_keys d : NoDup d.*1 → DegreeOfFreedom.od_get d <$> d.*1 = d.*2.
Proof.
  induction d as [|[k v] d IH]; [done|]. rewrite !fmap_cons.
  intros [Hk Hnd]%NoDup_cons. simpl. rewrite decide_True by done. f_equal.
  rewrite <- (IH Hnd). apply list_fmap_ext. intros i k' Hi.
  rewrite decide_False; [done|]. intros ->. apply Hk. by eapply list_elem_of_lookup_2.
Qed.

Lemma od_get_missing d k : k ∉ d.*1 → DegreeOfFreedom.od_get d k = None.
Proof.
  induction d as [|[k' v] d IH]; [done|]. rewrite fmap_cons.
  intros [Hne Hk]%not_elem_of_cons. simpl. rewrite decide_False by done. by apply IH.
Qed.

Lemma replaced_consistent karg d :
  NoDup d.*1 → consistent (DegreeOfFreedom.mkIndex (replaced karg d).*2 (replaced karg d)).
Proof. intros Hnd. split; simpl; [by rewrite replaced_keys|done]. Qed.

(** X24.  On an index whose attributes are the elements of its tuple,
    [replace] returns an index with the same attribute names in which an
    attribute named in the keyword arguments has the value given there and
    every other attribute the value it had, and it raises ValueError when a
    keyword argument names no attribute of the index. *)
Theorem replace_sets_named_attributes self (karg : gmap string (option V)) :
  consistent self →
  ((∀ k, is_Some (karg !! k) → k ∈ (DegreeOfFreedom.__dict__ self).*1) →
   ∃ y, DegreeOfFreedom.replace self karg = Ok y
        ∧ consistent y
        ∧ (DegreeOfFreedom.__dict__ y).*1 = (DegreeOfFreedom.__dict__ self).*1
        ∧ ∀ k, k ∈ (DegreeOfFreedom.__dict__ self).*1 →
            DegreeOfFreedom.od_get (DegreeOfFreedom.__dict__ y) k =
            default (DegreeOfFreedom.od_get (DegreeOfFreedom.__dict__ self) k) (karg !! k))
  ∧ (∀ k, is_Some (karg !! k) → k ∉ (DegreeOfFreedom.__dict__ self).*1 →
     DegreeOfFreedom.replace self karg = Raise ValueError).
Proof.
  intros Hc. destruct (replace_spec self karg Hc) as [Hok Hraise].
  split; [|done]. intros Hall. eexists. split; [by apply Hok|].
  split_and!; simpl.
  - apply replaced_consistent, Hc.
  - apply replaced_keys.
  - intros k Hk. by apply od_get_replaced.
Qed.

(** X25.  An index made of a [pid] and an [iid] that have no field name in
    common has the fields of both as its attributes, in order, and its copy
    is an equal index. *)
Theorem copy_gives_equal_index (pid iid : list (string * option V)) :
  NoDup (pid ++ iid).*1 →
  DegreeOfFreedom.__dict__ (DegreeOfFreedom.__new__ pid iid) = pid ++ iid
  ∧ DegreeOfFreedom.__copy__ (DegreeOfFreedom.__new__ pid iid) = Ok (DegreeOfFreedom.__new__ pid iid).
Proof.
  intros Hnd.
  assert (DegreeOfFreedom.__new__ pid iid = DegreeOfFreedom.mkIndex (pid ++ iid).*2 (pid ++ iid)) as ->.
  { unfold DegreeOfFreedom.__new__. f_equal. rewrite (od_update_fresh [] pid).
    - by apply od_update_fresh.
    - rewrite fmap_app in Hnd. by apply NoDup_app in Hnd as (? & _). }
  split; [done|]. unfold DegreeOfFreedom.__copy__. cbn [DegreeOfFreedom.__dict__].
  assert (consistent (DegreeOfFreedom.mkIndex (pid ++ iid).*2 (pid ++ iid))) as Hc by done.
  destruct (replace_spec _ (list_to_map (pid ++ iid)) Hc) as [Hok _].
  rewrite Hok; cbn [DegreeOfFreedom.__dict__].
  - assert (replaced (list_to_map (pid ++ iid)) (pid ++ iid) = pid ++ iid) as ->; [|done].
    unfold replaced. etrans; [|apply list_fmap_id].
    apply list_fmap_ext. intros i [k v] Hi. simpl. f_equal.
    rewrite (elem_of_list_to_map_1 _ k v); [done|done|].
    by eapply list_elem_of_lookup_2.
  - intros k [v Hk]. apply elem_of_list_to_map_2 in Hk.
    apply list_elem_of_fmap. by exists (k, v).
Qed.

(** What [select] makes of the attributes. *)
Definition selected (arg : list string) d : list (string * option V) :=
  (λ kv, (kv.1, if decide (kv.1 ∈ arg) then kv.2 else None)) <$> d.

Lemma mask_karg (arg : list string) k :
  (list_to_map ((λ key, (key, @None V)) <$> arg) : gmap string (option V)) !! k =
  if decide (k ∈ arg) then Some None else None.
Proof.
  induction arg as [|k' arg IH].
  - rewrite fmap_nil, list_to_map_nil, lookup_empty.
    by destruct (decide (k ∈ [])) as [?%elem_of_nil|].
  - rewrite fmap_cons, list_to_map_cons. destruct (decide (k = k')) as [->|Hne].
    + rewrite lookup_insert_eq. rewrite decide_True; [done|]. by left.
    + rewrite lookup_insert_ne by done. rewrite IH.
      destruct (decide (k ∈ arg)) as [Hin|Hnin].
      * rewrite decide_True; [done|]. by right.
      * rewrite decide_False; [done|]. by intros [?|?]%elem_of_cons.
Qed.

Lemma select_spec self arg :
  consistent self →
  DegreeOfFreedom.select self arg =
  Ok (DegreeOfFreedom.mkIndex (selected arg (DegreeOfFreedom.__dict__ self)).*2 (selected arg (DegreeOfFreedom.__dict__ self))).
Proof.
  intros Hc. unfold DegreeOfFreedom.select, DegreeOfFreedom.mask.
  destruct (replace_spec self
              (list_to_map ((λ key, (key, None)) <$>
                 filter (λ key, key ∉ arg) (DegreeOfFreedom.__dict__ self).*1)) Hc) as [Hok _].
  rewrite Hok.
  - assert (replaced (list_to_map ((λ key, (key, None)) <$>
                        filter (λ key, key ∉ arg) (DegreeOfFreedom.__dict__ self).*1))
                     (DegreeOfFreedom.__dict__ self) = selected arg (DegreeOfFreedom.__dict__ self)) as ->; [|done].
    apply list_fmap_ext. intros i [k v] Hi. simpl. f_equal.
    rewrite mask_karg. destruct (decide (k ∈ arg)) as [Hin|Hnin].
    + rewrite decide_False; [done|]. by intros [? _]%list_elem_of_filter.
    + rewrite decide_True; [done|]. apply list_elem_of_filter. split; [done|].
      apply list_elem_of_fmap. exists (k, v). split; [done|].
      by eapply list_elem_of_lookup_2.
  - intros k Hk. rewrite mask_karg in Hk.
    destruct (decide _) as [[_ ?]%list_elem_of_filter|]; [done|by destruct Hk].
Qed.

Lemma selected_keys arg d : (selected arg d).*1 = d.*1.
Proof. unfold selected. rewrite <- list_fmap_compose. by apply list_fmap_ext. Qed.

Lemma od_get_selected arg d k :
  DegreeOfFreedom.od_get (selected arg d) k = if decide (k ∈ arg) then DegreeOfFreedom.od_get d k else None.
Proof.
  induction d as [|[k' v] d IH]; [by destruct (decide _)|].
  unfold selected. rewrite fmap_cons. fold (selected arg d). simpl.
  destruct (decide (k' = k)) as [->|Hne]; [done|]. apply IH.
Qed.

(** X26.  On an index whose attributes are the elements of its tuple,
    [mask] raises ValueError for a name that is no attribute of the index;
    [select] never raises, also for such a name: it returns an index with the
    same attribute names in which the named attributes have the value they
    had and every other attribute is None, and selecting the same names of
    the result again gives the result. *)
Theorem select_keeps_named_attributes self (arg : list string) :
  consistent self →
  (∀ k, k ∈ arg → k ∉ (DegreeOfFreedom.__dict__ self).*1 → DegreeOfFreedom.mask self arg = Raise ValueError)
  ∧ ∃ y, DegreeOfFreedom.select self arg = Ok y
         ∧ consistent y
         ∧ (DegreeOfFreedom.__dict__ y).*1 = (DegreeOfFreedom.__dict__ self).*1
         ∧ (∀ k, DegreeOfFreedom.od_get (DegreeOfFreedom.__dict__ y) k =
                 if decide (k ∈ arg) then DegreeOfFreedom.od_get (DegreeOfFreedom.__dict__ self) k else None)
         ∧ DegreeOfFreedom.select y arg = Ok y.
Proof.
  intros Hc. split.
  - intros k Hk Hnin. unfold DegreeOfFreedom.mask.
    apply (proj2 (replace_spec self _ Hc) k); [|done].
    rewrite mask_karg, decide_True by done. by eexists.
  - eexists. split; [by apply select_spec|].
    assert (consistent (DegreeOfFreedom.mkIndex (selected arg (DegreeOfFreedom.__dict__ self)).*2
                                   (selected arg (DegreeOfFreedom.__dict__ self)))) as Hc'.
    { split; simpl; [|done]. rewrite selected_keys. apply Hc. }
    split_and!; simpl.
    + done.
    + apply selected_keys.
    + intros k. apply od_get_selected.
    + rewrite (select_spec _ arg Hc'). simpl.
      assert (selected arg (selected arg (DegreeOfFreedom.__dict__ self)) =
              selected arg (DegreeOfFreedom.__dict__ self)) as ->; [|done].
      unfold selected. rewrite <- list_fmap_compose. apply list_fmap_ext.
      intros i [k v] _. simpl. by destruct (decide (k ∈ arg)).
Qed.

Lemma remove_dups_length (l : list string) :
  length (remove_dups l) ≤ length l
  ∧ (length (remove_dups l) = length l ↔ NoDup l).
Proof.
  induction l as [|x l [IH1 IH2]]; simpl; [split; [done|split; [constructor|done]]|].
  destruct (decide_rel _ x l) as [Hin|Hnin]; simpl.
  - split; [lia|]. split; [lia|]. by intros [? _]%NoDup_cons.
  - split; [lia|]. split.
    + intros Heq. constructor; [done|]. apply IH2. lia.
    + intros [_ Hnd]%NoDup_cons. f_equal. by apply IH2.
Qed.

Lemma set_smaller (l : list string) :
  size (list_to_set l : gset string) < length l ↔ ¬ NoDup l.
Proof.
  assert (size (list_to_set l : gset string) = length (remove_dups l)) as ->.
  { rewrite <- (size_list_to_set (C := gset string)) by apply NoDup_remove_dups.
    f_equal. apply set_eq. intros x.
    by rewrite !elem_of_list_to_set, elem_of_remove_dups. }
  destruct (remove_dups_length l) as [Hle Hnd]. rewrite <- Hnd. lia.
Qed.

(** X27.  [to_tuple] raises ValueError for a priority in which a name
    occurs twice and for a priority whose length is not the number of
    attributes.  For any other priority it returns one value for each name,
    None for a name that is no attribute of the index; on an index whose
    attributes are the elements of its tuple a priority that is a
    rearrangement of the attribute names gives a rearrangement of the tuple,
    and the attribute names in their own order give the tuple itself. *)
Theorem to_tuple_orders_attributes self (priority : list string) :
  (¬ NoDup priority → DegreeOfFreedom.to_tuple self priority = Raise ValueError)
  ∧ (length priority ≠ length (DegreeOfFreedom.__dict__ self) →
     DegreeOfFreedom.to_tuple self priority = Raise ValueError)
  ∧ (NoDup priority → length priority = length (DegreeOfFreedom.__dict__ self) →
     ∃ t, DegreeOfFreedom.to_tuple self priority = Ok t
          ∧ length t = length priority
          ∧ (∀ i k, priority !! i = Some k → k ∉ (DegreeOfFreedom.__dict__ self).*1 →
               t !! i = Some None)
          ∧ (consistent self → priority ≡ₚ (DegreeOfFreedom.__dict__ self).*1 →
             t ≡ₚ DegreeOfFreedom.values self)
          ∧ (consistent self → priority = (DegreeOfFreedom.__dict__ self).*1 →
             t = DegreeOfFreedom.values self)).
Proof.
  unfold DegreeOfFreedom.to_tuple. split_and!.
  - intros Hnd. rewrite decide_True; [done|]. by apply set_smaller.
  - intros Hlen. destruct (decide _); [done|]. by rewrite decide_True.
  - intros Hnd Hlen. rewrite decide_False by by rewrite set_smaller; intros Hn; apply Hn.
    rewrite decide_False by (intros Hne; by apply Hne).
    eexists. split; [done|]. split_and!.
    + by rewrite length_fmap.
    + intros i k Hi Hk. rewrite list_lookup_fmap, Hi. simpl.
      by rewrite od_get_missing.
    + intros [Hd Hv] Hperm. rewrite Hperm, <- Hv. by rewrite od_get_keys.
    + intros [Hd Hv] ->. rewrite <- Hv. by apply od_get_keys.
Qed.

End IndexFacts.

(** * The sample chains *)

Module Examples.
Import Sym.

Lemma chain3_centered : center_invariant (self chain3).
Proof. apply centered_invariant. exists 2%Z, 3. vm_compute. intuition discriminate. Qed.

Lemma chain0_centered : center_invariant (self chain0).
Proof. apply centered_invariant. exists 0%Z, 0. vm_compute. intuition discriminate. Qed.

Lemma shift_past_boundary_witness :
  (0 ≤ 2 ≤ nsite (self chain3))%Z
  ∧ ∃ s', __ilshift__ (ShiftTuple 1 None None) chain3 = (Ok tt, s')
          ∧ cut (self s') = Some 1%Z.
Proof.
  assert (0 ≤ 2 ≤ nsite (self chain3))%Z as H by (vm_compute; intuition discriminate).
  split; [exact H|].
  destruct (shift_past_boundary_raises chain3 2 3 None None eq_refl eq_refl H)
    as (_ & _ & Hl & _).
  apply Hl. lia.
Defined.

Lemma shift_rebinds_neighbours_witness :
  (0 < 2 < nsite (self chain3))%Z
  ∧ ∃ s', __ilshift__ (ShiftTuple 1 None None) chain3 = (Ok tt, s')
          ∧ moved chain3 s' 1 MoveL [0; 1].
Proof.
  assert (0 < 2 < nsite (self chain3))%Z as H by (vm_compute; done).
  split; [exact H|].
  exact (proj1 (shift_rebinds_neighbours chain3 2 3 None None eq_refl eq_refl H)).
Defined.

(** C3 as stated fails: with the cut at 2 of 3 sites a leftward shift
    rebinds position 0, which is neither [cut-1] nor [cut], and leaves
    position 2 alone. *)
Lemma shift_left_frame_counterexample :
  (__ilshift__ (ShiftInt 1) chain3).1 = Ok tt
  ∧ cut (self chain3) = Some 2%Z
  ∧ ms (self (__ilshift__ (ShiftInt 1) chain3).2) !! 0 ≠ ms (self chain3) !! 0
  ∧ ms (self (__ilshift__ (ShiftInt 1) chain3).2) !! 2 = ms (self chain3) !! 2.
Proof. vm_compute. split_and!; auto. discriminate. Qed.

Lemma canonicalize_sweeps_witness :
  (0 ≤ 2 ≤ nsite (self chain3))%Z
  ∧ ∃ s', canonicalize 2 None None chain3 = (Ok tt, s')
          ∧ cut (self s') = Some 2%Z
          ∧ is_Some (Lambda (self s'))
          ∧ trail s' = trail chain3 ++ canonicalize_moves (nsite (self chain3)) 2.
Proof.
  assert (0 ≤ 2 ≤ nsite (self chain3))%Z as H by (vm_compute; intuition discriminate).
  split; [exact H|].
  apply (canonicalize_sweeps chain3 2 None None chain3_centered); [|exact H].
  right. vm_compute. done.
Defined.

(** C4 as stated fails: for 2 sites and target 0 the code makes two leftward
    moves and no rightward one, where the specification has two rightward
    moves followed by two leftward ones. *)
Lemma canonicalize_order_counterexample :
  (canonicalize 0 None None chain2).1 = Ok tt
  ∧ trail (canonicalize 0 None None chain2).2 = [MoveL; MoveL]
  ∧ spec_canonicalize_moves (nsite (self chain2)) 0 = [MoveR; MoveR; MoveL; MoveL].
Proof. vm_compute. done. Qed.

Lemma reset_collapses_witness :
  (0 ≤ 1 ≤ nsite (self chain3))%Z
  ∧ reset (Some 1%Z) chain3 = (Ok tt, install 1 (collapse chain3)).
Proof.
  assert (0 ≤ 1 ≤ nsite (self chain3))%Z as H by (vm_compute; intuition discriminate).
  split; [exact H|].
  refine (proj1 (reset_collapses_then_installs chain3 1 chain3_centered _ H)).
  right. vm_compute. done.
Defined.

(** C6 as stated fails on the chain without sites that carries the center
    [reset(0)] gave it: a second [reset(0)] raises IndexError. *)
Lemma reset_empty_chain_counterexample :
  ms (self chain0) = []
  ∧ cut (self chain0) = Some 0%Z
  ∧ Lambda (self chain0) = Some 0
  ∧ reset (Some 0%Z) chain0 = (Raise IndexError, chain0).
Proof. vm_compute. done. Qed.

Lemma reset_out_of_range_witness :
  (nsite (self chain3) < 7)%Z
  ∧ reset (Some 7%Z) chain3 = (Raise ValueError, collapse chain3)
  ∧ collapse chain3 ≠ chain3.
Proof.
  assert (nsite (self chain3) < 7)%Z as H by (vm_compute; done).
  split; [exact H|].
  destruct (reset_out_of_range_leaves_collapsed chain3 7 chain3_centered) as (Hr & _ & Hne).
  - right. vm_compute. done.
  - by right.
  - split; [exact Hr|]. apply Hne. exists 2%Z, 3. vm_compute. intuition discriminate.
Defined.

(** C10 as stated fails on the same chain: an out-of-range [reset(5)] raises
    IndexError, not ValueError, and the center stays. *)
Lemma reset_out_of_range_empty_counterexample :
  ms (self chain0) = []
  ∧ reset (Some 5%Z) chain0 = (Raise IndexError, chain0)
  ∧ cut (self chain0) = Some 0%Z.
Proof. vm_compute. done. Qed.

Lemma world3_centers : all_centers_ok world3.
Proof.
  intros r c Hr. destruct r as [|r]; simpl in Hr; [|done].
  injection Hr as <-. apply chain3_centered.
Qed.

Lemma center_invariant_kept_witness :
  all_centers_ok world3
  ∧ all_centers_ok (call 0 (canonicalize 1 None None) world3).2.
Proof.
  split; [exact world3_centers|].
  destruct (center_invariant_kept world3 world3_centers) as (_ & _ & Hc & _).
  apply (Hc 0 (canonicalize 1 None None)
            (call 0 (canonicalize 1 None None) world3).1
            (call 0 (canonicalize 1 None None) world3).2).
  - constructor.
  - apply surjective_pairing.
Defined.

(** C7 as stated fails for addition.  The constructor accepts a [Lambda]
    whose leg is the site label of the tensor at the cut; adding the chain to
    itself merges that [Lambda] away and ends in the ValueError of
    [_set_ABL_], with [Lambda] set again and the cut left undefined. *)
Lemma addition_breaks_center_counterexample :
  let w := (__init__ NB [0; 1] (Some 2) (Some 1%Z) world2).2 in
  let w' := (__add__ 0 (AddMPS 0) w).2 in
  (__init__ NB [0; 1] (Some 2) (Some 1%Z) world2).1 = Ok 0
  ∧ chains w !! 0 = Some (mkMPS NB [0; 1] (Some 2) (Some 1%Z))
  ∧ (__add__ 0 (AddMPS 0) w).1 = Raise ValueError
  ∧ chains w' !! 0 = Some (mkMPS NB [0; 1] (Some 2) None).
Proof. vm_compute. done. Qed.

Lemma relayer_same_layer_witness :
  chains world3 !! 0 = Some (self chain3)
  ∧ relayer 0 tree (LayerInt 1) None None world3 =
    (Ok 1, mkWorld [self chain3; self chain3] (tensors world3) (moves world3)).
Proof.
  split; [reflexivity|].
  apply (relayer_same_layer_copies world3 0 tree (LayerInt 1) None None
           (self chain3) 0 [1; 2] 1%Z); try reflexivity.
  vm_compute. intuition discriminate.
Defined.

(** C8 as stated fails: the chain returned for the layer the chain is on
    holds the tensor objects of the chain itself, so relabelling the returned
    chain changes the site label of the first tensor of the original; and on
    a chain without sites [relayer] raises StopIteration. *)
Lemma relayer_copy_shares_tensors_counterexample :
  let w1 := (relayer 0 tree (LayerInt 1) None None world3).2 in
  let news := relabel [mkLab "t0" None; mkLab "t1" None; mkLab "t2" None]
                      [bond 0; bond 1; bond 2; bond 3] in
  let w2 := (call 1 news w1).2 in
  (relayer 0 tree (LayerInt 1) None None world3).1 = Ok 1
  ∧ (call 1 news w1).1 = Ok tt
  ∧ chains w2 !! 0 = Some (self chain3)
  ∧ leg (tensors world3 !!! 0) 1 = mkLab "s0" None
  ∧ leg (tensors w2 !!! 0) 1 = mkLab "t0" (Some 0%Z)
  ∧ (relayer 0 tree (LayerInt 1) None None world0).1 = Raise StopIteration.
Proof. vm_compute. done. Qed.

Lemma chain3_closed : closed chain3.
Proof.
  split.
  - repeat constructor.
  - intros lr [= <-]. repeat constructor.
Qed.

Lemma chain3_center_on_bond : center_on_bond chain3.
Proof. vm_compute. done. Qed.

Lemma sym_label_eq_refl : label_eq_refl.
Proof. intros l. by apply bool_decide_eq_true. Qed.

Lemma sym_product_keeps_site : product_keeps_site.
Proof.
  intros [da la ca] [db lb cb] Ha Hb. simpl in Ha, Hb.
  unfold leg, tmul. simpl. unfold leg_at, product_legs. simpl.
  assert (length la = 3) as Hla by lia. assert (length lb = 1) as Hlb by lia.
  rewrite Hla, Hlb. simpl. by rewrite Hla.
Qed.

Lemma chain3_sites_differ : sites_differ chain3.
Proof.
  intros i j ri rj Hi Hj Hne.
  destruct i as [|[|[|i]]], j as [|[|[|j]]]; try done;
    injection Hi as <-; injection Hj as <-; reflexivity.
Qed.

Lemma relayer_other_layer_witness :
  sites_differ chain3
  ∧ (∃ w', relayer 0 tree_single (LayerInt 0) None None world3 = (Ok 1, w')
           ∧ chains w' !! 0 = Some (self chain3)
           ∧ chains w' !! 1 = Some (mkMPS NB [5; 6; 7] None None)
           ∧ leg (tensors world3 !!! 0) 2 = bond 1
           ∧ leg (tensors w' !!! 0) 2 = mkLab "c1" None
           ∧ tensors w' !! 2 = tensors world3 !! 2)
  ∧ ∃ w', relayer 0 tree (LayerInt 2) None None world3 = (Ok 1, w')
          ∧ chains w' !! 0 = Some (self chain3)
          ∧ chains w' !! 1 = Some (mkMPS NB [5; 6; 7; 8; 9; 10] (Some 11) (Some 6%Z)).
Proof.
  split; [exact chain3_sites_differ|].
  assert (∀ lr, Lambda (self chain3) = Some lr → lr ∉ ms (self chain3)) as Hlam.
  { intros lr [= <-] [j Hj]%list_elem_of_lookup_1.
    destruct j as [|[|[|j]]]; discriminate. }
  split.
  - eexists. split.
    + refine (proj1 (proj1 (relayer_other_layer world3 0 tree_single (LayerInt 0) None None
                       (self chain3) 0 [1; 2] 0%Z
                       sym_label_eq_refl sym_product_keeps_site eq_refl eq_refl
                       chain3_centered chain3_closed chain3_center_on_bond
                       chain3_sites_differ Hlam eq_refl _ _ _) _ _ _ eq_refl _ _)).
      * vm_compute. intuition discriminate.
      * vm_compute. discriminate.
      * exists 1. reflexivity.
      * vm_compute. done.
      * repeat constructor.
      * repeat constructor.
    + vm_compute. done.
  - eexists. split.
    + refine (proj2 (relayer_other_layer world3 0 tree (LayerInt 2) None None
                       (self chain3) 0 [1; 2] 2%Z
                       sym_label_eq_refl sym_product_keeps_site eq_refl eq_refl
                       chain3_centered chain3_closed chain3_center_on_bond
                       chain3_sites_differ Hlam eq_refl _ _ _) _ _ _ eq_refl _ _).
      * vm_compute. intuition discriminate.
      * vm_compute. discriminate.
      * exists 1. reflexivity.
      * vm_compute. done.
      * repeat constructor.
      * reflexivity.
    + vm_compute. done.
Defined.

(** C9 as stated fails in three ways.  The chain returned for a finer layer
    has the cut at its right end and a [Lambda].  On a chain whose center
    was made by [reset(1)], [relayer] raises AssertionError after the
    remapping and leaves the chain without its center.  On a chain with a
    labelled center of which two tensors have the same site label, [relayer]
    returns and leaves the chain with other items and another cut. *)
Lemma relayer_other_layer_counterexample :
  let w' := (relayer 0 tree (LayerInt 2) None None world3).2 in
  let wr := (call 0 (reset (Some 1%Z)) world3).2 in
  let wr' := (relayer 0 tree (LayerInt 0) None None wr).2 in
  let wt := (relayer 0 tree (LayerInt 0) None None world_twin).2 in
  current_layer tree (tensors world3 !!! 0) = 1%Z
  ∧ (relayer 0 tree (LayerInt 2) None None world3).1 = Ok 1
  ∧ (cut <$> chains w' !! 1) = Some (Some 6%Z)
  ∧ (Lambda <$> chains w' !! 1) = Some (Some 11)
  ∧ (call 0 (reset (Some 1%Z)) world3).1 = Ok tt
  ∧ chains wr !! 0 = Some (mkMPS NB [0; 1; 4] (Some 5) (Some 1%Z))
  ∧ (relayer 0 tree (LayerInt 0) None None wr).1 = Raise AssertionError
  ∧ chains wr' !! 0 = Some (mkMPS NB [0; 6; 4] None None)
  ∧ chains world_twin !! 0 = Some (mkMPS NB [0; 1; 2] (Some 3) (Some 1%Z))
  ∧ (relayer 0 tree (LayerInt 0) None None world_twin).1 = Ok 1
  ∧ chains wt !! 0 = Some (mkMPS NB [0; 4; 1] (Some 3) (Some 2%Z)).
Proof. vm_compute. done. Qed.

Lemma shift_copy_leaves_original_witness :
  chains world3 !! 0 = Some (self chain3)
  ∧ untouched world3 (__lshift__ 0 (ShiftInt 1) world3).2
  ∧ chains (__lshift__ 0 (ShiftInt 1) world3).2 !! 0 = Some (self chain3).
Proof.
  split; [reflexivity|].
  destruct (shift_copy_leaves_original world3 0 (self chain3) (ShiftInt 1)
              eq_refl chain3_centered) as [H _].
  destruct (H (__lshift__ 0 (ShiftInt 1) world3).1 (__lshift__ 0 (ShiftInt 1) world3).2)
    as (Hu & Hc & _); [apply surjective_pairing|].
  split; [exact Hu|exact Hc].
Defined.

Lemma norm_leaves_chain_witness :
  chains world3 !! 0 = Some (self chain3)
  ∧ ∃ s3 lr,
      norm 0 world3 =
      (Ok (heap s3 !!! lr), mkWorld [self chain3; self s3] (heap s3) (trail s3))
      ∧ cut (self s3) = Some 3%Z
      ∧ Lambda (self s3) = Some lr
      ∧ trail s3 = [MoveR; MoveR; MoveR].
Proof.
  split; [reflexivity|].
  assert (has_neighbour (self chain3)) as Hn by (right; vm_compute; done).
  pose proof (norm_leaves_chain world3 0 (self chain3) eq_refl chain3_centered Hn) as H.
  cbv zeta in H. destruct H as (s3 & lr & _ & Hc & Hl & Ht & _ & Hrun).
  exists s3, lr. split; [exact Hrun|]. split; [exact Hc|]. split; [exact Hl|exact Ht].
Defined.

Lemma overlap_leaves_chains_witness :
  chains world3 !! 0 = Some (self chain3)
  ∧ untouched world3 (overlap 0 0 world3).2
  ∧ chains (overlap 0 0 world3).2 !! 0 = Some (self chain3).
Proof.
  split; [reflexivity|].
  destruct (overlap_leaves_chains world3 0 0 (self chain3) (self chain3)
              eq_refl eq_refl chain3_centered
              (overlap 0 0 world3).1 (overlap 0 0 world3).2)
    as (Hu & Hc & _); [apply surjective_pairing|].
  split; [exact Hu|exact Hc].
Defined.

Lemma chain3_has_neighbour : has_neighbour (self chain3).
Proof. right. vm_compute. done. Qed.

Lemma merge_then_set_restores_witness :
  centered (self chain3)
  ∧ ('(m, lam) ← _merge_ABL_ SideR; _set_ABL_ m lam) chain3 =
    (Ok tt, mkSigma (self chain3) (heap (collapse chain3)) (trail chain3)).
Proof.
  split.
  - exists 2%Z, 3. vm_compute. intuition discriminate.
  - exact (merge_then_set_restores chain3 sym_label_eq_refl sym_product_keeps_site
             chain3_centered chain3_has_neighbour chain3_closed chain3_center_on_bond
             chain3_sites_differ).
Defined.

Lemma shift_by_count_witness :
  cut (self chain3) = Some 2%Z
  ∧ ∃ s', __ilshift__ (ShiftTuple 2 None None) chain3 = (Ok tt, s')
          ∧ cut (self s') = Some 0%Z
          ∧ trail s' = [MoveL; MoveL].
Proof.
  split; [reflexivity|].
  destruct (shift_by_count chain3 2 3 2 None None eq_refl eq_refl) as [H _].
  - vm_compute. intuition discriminate.
  - lia.
  - destruct H as (s' & Hrun & _ & Hc & Ht); [lia|].
    exists s'. split; [exact Hrun|]. split; [exact Hc|exact Ht].
Defined.

Lemma compress_repeats_witness :
  nsite (self chain3) = 3%Z
  ∧ ∃ s', compress 2 1 None None chain3 = (Ok tt, s')
          ∧ cut (self s') = Some 1%Z
          ∧ trail s' = [MoveL; MoveL; MoveL; MoveR; MoveL; MoveL; MoveL; MoveR].
Proof.
  split; [reflexivity|].
  destruct (compress_repeats chain3 2 1 None None chain3_centered)
    as (s' & Hrun & Hc & _ & Ht).
  - vm_compute. done.
  - vm_compute. intuition discriminate.
  - lia.
  - exists s'. split; [exact Hrun|]. split; [exact Hc|exact Ht].
Defined.

Lemma init_size_mismatch_fails_witness :
  length [7] ≠ length (@nil lab)
  ∧ __init__labelled NB [7] None None [] [bond 0; bond 1] world3 =
    (Raise AssertionError, world3).
Proof.
  assert (length [7] ≠ length (@nil lab)) as H by discriminate.
  split; [exact H|].
  apply (init_size_mismatch_fails world3 NB [7] None None [] [bond 0; bond 1]).
  left. exact H.
Defined.

Lemma shift_overshoot_witness :
  (2 < 5)%Z
  ∧ ∃ e s', __ilshift__ (ShiftTuple 5 None None) chain3 = (Raise e, s')
            ∧ e = ValueError
            ∧ cut (self s') = Some 0%Z
            ∧ trail s' = [MoveL; MoveL].
Proof.
  split; [lia|].
  destruct (shift_overshoot_stops_at_boundary chain3 2 3 5 None None eq_refl eq_refl)
    as [H _].
  - vm_compute. intuition discriminate.
  - destruct H as (e & s' & Hrun & He & Hc & _ & _ & Ht); [lia|].
    exists e, s'. split; [exact Hrun|]. split; [|split; [exact Hc|exact Ht]].
    apply He. vm_compute. done.
Defined.

Lemma canonicalize_out_of_range_witness :
  (nsite (self chain3) < 4)%Z
  ∧ ∃ s', canonicalize 4 None None chain3 = (Raise IndexError, s')
          ∧ cut (self s') = Some 3%Z
          ∧ trail s' = [MoveR; MoveR; MoveR].
Proof.
  assert (nsite (self chain3) < 4)%Z as H by (vm_compute; done).
  split; [exact H|].
  destruct (canonicalize_out_of_range_raises chain3 4 None None chain3_centered
              chain3_has_neighbour) as [_ Hr].
  destruct (Hr H) as (s' & Hrun & Hc & _ & Ht).
  exists s'. split; [exact Hrun|]. split; [exact Hc|exact Ht].
Defined.

Lemma As_Bs_partition_witness :
  cut (self chain3) = Some 2%Z
  ∧ As (self chain3) ++ Bs (self chain3) = ms (self chain3)
  ∧ As (self chain3) = [0; 1] ∧ Bs (self chain3) = [2].
Proof.
  split; [reflexivity|].
  destruct (As_Bs_partition (self chain3)) as [H _].
  destruct (H 2%Z eq_refl) as [Happ Hin]. split; [exact Happ|].
  apply Hin. vm_compute. intuition discriminate.
Defined.

Lemma table_finds_last_site_witness :
  ms (self chain3) !! 1 = Some 1
  ∧ table_at (phys 1) chain3 = (Ok 1, chain3)
  ∧ table_at (phys 7) chain3 = (Raise KeyError, chain3).
Proof.
  split; [reflexivity|]. split.
  - apply (proj1 (table_finds_last_site chain3 (phys 1)) 1 1); try reflexivity.
    intros j r' Hlt Hj. destruct j as [|[|[|j]]]; try lia; [|done].
    injection Hj as <-. reflexivity.
  - apply (proj2 (table_finds_last_site chain3 (phys 7))).
    intros r Hr. apply list_elem_of_lookup_1 in Hr as [j Hj].
    destruct j as [|[|[|j]]]; try done; injection Hj as <-; reflexivity.
Defined.

Lemma relabel_keeps_structure_witness :
  length (@nil lab) ≠ length (ms (self chain3))
  ∧ relabel [] [bond 0] chain3 = (Raise AssertionError, chain3).
Proof.
  assert (length (@nil lab) ≠ length (ms (self chain3))) as H by discriminate.
  split; [exact H|].
  apply (proj1 (relabel_keeps_structure chain3 [] [bond 0])).
  intros [Hl _]. exact (H Hl).
Defined.

Lemma relabel_then_sites_bonds_witness :
  NoDup (ms (self chain3))
  ∧ ∃ s', relabel [phys 4; phys 5; phys 6] [bond 4; bond 5; bond 6; bond 7] chain3
          = (Ok tt, s')
          ∧ sites s' = [phys 4; phys 5; phys 6]
          ∧ bonds s' = [bond 4; bond 5; bond 6; bond 7].
Proof.
  assert (NoDup (ms (self chain3))) as Hnd.
  { apply NoDup_ListNoDup. vm_compute. repeat constructor; simpl; lia. }
  split; [exact Hnd|].
  destruct (relabel_then_sites_bonds chain3 [phys 4; phys 5; phys 6]
              [bond 4; bond 5; bond 6; bond 7]) as (s' & Hrun & Hs & Hb).
  - intros t a b c. split; [reflexivity|]. split; reflexivity.
  - reflexivity.
  - exact chain3_centered.
  - exact chain3_closed.
  - exact Hnd.
  - intros lr [= <-]. intros [j Hj]%list_elem_of_lookup_1.
    destruct j as [|[|[|j]]]; discriminate.
  - reflexivity.
  - reflexivity.
  - exists s'. split; [exact Hrun|]. split; [exact Hs|]. apply Hb. vm_compute. done.
Defined.

Lemma mul_scales_copy_witness :
  chains world3 !! 0 = Some (self chain3)
  ∧ __mul__ 0 (λ t, tmul t t) world3 =
    (Ok 1, mkWorld [self chain3; mkMPS NB [0; 1; 2] (Some 4) (Some 2%Z)]
                   (tensors world3 ++ [tmul (diag 2) (diag 2)]) []).
Proof.
  split; [reflexivity|].
  exact (mul_scales_copy world3 0 (self chain3) (λ t, tmul t t) eq_refl).
Defined.

Lemma concatenate_sums_sites_witness :
  Forall (λ r, r < length (chains world3)) [0]
  ∧ ∃ w', concatenate [0] None (Some 1%Z) world3 = (Ok 1, w')
          ∧ stable world3 w'
          ∧ length (ms (chains w' !!! 1)) = 3.
Proof.
  assert (Forall (λ r, r < length (chains world3)) [0]) as H.
  { repeat constructor. }
  split; [exact H|].
  destruct (concatenate_sums_sites world3 [0] None (Some 1%Z) H) as (_ & _ & Hc).
  - intros first [= <-]. exact chain3_centered.
  - assert (concatenate [0] None (Some 1%Z) world3 =
            (Ok 1, (concatenate [0] None (Some 1%Z) world3).2)) as Hrun.
    { vm_compute. reflexivity. }
    destruct (Hc _ _ Hrun) as [Hs Hr].
    eexists. split; [exact Hrun|]. split; [exact Hs|].
    exact (proj2 (proj2 (Hr 1 eq_refl))).
Defined.

Lemma add_returns_center_free_witness :
  chains world3 !! 0 = Some (self chain3)
  ∧ stable world3 (__add__ 0 (AddMPS 0) world3).2.
Proof.
  split; [reflexivity|].
  destruct (add_returns_center_free world3 0 0 (self chain3) (self chain3)
              eq_refl eq_refl) as [_ H].
  exact (proj1 (H (__add__ 0 (AddMPS 0) world3).1 (__add__ 0 (AddMPS 0) world3).2
                  (surjective_pairing _))).
Defined.

Lemma dagger_returns_new_chain_witness :
  chains world3 !! 0 = Some (self chain3)
  ∧ ∃ w', dagger_of 0 world3 = (Ok 1, w')
          ∧ chains w' = [self chain3; mkMPS NB [4; 5; 6] (Some 7) (Some 2%Z)]
          ∧ length (tensors w') = 8.
Proof.
  split; [reflexivity|].
  eexists. split.
  - apply (dagger_returns_new_chain world3 0 (self chain3) eq_refl chain3_centered).
    + repeat constructor.
    + intros lr [= <-]. split; [vm_compute; lia|reflexivity].
  - split; reflexivity.
Defined.

#[local] Existing Instance listing_order.

Lemma nat_weak_order : weak_order Nat.lt.
Proof.
  split; [split|].
  - intros x Hx. unfold Nat.lt in Hx. lia.
  - intros x y z. unfold Nat.lt. lia.
  - intros a b c. unfold Nat.lt. lia.
Qed.

Lemma NoDup_312 : NoDup [3; 1; 2].
Proof. apply NoDup_ListNoDup. repeat constructor; simpl; lia. Qed.

Lemma Table_numbers_by_position_witness :
  [5; 7; 5] !! 2 = Some 5
  ∧ DegreeOfFreedom.Table Nat.lt [5; 7; 5] None !! 5 = Some 2
  ∧ DegreeOfFreedom.Table Nat.lt [5; 7; 5] None !! 6 = None.
Proof.
  split; [reflexivity|].
  destruct (Table_numbers_by_position Nat.lt [5; 7; 5]) as (Hlast & Hnone & _).
  split.
  - apply (Hlast 2 5 eq_refl). intros j Hj. destruct j as [|[|[|j]]]; try lia; done.
  - apply Hnone. intros Hin. apply list_elem_of_lookup_1 in Hin as [j Hj].
    destruct j as [|[|[|j]]]; discriminate.
Defined.

Lemma Table_numbers_by_key_witness :
  NoDup [3; 1; 2]
  ∧ size (DegreeOfFreedom.Table Nat.lt [3; 1; 2] (Some id)) = 3
  ∧ ∃ i j, DegreeOfFreedom.Table Nat.lt [3; 1; 2] (Some id) !! 1 = Some i
           ∧ DegreeOfFreedom.Table Nat.lt [3; 1; 2] (Some id) !! 3 = Some j
           ∧ i < j.
Proof.
  split; [exact NoDup_312|].
  destruct (Table_numbers_by_key Nat.lt [3; 1; 2] id nat_weak_order NoDup_312)
    as (Hsize & Hdom & _ & _ & Hord).
  split; [exact Hsize|].
  destruct (proj2 (Hdom 1)) as [i Hi]; [repeat constructor|].
  destruct (proj2 (Hdom 3)) as [j Hj]; [repeat constructor|].
  exists i, j. split; [exact Hi|]. split; [exact Hj|].
  apply (Hord 1 3 i j Hi Hj). left. unfold id, Nat.lt. lia.
Defined.

Lemma union_offsets_tables_witness :
  Forall NoDup [[1; 2]; [2; 3]]
  ∧ DegreeOfFreedom.union Nat.lt
      [DegreeOfFreedom.Table Nat.lt [1; 2] None; DegreeOfFreedom.Table Nat.lt [2; 3] None]
      None
    = DegreeOfFreedom.Table Nat.lt [1; 2; 2; 3] None.
Proof.
  assert (Forall NoDup [[1; 2]; [2; 3]]) as H.
  { constructor; [|constructor; [|constructor]];
      apply NoDup_ListNoDup; repeat constructor; simpl; lia. }
  split; [exact H|].
  exact (union_offsets_tables Nat.lt [[1; 2]; [2; 3]] H).
Defined.

Lemma union_numbers_by_key_witness :
  weak_order Nat.lt
  ∧ injective (DegreeOfFreedom.union Nat.lt
                 [DegreeOfFreedom.Table Nat.lt [1; 2] None;
                  DegreeOfFreedom.Table Nat.lt [0] None] (Some id)).
Proof.
  split; [exact nat_weak_order|].
  destruct (union_numbers_by_key Nat.lt
              [DegreeOfFreedom.Table Nat.lt [1; 2] None;
               DegreeOfFreedom.Table Nat.lt [0] None] id nat_weak_order)
    as (_ & _ & Hinj & _).
  exact Hinj.
Defined.

Lemma subset_renumbers_in_order_witness :
  injective (DegreeOfFreedom.subset (DegreeOfFreedom.Table Nat.lt [4; 5; 6] None) Nat.even)
  ∧ ∃ i j, DegreeOfFreedom.subset (DegreeOfFreedom.Table Nat.lt [4; 5; 6] None) Nat.even
             !! 4 = Some i
           ∧ DegreeOfFreedom.subset (DegreeOfFreedom.Table Nat.lt [4; 5; 6] None) Nat.even
               !! 6 = Some j
           ∧ i < j.
Proof.
  destruct (subset_renumbers_in_order
              (DegreeOfFreedom.Table Nat.lt [4; 5; 6] None) Nat.even)
    as (Hdom & _ & Hinj & Hord).
  split; [exact Hinj|].
  destruct (proj2 (Hdom 4)) as [i Hi]; [split; [by eexists|reflexivity]|].
  destruct (proj2 (Hdom 6)) as [j Hj]; [split; [by eexists|reflexivity]|].
  exists i, j. split; [exact Hi|]. split; [exact Hj|].
  apply (Hord 4 6 0 2 i j); [reflexivity|reflexivity|exact Hi|exact Hj|lia].
Defined.

Lemma reversed_table_round_trip_witness :
  injective (DegreeOfFreedom.Table Nat.lt [3; 1; 2] None)
  ∧ DegreeOfFreedom.reversed_table
      (DegreeOfFreedom.reversed_table (DegreeOfFreedom.Table Nat.lt [3; 1; 2] None))
    = DegreeOfFreedom.Table Nat.lt [3; 1; 2] None.
Proof.
  assert (injective (DegreeOfFreedom.Table Nat.lt [3; 1; 2] None)) as H.
  { destruct (numbering [3; 1; 2] NoDup_312) as (_ & _ & _ & Hinj & _). exact Hinj. }
  split; [exact H|].
  exact (proj2 (reversed_table_round_trip _ H)).
Defined.

Lemma sample_fields_differ : NoDup (sample_pid ++ sample_iid).*1.
Proof.
  apply NoDup_ListNoDup. repeat constructor; simpl; intuition discriminate.
Qed.

Lemma sample_index_consistent : consistent sample_index.
Proof. split; [exact sample_fields_differ|reflexivity]. Qed.

Lemma replace_sets_named_attributes_witness :
  consistent sample_index
  ∧ ∃ y, DegreeOfFreedom.replace sample_index {[ "site" := Some 7 ]} = Ok y
         ∧ DegreeOfFreedom.od_get (DegreeOfFreedom.__dict__ y) "site" = Some 7
         ∧ DegreeOfFreedom.od_get (DegreeOfFreedom.__dict__ y) "scope" = Some 1.
Proof.
  split; [exact sample_index_consistent|].
  destruct (replace_sets_named_attributes sample_index {[ "site" := Some 7 ]}
              sample_index_consistent) as [Hok _].
  destruct Hok as (y & Hy & _ & _ & Hget).
  - intros k [v Hk]. apply lookup_singleton_Some in Hk as [<- _].
    right. left.
  - exists y. split; [exact Hy|]. split.
    + rewrite (Hget "site"); [reflexivity|]. right. left.
    + rewrite (Hget "scope"); [reflexivity|]. left.
Defined.

Lemma copy_gives_equal_index_witness :
  NoDup (sample_pid ++ sample_iid).*1
  ∧ DegreeOfFreedom.__copy__ sample_index = Ok sample_index.
Proof.
  split; [exact sample_fields_differ|].
  exact (proj2 (copy_gives_equal_index sample_pid sample_iid sample_fields_differ)).
Defined.

Lemma select_keeps_named_attributes_witness :
  consistent sample_index
  ∧ ∃ y, DegreeOfFreedom.select sample_index ["site"; "spin"] = Ok y
         ∧ DegreeOfFreedom.od_get (DegreeOfFreedom.__dict__ y) "site" = Some 2
         ∧ DegreeOfFreedom.od_get (DegreeOfFreedom.__dict__ y) "scope" = None
         ∧ DegreeOfFreedom.select y ["site"; "spin"] = Ok y.
Proof.
  split; [exact sample_index_consistent|].
  destruct (select_keeps_named_attributes sample_index ["site"; "spin"]
              sample_index_consistent) as [_ (y & Hy & _ & _ & Hget & Hagain)].
  exists y. split; [exact Hy|]. split; [|split; [|exact Hagain]].
  - rewrite (Hget "site"). reflexivity.
  - rewrite (Hget "scope"). reflexivity.
Defined.

Lemma to_tuple_orders_attributes_witness :
  NoDup ["orbital"; "scope"; "spin"]
  ∧ ∃ t, DegreeOfFreedom.to_tuple sample_index ["orbital"; "scope"; "spin"] = Ok t
         ∧ length t = 3
         ∧ t !! 2 = Some None.
Proof.
  assert (NoDup ["orbital"; "scope"; "spin"]) as Hnd.
  { apply NoDup_ListNoDup. repeat constructor; simpl; intuition discriminate. }
  split; [exact Hnd|].
  destruct (to_tuple_orders_attributes sample_index ["orbital"; "scope"; "spin"])
    as (_ & _ & Hok).
  destruct (Hok Hnd eq_refl) as (t & Ht & Hlen & Hnone & _).
  exists t. split; [exact Ht|]. split; [exact Hlen|].
  apply (Hnone 2 "spin" eq_refl).
  intros Hin. apply list_elem_of_lookup_1 in Hin as [j Hj].
  destruct j as [|[|[|j]]]; discriminate.
Defined.

End Examples.
